(** * Gypsum: molecule records, conformers and desalting

    A shallow embedding of [gypsum/MyMol.py] (classes [MyConformer] and
    [MyMol]) and of [gypsum/Steps/SMILES/DeSaltOrigSmiles.py] ([desalter]).

    RDKit is an external library: its operations are the fields of the class
    [ChemEngine] and every definition below is parametric in it.  Python
    exceptions are the [Raise] case of the [result] monad; an attribute that
    an object may lack is an [option] field.  [Utils.log] only prints and is
    left out. *)

From Stdlib Require Import ZArith QArith Lia Ascii.
From stdpp Require Import base option list strings gmap sorting.

Local Open Scope string_scope.
Local Open Scope list_scope.

(** ** Python values and exceptions *)

Inductive exn : Type :=
| AttributeError   (* attribute looked up on None, False, a str, or unset *)
| TypeError        (* [s in None], [s in False] *)
| ValueError       (* [max([])] *)
| KeyError
| IndexError
| ArgumentError    (* Boost.Python: an RDKit call given None *)
| EngineError.     (* an exception raised inside RDKit *)

Inductive result (A : Type) : Type :=
| Ok (a : A)
| Raise (e : exn).
Arguments Ok {A} a.
Arguments Raise {A} e.

#[global] Instance result_ret : MRet result := @Ok.
#[global] Instance result_bind : MBind result :=
  λ A B f m, match m with Ok a => f a | Raise e => Raise e end.

#[global] Instance result_fmap : FMap result :=
  λ A B f m, match m with Ok a => Ok (f a) | Raise e => Raise e end.

Definition is_Ok {A} (r : result A) : bool :=
  match r with Ok _ => true | Raise _ => false end.

(** The values the string-or-sentinel attributes take: [can_smi] is [""]
    (not computed yet), a string, [None] or [False]; the loop variables of
    [fix_common_errors] start as [True] and [False]. *)
Inductive pyval : Type :=
| PStr (s : string)
| PNone
| PBool (b : bool).

#[global] Instance pyval_eq_dec : EqDecision pyval.
Proof. solve_decision. Defined.

(** [a != b] on these values. *)
Definition py_ne (a b : pyval) : bool := bool_decide (a ≠ b).

(** [sub in s] on strings. *)
Fixpoint str_contains (sub s : string) : bool :=
  String.prefix sub s ||
  match s with
  | EmptyString => false
  | String _ s' => str_contains sub s'
  end.

(** [sub in v]: a [TypeError] unless [v] is a string. *)
Definition py_in (sub : string) (v : pyval) : result bool :=
  match v with
  | PStr s => Ok (str_contains sub s)
  | _ => Raise TypeError
  end.

(** The builtin [hash] on what [smiles()] can return. *)
Class PyRuntime := {
  str_hash : string → Z;
  none_hash : Z;
}.

Definition py_hash `{PyRuntime} (v : pyval) : Z :=
  match v with
  | PStr s => str_hash s
  | PNone => none_hash
  | PBool b => if b then 1 else 0
  end.

(** [hash] returns a machine word ([Py_hash_t], 64 bits). *)
Definition hash_in_range `{PyRuntime} : Prop :=
  ∀ s, (- 2 ^ 63 ≤ str_hash s < 2 ^ 63)%Z.

(** ** The RDKit interface *)

Record Atom : Type := {
  GetAtomicNum : nat;
  GetIsAromatic : bool;
  GetSymbol : string;
  GetNumImplicitHs : nat;
  GetNumExplicitHs : nat;
}.

Inductive BondStereo : Type := STEREONONE | STEREOANY | STEREOZ | STEREOE.

#[global] Instance BondStereo_eq_dec : EqDecision BondStereo.
Proof. solve_decision. Defined.

Record Bond : Type := {
  GetBondTypeAsDouble : Q;
  GetStereo : BondStereo;
}.

Class ChemEngine := {
  Graph : Type;      (* an rdkit Mol without its conformers *)
  Geom : Type;       (* an rdkit Conformer: one coordinate set *)
  Float : Type;      (* energies and distances *)
  flt : Float → Float → bool;      (* [<], used by [list.sort] *)
  fle : Float → Float → bool;      (* [<=] *)
  (* Chem: [None] stands for a raised exception, except for the two
     parsers, which return None on a syntax error. *)
  SanitizeFlags_values : list Z;
  SANITIZE_CLEANUP : Z;
  SANITIZE_ALL : Z;
  MolFromSmiles_unsanitized : string → option Graph;
  SanitizeMol : Graph → Z → option Graph;
  MolFromSmiles : string → option Graph;
  MolToSmiles : Graph → option string;
  AddHs : Graph → Graph;
  RemoveHs : Graph → Graph;
  GetMolFrags : Graph → list Graph;
  GetNumHeavyAtoms : Graph → nat;
  GetAtoms : Graph → list Atom;        (* position = atom index *)
  GetBonds : Graph → list Bond;        (* position = bond index *)
  GetSymmSSSR : Graph → list (list nat);
  FindMolChiralCenters : Graph → bool → list (nat * string);
  HasSubstructMatch : Graph → string → bool;       (* pattern as SMARTS *)
  ReplaceSubstructs : Graph → string → string → list Graph;
  RunReactants : string → Graph → list (list Graph);
  (* AllChem: embedding draws on a random state. *)
  Seed : Type;
  EmbedMolecule_ETKDG : Graph → Seed → option Geom * Seed;
  EmbedMolecule_default : Graph → Seed → option Geom * Seed;
  UFFCalcEnergy : Graph → Geom → Float;
  UFFMinimize : Graph → Geom → Geom;
  (* [AlignConformer g ids ref probe]: [probe] moved onto [ref], fitting
     the atoms [ids]. *)
  AlignConformer : Graph → list nat → Geom → Geom → Geom;
  (* [GetConformerRMS(..., prealigned=True)]: no further alignment. *)
  GetConformerRMS : Graph → Geom → Geom → Float;
}.

(** [for x in l: b = f(b, x)], stopping at the first exception. *)
Fixpoint for_each {A B} (f : B → A → result B) (l : list A) (b : B) : result B :=
  match l with
  | [] => Ok b
  | x :: l' => b' ← f b x; for_each f l' b'
  end.

Section Model.
Context `{R : PyRuntime} `{E : ChemEngine}.

(** ** class MyConformer *)

(** [self.mol]: [False] after a failed embedding, else a copy of the
    molecule's graph with its list of conformers. *)
Inductive cmol : Type :=
| CMolFalse
| CMol (g : Graph) (confs : list Geom).

(** [minimized], [energy] and [ids_hvy_atms] are assigned only when the
    embedding succeeded: [None] is the unset attribute. *)
Record MyConformer : Type := {
  conf_mol : cmol;
  conf_smiles : pyval;
  minimized : option bool;
  energy : option Float;
  ids_hvy_atms : option (list nat);
}.

(** ** class MyMol *)

(** [self.rdkit_mol]: [""] until built, [None] when sanitizing failed. *)
Inductive molref : Type :=
| MolUnset
| MolNone
| Mol (g : Graph).

(** [orig_smi] holds the constructor's argument: a string, or the rdkit
    object itself when it could not be canonicalized. *)
Inductive smi : Type :=
| SmiStr (s : string)
| SmiMol (g : Graph).

(** What [get_frags_of_orig_smi] returns: [[self]] or rdkit fragments. *)
Inductive frags : Type :=
| FragsSelf
| FragsMols (l : list Graph).

(** The caches hold [""] until computed: [None] here.  The dictionaries
    [enrgy], [minimized_enrgy], [mol_props], the two index sets and
    [stdrd_smiles] are not read by the methods below and are left out. *)
Record MyMol : Type := {
  rdkit_mol : molref;
  can_smi : pyval;
  can_smi_noh : string;
  orig_smi : smi;
  orig_smi_deslt : smi;
  name : string;
  conformers : list MyConformer;
  nonaro_ring_atom_idx : option (list (list nat));
  chiral_cntrs_only_assigned : option (list (nat * string));
  chiral_cntrs_include_unasignd : option (list (nat * string));
  crzy_substruct : option bool;
  contnr_idx : option Z;
  frgs : option frags;
  genealogy : list string;
}.

Definition set_rdkit_mol (v : molref) (m : MyMol) : MyMol :=
  {| rdkit_mol := v; can_smi := can_smi m; can_smi_noh := can_smi_noh m;
     orig_smi := orig_smi m; orig_smi_deslt := orig_smi_deslt m;
     name := name m; conformers := conformers m;
     nonaro_ring_atom_idx := nonaro_ring_atom_idx m;
     chiral_cntrs_only_assigned := chiral_cntrs_only_assigned m;
     chiral_cntrs_include_unasignd := chiral_cntrs_include_unasignd m;
     crzy_substruct := crzy_substruct m; contnr_idx := contnr_idx m;
     frgs := frgs m; genealogy := genealogy m |}.

Definition set_can_smi (v : pyval) (m : MyMol) : MyMol :=
  {| rdkit_mol := rdkit_mol m; can_smi := v; can_smi_noh := can_smi_noh m;
     orig_smi := orig_smi m; orig_smi_deslt := orig_smi_deslt m;
     name := name m; conformers := conformers m;
     nonaro_ring_atom_idx := nonaro_ring_atom_idx m;
     chiral_cntrs_only_assigned := chiral_cntrs_only_assigned m;
     chiral_cntrs_include_unasignd := chiral_cntrs_include_unasignd m;
     crzy_substruct := crzy_substruct m; contnr_idx := contnr_idx m;
     frgs := frgs m; genealogy := genealogy m |}.

Definition set_can_smi_noh (v : string) (m : MyMol) : MyMol :=
  {| rdkit_mol := rdkit_mol m; can_smi := can_smi m; can_smi_noh := v;
     orig_smi := orig_smi m; orig_smi_deslt := orig_smi_deslt m;
     name := name m; conformers := conformers m;
     nonaro_ring_atom_idx := nonaro_ring_atom_idx m;
     chiral_cntrs_only_assigned := chiral_cntrs_only_assigned m;
     chiral_cntrs_include_unasignd := chiral_cntrs_include_unasignd m;
     crzy_substruct := crzy_substruct m; contnr_idx := contnr_idx m;
     frgs := frgs m; genealogy := genealogy m |}.

Definition set_conformers (v : list MyConformer) (m : MyMol) : MyMol :=
  {| rdkit_mol := rdkit_mol m; can_smi := can_smi m; can_smi_noh := can_smi_noh m;
     orig_smi := orig_smi m; orig_smi_deslt := orig_smi_deslt m;
     name := name m; conformers := v;
     nonaro_ring_atom_idx := nonaro_ring_atom_idx m;
     chiral_cntrs_only_assigned := chiral_cntrs_only_assigned m;
     chiral_cntrs_include_unasignd := chiral_cntrs_include_unasignd m;
     crzy_substruct := crzy_substruct m; contnr_idx := contnr_idx m;
     frgs := frgs m; genealogy := genealogy m |}.

Definition set_nonaro_ring_atom_idx (v : list (list nat)) (m : MyMol) : MyMol :=
  {| rdkit_mol := rdkit_mol m; can_smi := can_smi m; can_smi_noh := can_smi_noh m;
     orig_smi := orig_smi m; orig_smi_deslt := orig_smi_deslt m;
     name := name m; conformers := conformers m;
     nonaro_ring_atom_idx := Some v;
     chiral_cntrs_only_assigned := chiral_cntrs_only_assigned m;
     chiral_cntrs_include_unasignd := chiral_cntrs_include_unasignd m;
     crzy_substruct := crzy_substruct m; contnr_idx := contnr_idx m;
     frgs := frgs m; genealogy := genealogy m |}.

Definition set_chiral_cntrs_only_assigned (v : list (nat * string)) (m : MyMol) : MyMol :=
  {| rdkit_mol := rdkit_mol m; can_smi := can_smi m; can_smi_noh := can_smi_noh m;
     orig_smi := orig_smi m; orig_smi_deslt := orig_smi_deslt m;
     name := name m; conformers := conformers m;
     nonaro_ring_atom_idx := nonaro_ring_atom_idx m;
     chiral_cntrs_only_assigned := Some v;
     chiral_cntrs_include_unasignd := chiral_cntrs_include_unasignd m;
     crzy_substruct := crzy_substruct m; contnr_idx := contnr_idx m;
     frgs := frgs m; genealogy := genealogy m |}.

Definition set_chiral_cntrs_include_unasignd (v : list (nat * string)) (m : MyMol) : MyMol :=
  {| rdkit_mol := rdkit_mol m; can_smi := can_smi m; can_smi_noh := can_smi_noh m;
     orig_smi := orig_smi m; orig_smi_deslt := orig_smi_deslt m;
     name := name m; conformers := conformers m;
     nonaro_ring_atom_idx := nonaro_ring_atom_idx m;
     chiral_cntrs_only_assigned := chiral_cntrs_only_assigned m;
     chiral_cntrs_include_unasignd := Some v;
     crzy_substruct := crzy_substruct m; contnr_idx := contnr_idx m;
     frgs := frgs m; genealogy := genealogy m |}.

Definition set_crzy_substruct (v : bool) (m : MyMol) : MyMol :=
  {| rdkit_mol := rdkit_mol m; can_smi := can_smi m; can_smi_noh := can_smi_noh m;
     orig_smi := orig_smi m; orig_smi_deslt := orig_smi_deslt m;
     name := name m; conformers := conformers m;
     nonaro_ring_atom_idx := nonaro_ring_atom_idx m;
     chiral_cntrs_only_assigned := chiral_cntrs_only_assigned m;
     chiral_cntrs_include_unasignd := chiral_cntrs_include_unasignd m;
     crzy_substruct := Some v; contnr_idx := contnr_idx m;
     frgs := frgs m; genealogy := genealogy m |}.

Definition set_frgs (v : frags) (m : MyMol) : MyMol :=
  {| rdkit_mol := rdkit_mol m; can_smi := can_smi m; can_smi_noh := can_smi_noh m;
     orig_smi := orig_smi m; orig_smi_deslt := orig_smi_deslt m;
     name := name m; conformers := conformers m;
     nonaro_ring_atom_idx := nonaro_ring_atom_idx m;
     chiral_cntrs_only_assigned := chiral_cntrs_only_assigned m;
     chiral_cntrs_include_unasignd := chiral_cntrs_include_unasignd m;
     crzy_substruct := crzy_substruct m; contnr_idx := contnr_idx m;
     frgs := Some v; genealogy := genealogy m |}.

(** The three assignments [desalter] makes on the record it built. *)
Definition set_contnr_props (idx : option Z) (nm : string) (gen : list string)
    (m : MyMol) : MyMol :=
  {| rdkit_mol := rdkit_mol m; can_smi := can_smi m; can_smi_noh := can_smi_noh m;
     orig_smi := orig_smi m; orig_smi_deslt := orig_smi_deslt m;
     name := nm; conformers := conformers m;
     nonaro_ring_atom_idx := nonaro_ring_atom_idx m;
     chiral_cntrs_only_assigned := chiral_cntrs_only_assigned m;
     chiral_cntrs_include_unasignd := chiral_cntrs_include_unasignd m;
     crzy_substruct := crzy_substruct m; contnr_idx := idx;
     frgs := frgs m; genealogy := gen |}.

(** The flags [makeMolFromSmiles] ors together: every sanitize operation
    except SANITIZE_CLEANUP and SANITIZE_ALL. *)
Definition sanitize_ops : Z :=
  foldl (λ a v, if bool_decide (v = SANITIZE_CLEANUP ∨ v = SANITIZE_ALL)
                then a else Z.lor a v) 0%Z SanitizeFlags_values.

(** [MyMol.makeMolFromSmiles]: the stored graph when there is one (or None),
    else the desalted notation parsed unsanitized and then sanitized; any
    exception of [SanitizeMol] (a None argument included) stores None. *)
Definition makeMolFromSmiles (self : MyMol) : result (molref * MyMol) :=
  match rdkit_mol self with
  | MolUnset =>
      match orig_smi_deslt self with
      | SmiStr s =>
          match MolFromSmiles_unsanitized s ≫= (λ m, SanitizeMol m sanitize_ops) with
          | None => Ok (MolNone, set_rdkit_mol MolNone self)
          | Some m => Ok (Mol m, set_rdkit_mol (Mol m) self)
          end
      | SmiMol _ => Raise ArgumentError
      end
  | r => Ok (r, self)
  end.

(** [MyMol.__init__(smiles, name)]: [smiles] is a string or an rdkit Mol. *)
Definition MyMol_init (smiles : string + Graph) (nm : string) : result MyMol :=
  let '(rd, can, orig) :=
    match smiles with
    | inl s => (MolUnset, PStr "", SmiStr s)
    | inr g =>
        match MolToSmiles g with
        | Some s => (Mol g, PStr s, SmiStr s)
        | None => (Mol g, PBool false, SmiMol g)
        end
    end in
  let self :=
    {| rdkit_mol := rd; can_smi := can; can_smi_noh := "";
       orig_smi := orig; orig_smi_deslt := orig; name := nm;
       conformers := []; nonaro_ring_atom_idx := None;
       chiral_cntrs_only_assigned := None;
       chiral_cntrs_include_unasignd := None; crzy_substruct := None;
       contnr_idx := None; frgs := None; genealogy := [] |} in
  snd <$> makeMolFromSmiles self.

(** [MyMol.smiles(noh)].  With [noh=False]: the cached form unless it is
    [""], else [MolToSmiles] in a try block that stores and returns None on
    any exception.  With [noh=True] nothing is caught. *)
Definition smiles (noh : bool) (self : MyMol) : result (pyval * MyMol) :=
  if negb noh then
    if py_ne (can_smi self) (PStr "") then Ok (can_smi self, self)
    else
      match (match rdkit_mol self with Mol g => MolToSmiles g | _ => None end) with
      | Some s => Ok (PStr s, set_can_smi (PStr s) self)
      | None => Ok (PNone, set_can_smi PNone self)
      end
  else
    if negb (String.eqb (can_smi_noh self) "") then Ok (PStr (can_smi_noh self), self)
    else
      match rdkit_mol self with
      | Mol g =>
          match MolToSmiles (RemoveHs g) with
          | Some s => Ok (PStr s, set_can_smi_noh s self)
          | None => Raise EngineError
          end
      | _ => Raise ArgumentError
      end.

(** [MyMol.__hash__] and [MyMol.__eq__]. *)
Definition MyMol_hash (self : MyMol) : result (Z * MyMol) :=
  '(can, self) ← smiles false self;
  Ok (py_hash can, self).

Definition MyMol_eq (self other : MyMol) : result (bool * (MyMol * MyMol)) :=
  '(h1, self) ← MyMol_hash self;
  '(h2, other) ← MyMol_hash other;
  Ok (bool_decide (h1 = h2), (self, other)).

(** *** Cached queries *)

(** The inner loop of [m_num_nonaro_rngs]: is some atom of the ring not
    aromatic?  [GetAtomWithIdx] raises on an index the graph lacks. *)
Fixpoint ring_has_nonaromatic (atoms : list Atom) (ring : list nat) : result bool :=
  match ring with
  | [] => Ok false
  | i :: ring' =>
      match atoms !! i with
      | None => Raise EngineError
      | Some a =>
          if negb (GetIsAromatic a) then Ok true
          else ring_has_nonaromatic atoms ring'
      end
  end.

(** [MyMol.m_num_nonaro_rngs]. *)
Definition m_num_nonaro_rngs (self : MyMol) : result (list (list nat) * MyMol) :=
  match nonaro_ring_atom_idx self with
  | Some cached => Ok (cached, self)
  | None =>
      match rdkit_mol self with
      | MolNone => Ok ([], self)
      | MolUnset => Raise ArgumentError
      | Mol g =>
          nonaro_rngs ←
            for_each (λ acc rng,
                        b ← ring_has_nonaromatic (GetAtoms g) rng;
                        Ok (if b : bool then acc ++ [rng] else acc))
                     (GetSymmSSSR g) [];
          Ok (nonaro_rngs, set_nonaro_ring_atom_idx nonaro_rngs self)
      end
  end.

(** [MyMol.chiral_cntrs_w_unasignd]. *)
Definition chiral_cntrs_w_unasignd (self : MyMol)
    : result (list (nat * string) * MyMol) :=
  match chiral_cntrs_include_unasignd self with
  | Some cached => Ok (cached, self)
  | None =>
      match rdkit_mol self with
      | MolNone => Ok ([], self)
      | MolUnset => Raise ArgumentError
      | Mol g =>
          let ccs := FindMolChiralCenters g true in
          Ok (ccs, set_chiral_cntrs_include_unasignd ccs self)
      end
  end.

(** [MyMol.chiral_cntrs_only_asignd]. *)
Definition chiral_cntrs_only_asignd (self : MyMol)
    : result (list (nat * string) * MyMol) :=
  match chiral_cntrs_only_assigned self with
  | Some cached => Ok (cached, self)
  | None =>
      match rdkit_mol self with
      | MolNone => Ok ([], self)
      | MolUnset => Raise ArgumentError
      | Mol g =>
          let ccs := FindMolChiralCenters g false in
          Ok (ccs, set_chiral_cntrs_only_assigned ccs self)
      end
  end.

(** [MyMol.get_double_bonds_without_stereochemistry] (not cached). *)
Definition get_double_bonds_without_stereochemistry (self : MyMol)
    : result (list nat) :=
  match rdkit_mol self with
  | MolNone => Ok []
  | MolUnset => Raise AttributeError
  | Mol g =>
      Ok (fst <$> filter (λ ib, Qeq_bool (GetBondTypeAsDouble ib.2) 2 = true
                                 ∧ GetStereo ib.2 = STEREONONE)
                         (imap (λ i b, (i, b)) (GetBonds g)))
  end.

Definition prohibited_substructures : list string := ["O(=*)-*"; "C(O)=N"].

(** [s in self.orig_smi]: a [TypeError] when the attribute holds a Mol. *)
Definition smi_in (sub : string) (v : smi) : result bool :=
  match v with
  | SmiStr s => Ok (str_contains sub s)
  | SmiMol _ => Raise TypeError
  end.

(** First loop of [crzy_substruc]: the textual tests, in source order. *)
Fixpoint crzy_text_match (self : MyMol) (pats : list string) : result bool :=
  match pats with
  | [] => Ok false
  | s :: pats' =>
      b1 ← smi_in s (orig_smi self);
      if b1 : bool then Ok true else
      b2 ← smi_in s (orig_smi_deslt self);
      if b2 : bool then Ok true else
      b3 ← py_in s (can_smi self);
      if b3 : bool then Ok true else crzy_text_match self pats'
  end.

(** Second loop: [self.rdkit_mol.HasSubstructMatch(pattrn)]. *)
Fixpoint crzy_graph_match (self : MyMol) (pats : list string) : result bool :=
  match pats with
  | [] => Ok false
  | s :: pats' =>
      match rdkit_mol self with
      | Mol g =>
          if HasSubstructMatch g s then Ok true else crzy_graph_match self pats'
      | _ => Raise AttributeError
      end
  end.

(** [MyMol.crzy_substruc]. *)
Definition crzy_substruc (self : MyMol) : result (bool * MyMol) :=
  match crzy_substruct self with
  | Some cached => Ok (cached, self)
  | None =>
      t ← crzy_text_match self prohibited_substructures;
      if t : bool then Ok (true, set_crzy_substruct true self) else
      g ← crzy_graph_match self prohibited_substructures;
      Ok (g, set_crzy_substruct g self)
  end.

(** *** fix_common_errors *)

(** [r = rxn.RunReactants([mol]); if len(r) > 0: mol = r[0][0]]. *)
Definition first_product (r : list (list Graph)) (mol : Graph) : result Graph :=
  match r with
  | [] => Ok mol
  | [] :: _ => Raise IndexError
  | (p :: _) :: _ => Ok p
  end.

(** One pass of the loop body on a graph [mol]; the two substructure
    tests read [self.rdkit_mol], the rewrites act on the local [mol]. *)
Definition fix_pass (self : MyMol) (mol : Graph) (orig_can_smi : pyval)
    : result Graph :=
  b ← py_in "[C+]" orig_can_smi;
  mol ← (if b : bool then
           match ReplaceSubstructs mol "[$([C+](=*)(-*)-*)]" "C" with
           | m' :: _ => Ok m'
           | [] => Raise IndexError
           end
         else Ok mol);
  cur ← match rdkit_mol self with Mol g => Ok g | _ => Raise AttributeError end;
  mol ← (if HasSubstructMatch cur "C([O-])O" then
           first_product
             (RunReactants "[CH1:1](-[OH1:2])-[OX1-:3]>>[C:1](=[O:2])[O-:3]" mol) mol
         else Ok mol);
  if HasSubstructMatch cur "[NX3+]" then
    first_product (RunReactants "[NX3+:1]>>[N:1]" mol) mol
  else Ok mol.

(** The [while orig_can_smi != new_can_smi] loop; [fuel] bounds the number
    of passes and [None] means the bound was reached. *)
Fixpoint fix_loop (fuel : nat) (mol : molref) (orig_can_smi new_can_smi : pyval)
    (self : MyMol) : option (result MyMol) :=
  if py_ne orig_can_smi new_can_smi then
    match fuel with
    | 0 => None
    | S fuel =>
        match smiles false self with
        | Raise e => Some (Raise e)
        | Ok (orig_can_smi, self) =>
            match mol with
            | MolNone => Some (Ok self)          (* return None *)
            | MolUnset =>
                Some (b ← py_in "[C+]" orig_can_smi;
                      Raise (if b : bool then ArgumentError else AttributeError))
            | Mol g =>
                match fix_pass self g orig_can_smi with
                | Raise e => Some (Raise e)
                | Ok g' =>
                    let self := set_can_smi (PStr "") (set_rdkit_mol (Mol g') self) in
                    match smiles false self with
                    | Raise e => Some (Raise e)
                    | Ok (new_can_smi, self) =>
                        fix_loop fuel (Mol g') orig_can_smi new_can_smi self
                    end
                end
            end
        end
    end
  else Some (Ok self).

(** [MyMol.fix_common_errors]. *)
Definition fix_common_errors (fuel : nat) (self : MyMol) : option (result MyMol) :=
  let mol := rdkit_mol self in
  match smiles false self with
  | Raise e => Some (Raise e)
  | Ok (_, self) => fix_loop fuel mol (PBool true) (PBool false) self
  end.

(** *** Fragments *)

(** [MyMol.get_frags_of_orig_smi]. *)
Definition get_frags_of_orig_smi (self : MyMol) : result (frags * MyMol) :=
  match frgs self with
  | Some cached => Ok (cached, self)
  | None =>
      has_dot ← smi_in "." (orig_smi self);
      if negb has_dot then Ok (FragsSelf, set_frgs FragsSelf self)
      else
        match rdkit_mol self with
        | Mol g =>
            let fs := FragsMols (GetMolFrags g) in Ok (fs, set_frgs fs self)
        | _ => Raise ArgumentError
        end
  end.

Definition frags_len (f : frags) : nat :=
  match f with FragsSelf => 1 | FragsMols l => length l end.

(** ** MyConformer methods *)

(** [[a.GetIdx() for a in mol.GetAtoms() if a.GetAtomicNum() != 1]]. *)
Definition heavy_atom_ids (g : Graph) : list nat :=
  fst <$> filter (λ ia, GetAtomicNum ia.2 ≠ 1) (imap (λ i a, (i, a)) (GetAtoms g)).

(** The conformers one [EmbedMolecule] call leaves on the molecule. *)
Definition embedded (o : option Geom) : list Geom :=
  match o with Some c => [c] | None => [] end.

(** [MyConformer.__init__(mol, conformer)].  [copy.deepcopy(mol.rdkit_mol)]
    followed by [RemoveAllConformers()] needs an rdkit object;
    [mol.smiles()] may fill the molecule's cache, so the molecule is
    returned too.  The force field reads the molecule's first conformer. *)
Definition MyConformer_init (mol : MyMol) (conformer : option Geom) (sd : Seed)
    : result (MyConformer * MyMol * Seed) :=
  g ← match rdkit_mol mol with Mol g => Ok g | _ => Raise AttributeError end;
  '(smi, mol) ← smiles false mol;
  let '(self_mol, sd) :=
    match conformer with
    | None =>
        let '(o1, sd) := EmbedMolecule_ETKDG g sd in
        let '(confs, sd) :=
          if bool_decide (length (embedded o1) = 0) then
            let '(o2, sd) := EmbedMolecule_default g sd in (embedded o2, sd)
          else (embedded o1, sd) in
        (if bool_decide (length confs = 0) then CMolFalse else CMol g confs, sd)
    | Some c => (CMol g [c], sd)
    end in
  match self_mol with
  | CMolFalse =>
      Ok ({| conf_mol := CMolFalse; conf_smiles := smi; minimized := None;
             energy := None; ids_hvy_atms := None |}, mol, sd)
  | CMol g' [] => Raise EngineError
  | CMol g' (c0 :: _) =>
      Ok ({| conf_mol := self_mol; conf_smiles := smi; minimized := Some false;
             energy := Some (UFFCalcEnergy g' c0);
             ids_hvy_atms := Some (heavy_atom_ids g') |}, mol, sd)
  end.

(** [MyConformer.conformer()], the getter: [self.mol.GetConformers()[0]]. *)
Definition conformer (self : MyConformer) : result Geom :=
  match conf_mol self with
  | CMolFalse => Raise AttributeError
  | CMol _ [] => Raise IndexError
  | CMol _ (c :: _) => Ok c
  end.

(** [MyConformer.conformer(conf)], the setter. *)
Definition set_conformer (conf : Geom) (self : MyConformer) : result MyConformer :=
  match conf_mol self with
  | CMolFalse => Raise AttributeError
  | CMol g _ =>
      Ok {| conf_mol := CMol g [conf]; conf_smiles := conf_smiles self;
            minimized := minimized self; energy := energy self;
            ids_hvy_atms := ids_hvy_atms self |}
  end.

(** [MyConformer.minimize]. *)
Definition minimize (self : MyConformer) : result MyConformer :=
  match minimized self with
  | None => Raise AttributeError
  | Some true => Ok self
  | Some false =>
      match conf_mol self with
      | CMolFalse => Raise ArgumentError
      | CMol g [] => Raise EngineError
      | CMol g (c0 :: rest) =>
          let c0' := UFFMinimize g c0 in
          Ok {| conf_mol := CMol g (c0' :: rest); conf_smiles := conf_smiles self;
                minimized := Some true; energy := Some (UFFCalcEnergy g c0');
                ids_hvy_atms := ids_hvy_atms self |}
      end
  end.

(** [AllChem.AlignMolConformers(mol, atomIds)]: the first conformer is the
    reference and stays; every other one is moved onto it. *)
Definition AlignMolConformers (g : Graph) (ids : list nat) (confs : list Geom)
    : list Geom :=
  match confs with
  | [] => []
  | ref :: rest => ref :: (AlignConformer g ids ref <$> rest)
  end.

(** [MyConformer.align_to_me(other_conf)]: returns [self] (whose molecule
    gained and lost a conformer) and [other_conf] with its new geometry.
    [AddConformer(..., assignId=True)] gives the added conformer a fresh id,
    so [RemoveConformer(last_conf.GetId())] removes the last one. *)
Definition align_to_me (self other_conf : MyConformer)
    : result (MyConformer * MyConformer) :=
  match conf_mol self with
  | CMolFalse => Raise AttributeError
  | CMol g confs =>
      oc ← conformer other_conf;
      let confs := confs ++ [oc] in
      ids ← match ids_hvy_atms self with
            | Some ids => Ok ids | None => Raise AttributeError end;
      let confs := AlignMolConformers g ids confs in
      last_conf ← match last confs with
                  | Some c => Ok c | None => Raise IndexError end;
      other_conf ← set_conformer last_conf other_conf;
      let self :=
        {| conf_mol := CMol g (removelast confs); conf_smiles := conf_smiles self;
           minimized := minimized self; energy := energy self;
           ids_hvy_atms := ids_hvy_atms self |} in
      Ok (self, other_conf)
  end.

(** [MyConformer.rmsd_to_me(other_conf)]: a molecule rebuilt from
    [self.smiles] with hydrogens, given both conformers, stripped of its
    hydrogens, and the RMS of the two conformers taken as they are. *)
Definition rmsd_to_me (self other_conf : MyConformer) : result Float :=
  amol ← match conf_smiles self with
         | PStr s =>
             match MolFromSmiles s with
             | Some g => Ok (AddHs g)
             | None => Raise ArgumentError
             end
         | _ => Raise TypeError
         end;
  first_conf ← conformer self;
  last_conf ← conformer other_conf;
  Ok (GetConformerRMS (RemoveHs amol) first_conf last_conf).

(** ** Conformer management on MyMol *)

(** [self.conformers.sort(key=operator.attrgetter('energy'))]: the keys are
    read first (an unset [energy] raises), then a stable sort compares them
    with [<]. *)
Fixpoint insert_by_key (k : Float) (c : MyConformer)
    (l : list (Float * MyConformer)) : list (Float * MyConformer) :=
  match l with
  | [] => [(k, c)]
  | (k', c') :: l' =>
      if flt k' k then (k', c') :: insert_by_key k c l' else (k, c) :: l
  end.

Definition sort_by_key (l : list (Float * MyConformer)) : list (Float * MyConformer) :=
  foldr (λ kc acc, insert_by_key kc.1 kc.2 acc) [] l.

Fixpoint energy_keys (l : list MyConformer) : result (list (Float * MyConformer)) :=
  match l with
  | [] => Ok []
  | c :: l' =>
      k ← match energy c with Some k => Ok k | None => Raise AttributeError end;
      ks ← energy_keys l';
      Ok ((k, c) :: ks)
  end.

Definition sort_by_energy (l : list MyConformer) : result (list MyConformer) :=
  ks ← energy_keys l;
  Ok (snd <$> sort_by_key ks).

(** The body of the inner loop of
    [eliminate_structurally_similar_conformers] at indices [i1 < i2]. *)
Definition compare_pair (rmsd_cutoff : Float) (i1 : nat)
    (confs : list (option MyConformer)) (i2 : nat)
    : result (list (option MyConformer)) :=
  match confs !! i2 with
  | None => Raise IndexError
  | Some None => Ok confs
  | Some (Some c2) =>
      match confs !! i1 with
      | Some (Some c1) =>
          '(c1, c2) ← align_to_me c1 c2;
          let confs := <[i2 := Some c2]> (<[i1 := Some c1]> confs) in
          rmsd ← rmsd_to_me c1 c2;
          Ok (if fle rmsd rmsd_cutoff then <[i2 := None]> confs else confs)
      | Some None => Raise AttributeError
      | None => Raise IndexError
      end
  end.

(** The body of the outer loop at index [i1]. *)
Definition compare_from (rmsd_cutoff : Float) (confs : list (option MyConformer))
    (i1 : nat) : result (list (option MyConformer)) :=
  match confs !! i1 with
  | None => Raise IndexError
  | Some None => Ok confs
  | Some (Some _) =>
      for_each (compare_pair rmsd_cutoff i1)
               (seq (i1 + 1) (length confs - (i1 + 1))) confs
  end.

(** [while None in l: l.remove(None)]: every None entry goes, the others
    keep their order. *)
Fixpoint remove_None {A} (l : list (option A)) : list A :=
  match l with
  | [] => []
  | None :: l' => remove_None l'
  | Some x :: l' => x :: remove_None l'
  end.

(** [MyMol.eliminate_structurally_similar_conformers(rmsd_cutoff)]. *)
Definition eliminate_structurally_similar_conformers (rmsd_cutoff : Float)
    (self : MyMol) : result MyMol :=
  let confs := Some <$> conformers self in
  confs ← for_each (compare_from rmsd_cutoff) (seq 0 (length confs - 1)) confs;
  Ok (set_conformers (remove_None confs) self).

(** The loop of [add_conformers] that builds [n] new conformers. *)
Fixpoint add_new_confs (n : nat) (self : MyMol) (sd : Seed) : result (MyMol * Seed) :=
  match n with
  | 0 => Ok (self, sd)
  | S n' =>
      '(new_conf, self, sd) ← MyConformer_init self None sd;
      let self :=
        match conf_mol new_conf with
        | CMolFalse => self
        | CMol _ _ => set_conformers (conformers self ++ [new_conf]) self
        end in
      add_new_confs n' self sd
  end.

(** [for conf in self.conformers: conf.minimize()]. *)
Fixpoint minimize_all (l : list MyConformer) : result (list MyConformer) :=
  match l with
  | [] => Ok []
  | c :: l' => c' ← minimize c; l'' ← minimize_all l'; Ok (c' :: l'')
  end.

(** [MyMol.add_conformers(num, rmsd_cutoff, minimize)]. *)
Definition add_conformers (num : Z) (rmsd_cutoff : Float) (do_minimize : bool)
    (self : MyMol) (sd : Seed) : result (MyMol * Seed) :=
  let num_new_confs := Z.to_nat (Z.max 0 (num - Z.of_nat (length (conformers self)))) in
  '(self, sd) ← add_new_confs num_new_confs self sd;
  confs ← (if do_minimize then minimize_all (conformers self)
           else Ok (conformers self));
  confs ← sort_by_energy confs;
  self ← eliminate_structurally_similar_conformers rmsd_cutoff
           (set_conformers confs self);
  Ok (self, sd).

(** ** desalter *)

(** Modelled from the spec: the molecule container [desalter] is given
    ([MolContainer.MolContainer] is not among the sources).  It carries the
    container index, the name and the input notation, and owns the record
    built from that notation; asking it for the fragments asks that record. *)
Record MolContainer : Type := {
  cont_contnr_idx : option Z;
  cont_name : string;
  cont_orig_smi : string;
  mol_orig_frm_inp_smi : MyMol;
}.

Definition cont_get_frags_of_orig_smi (contnr : MolContainer)
    : result (frags * MolContainer) :=
  '(fs, m) ← get_frags_of_orig_smi (mol_orig_frm_inp_smi contnr);
  Ok (fs, {| cont_contnr_idx := cont_contnr_idx contnr;
             cont_name := cont_name contnr;
             cont_orig_smi := cont_orig_smi contnr;
             mol_orig_frm_inp_smi := m |}).

(** [max(l)]. *)
Definition py_max (l : list nat) : result nat :=
  match l with
  | [] => Raise ValueError
  | x :: l' => Ok (foldl Nat.max x l')
  end.

(** "Find the biggest fragment": the list of counts, the dictionary from
    count to fragment (a later fragment overwrites an earlier one of the
    same count), the maximum and the lookup. *)
Definition biggest_frag (frags : list Graph) : result Graph :=
  let '(num_heavy_atoms, num_heavy_atoms_to_frag) :=
    foldl (λ '(nums, d) f,
             let num := GetNumHeavyAtoms f in
             (nums ++ [num], <[num := f]> d))
          ([], (∅ : gmap nat Graph)) frags in
  max_num ← py_max num_heavy_atoms;
  match num_heavy_atoms_to_frag !! max_num with
  | Some f => Ok f
  | None => Raise KeyError
  end.

(** The names an object of class [MyMol] answers to: the methods the class
    defines and the attributes [__init__] assigns. *)
Definition MyMol_attributes : list string :=
  [ "__init__"; "standardize_smiles"; "__hash__"; "__eq__"; "GetNumConformers";
    "makeMolFromSmiles"; "makeMol3D"; "smiles"; "m_num_nonaro_rngs";
    "chiral_cntrs_w_unasignd"; "chiral_cntrs_only_asignd";
    "get_double_bonds_without_stereochemistry"; "crzy_substruc";
    "fix_common_errors"; "get_frags_of_orig_smi"; "inherit_contnr_props";
    "copy"; "GetAtomWithIdx"; "GetBondWithIdx"; "AssignStereochemistry";
    "setRDKitMolProp"; "setAllRDKitMolProps"; "add_conformers";
    "eliminate_structurally_similar_conformers"; "carb_hyd_cnt";
    "load_conformations_into_mol_3d";
    "rdkit_mol"; "can_smi"; "can_smi_noh"; "orig_smi"; "orig_smi_deslt";
    "name"; "conformers"; "nonaro_ring_atom_idx"; "chiral_cntrs_only_assigned";
    "chiral_cntrs_include_unasignd"; "crzy_substruct"; "enrgy";
    "minimized_enrgy"; "contnr_idx"; "frgs"; "stdrd_smiles"; "mol_props";
    "idxs_low_energy_confs_no_opt"; "idxs_of_confs_to_min"; "genealogy" ].

(** [obj.nm] on an object that answers to the names [attrs]. *)
Definition getattr (attrs : list string) (nm : string) : result unit :=
  if bool_decide (nm ∈ attrs) then Ok () else Raise AttributeError.

(** "Return info about that biggest fragment": [MyMol.MyMol(biggest_frag)]
    and the three assignments that follow it. *)
Definition new_mol_of (contnr : MolContainer) (f : Graph) : result MyMol :=
  new_mol ← MyMol_init (inr f) "";
  Ok (set_contnr_props (cont_contnr_idx contnr) (cont_name contnr)
                       (genealogy (mol_orig_frm_inp_smi contnr)) new_mol).

(** [desalter(contnr)], for a class [MyMol] that answers to [attrs].  The
    last statement before [return new_mol] is
    [new_mol.make_mol_frm_smiles_sanitze()]: the record already holds its
    graph, so all that matters of the call is whether the name resolves. *)
Definition desalter_in (attrs : list string) (contnr : MolContainer)
    : result MyMol :=
  '(frags, contnr) ← cont_get_frags_of_orig_smi contnr;
  if bool_decide (frags_len frags = 1) then Ok (mol_orig_frm_inp_smi contnr)
  else
    fs ← match frags with
         | FragsMols l => Ok l
         | FragsSelf => Raise AttributeError
         end;
    f ← biggest_frag fs;
    new_mol ← new_mol_of contnr f;
    _ ← getattr attrs "make_mol_frm_smiles_sanitze";
    Ok new_mol.

(** [desalter(contnr)] with class [MyMol] as the source defines it. *)
Definition desalter (contnr : MolContainer) : result MyMol :=
  desalter_in MyMol_attributes contnr.

(** ** Specification vocabulary *)

(** A conformer as [add_conformers] stores it: its geometry is not the
    failure marker and the three attributes are assigned. *)
Definition stored_ok (c : MyConformer) : Prop :=
  conf_mol c ≠ CMolFalse ∧ is_Some (minimized c) ∧ is_Some (energy c)
  ∧ is_Some (ids_hvy_atms c).

(** The same conformer object, possibly moved: everything but the
    coordinates agrees. *)
Definition same_identity (c c' : MyConformer) : Prop :=
  conf_smiles c' = conf_smiles c ∧ minimized c' = minimized c
  ∧ energy c' = energy c ∧ ids_hvy_atms c' = ids_hvy_atms c
  ∧ match conf_mol c, conf_mol c' with
    | CMol g _, CMol g' _ => g' = g
    | CMolFalse, CMolFalse => True
    | _, _ => False
    end.

(** [survivors l l']: [l'] lists some of the conformers of [l], in the
    order they have in [l]. *)
Inductive survivors : list MyConformer → list MyConformer → Prop :=
| survivors_nil : survivors [] []
| survivors_drop c l l' : survivors l l' → survivors (c :: l) l'
| survivors_keep c c' l l' :
    same_identity c c' → survivors l l' → survivors (c :: l) (c' :: l').

(** Non-decreasing energy: no conformer has an energy below that of a
    conformer before it. *)
Definition sorted_by_energy (l : list MyConformer) : Prop :=
  ∀ i j ci cj ei ej, i < j → l !! i = Some ci → l !! j = Some cj →
    energy ci = Some ei → energy cj = Some ej → flt ej ei = false.

(** [<] on energies is a strict weak order (floats without NaN). *)
Definition flt_strict_weak : Prop :=
  (∀ a b, flt a b = true → flt b a = false)
  ∧ (∀ a b c, flt b a = false → flt c b = false → flt c a = false).

(** A conformer the deduplication pass can work on: one geometry, the
    heavy-atom list, and a canonical form that parses again. *)
Definition usable (c : MyConformer) : Prop :=
  ∃ g geom ids s g', conf_mol c = CMol g [geom] ∧ ids_hvy_atms c = Some ids
    ∧ conf_smiles c = PStr s ∧ MolFromSmiles s = Some g'.

(** The heavy-atom RMSD of two conformers as the pass measures it: the
    second aligned onto the first, then the RMS of the pair. *)
Definition pair_rmsd (c1 c2 : MyConformer) : result Float :=
  '(c1, c2) ← align_to_me c1 c2;
  rmsd_to_me c1 c2.

(** The RMS after alignment does not depend on where the aligned conformer
    was before (alignment is optimal over rigid motions, and an earlier
    alignment is a rigid motion). *)
Definition alignment_invariant : Prop :=
  ∀ amol g ids g0 ids0 (a b c : Geom),
    GetConformerRMS amol a (AlignConformer g ids a (AlignConformer g0 ids0 c b))
    = GetConformerRMS amol a (AlignConformer g ids a b).

(** Two conformers are apart when that distance exceeds the cutoff. *)
Definition far (rmsd_cutoff : Float) (c1 c2 : MyConformer) : Prop :=
  ∃ d, pair_rmsd c1 c2 = Ok d ∧ fle d rmsd_cutoff = false.

Definition all_far (rmsd_cutoff : Float) (l : list MyConformer) : Prop :=
  ∀ i j ci cj, i < j → l !! i = Some ci → l !! j = Some cj →
    far rmsd_cutoff ci cj.

(** An entry of the working list against the entry it started as: marked
    None, or still the same conformer. *)
Definition kept (o o' : option MyConformer) : Prop :=
  match o' with
  | None => True
  | Some c' => ∃ c, o = Some c ∧ same_identity c c'
  end.

(** The state of the pass over the working list: every live entry is
    usable; every live pair whose first index is below [i1] is apart; the
    live entries between [i1] and [k] are apart from entry [i1]. *)
Definition all_usable (confs : list (option MyConformer)) : Prop :=
  ∀ i c, confs !! i = Some (Some c) → usable c.

Definition far_before (rmsd_cutoff : Float) (i1 : nat)
    (confs : list (option MyConformer)) : Prop :=
  ∀ i j ci cj, i < i1 → i < j →
    confs !! i = Some (Some ci) → confs !! j = Some (Some cj) →
    far rmsd_cutoff ci cj.

Definition far_row (rmsd_cutoff : Float) (i1 k : nat)
    (confs : list (option MyConformer)) : Prop :=
  ∀ j c1 cj, i1 < j < k →
    confs !! i1 = Some (Some c1) → confs !! j = Some (Some cj) →
    far rmsd_cutoff c1 cj.

(** A molecule on which new conformers can be built: its graph is valid
    and its canonical form is computable and parses again. *)
Definition mol_ready (m : MyMol) : Prop :=
  ∃ g s g' m1, rdkit_mol m = Mol g ∧ smiles false m = Ok (PStr s, m1)
    ∧ MolFromSmiles s = Some g'.

Definition good (c : MyConformer) : Prop := usable c ∧ stored_ok c.

(** A record whose graph has a canonical form and whose cached form, if
    any, is that one. *)
Definition consistent (m : MyMol) (g : Graph) (s : string) : Prop :=
  rdkit_mol m = Mol g ∧ MolToSmiles g = Some s
  ∧ (can_smi m = PStr "" ∨ can_smi m = PStr s).

(** The rewrites of [fix_common_errors] as RDKit should provide them: a
    pass returns a graph that has a canonical form, and a pass that changes
    the canonical form lowers a measure (each rewrite removes a charge). *)
Definition repairs_well_founded (mu : Graph → nat) : Prop :=
  ∀ m g s, rdkit_mol m = Mol g → MolToSmiles g = Some s →
    ∃ g' s', fix_pass m g (PStr s) = Ok g' ∧ MolToSmiles g' = Some s'
             ∧ (s' ≠ s → mu g' < mu g).

(** The rewrites act on the molecule, not on the way it is stored: graphs
    with the same canonical form are rewritten to graphs with the same
    canonical form. *)
Definition repairs_respect_canonical_form : Prop :=
  ∀ m1 m2 g1 g2 s g1' g2',
    rdkit_mol m1 = Mol g1 → rdkit_mol m2 = Mol g2 →
    MolToSmiles g1 = Some s → MolToSmiles g2 = Some s →
    fix_pass m1 g1 (PStr s) = Ok g1' → fix_pass m2 g2 (PStr s) = Ok g2' →
    MolToSmiles g1' = MolToSmiles g2'.

(** What the loop leaves: a consistent record whose graph came out of a
    pass on a graph with the same canonical form. *)
Definition at_fixed_point (m : MyMol) : Prop :=
  ∃ g s m0 g0, consistent m g s ∧ can_smi m = PStr s
    ∧ rdkit_mol m0 = Mol g0 ∧ MolToSmiles g0 = Some s
    ∧ fix_pass m0 g0 (PStr s) = Ok g.

End Model.

(** ** The rest of class MyMol *)

Section ModelRest.
Context `{R : PyRuntime} `{E : ChemEngine}.

(** [MyMol.GetNumConformers]. *)
Definition GetNumConformers (self : MyMol) : nat := length (conformers self).

(** [MyMol.makeMol3D]: nothing when a conformer is stored, else hydrogens
    are added to the graph ([Chem.AddHs] needs an rdkit object) and
    [add_conformers(1, 1e60, False)] is called; [big] is the float [1e60]. *)
Definition makeMol3D (big : Float) (self : MyMol) (sd : Seed)
    : result (MyMol * Seed) :=
  if bool_decide (0 < GetNumConformers self) then Ok (self, sd)
  else
    g ← match rdkit_mol self with Mol g => Ok g | _ => Raise ArgumentError end;
    add_conformers 1 big false (set_rdkit_mol (Mol (AddHs g)) self) sd.

(** [MyMol.inherit_contnr_props(other)], [other] being a [MyMol]. *)
Definition inherit_contnr_props (self other : MyMol) : MyMol :=
  {| rdkit_mol := rdkit_mol self; can_smi := can_smi self;
     can_smi_noh := can_smi_noh self;
     orig_smi := orig_smi other; orig_smi_deslt := orig_smi_deslt other;
     name := name other; conformers := conformers self;
     nonaro_ring_atom_idx := nonaro_ring_atom_idx self;
     chiral_cntrs_only_assigned := chiral_cntrs_only_assigned self;
     chiral_cntrs_include_unasignd := chiral_cntrs_include_unasignd self;
     crzy_substruct := crzy_substruct self; contnr_idx := contnr_idx other;
     frgs := frgs self; genealogy := genealogy self |}.

(** [MyMol.load_conformations_into_mol_3d]: the conformers the rdkit object
    holds afterwards, one per stored [MyConformer], in their order. *)
Definition load_conformations_into_mol_3d (self : MyMol) : result (list Geom) :=
  match rdkit_mol self with
  | Mol _ =>
      for_each (λ loaded c, x ← conformer c; Ok (loaded ++ [x])) (conformers self) []
  | _ => Raise AttributeError
  end.

(** [MyMol.standardize_smiles].  The attribute [stdrd_smiles] ([""] until
    computed) is passed in, and the value returned is also the value the
    attribute holds afterwards.  [ssmiles] is [molvs.standardize_smiles],
    [None] standing for an exception (it raises on anything but a string);
    the handler builds its log line with [self.smiles(True)], outside any
    try block. *)
Definition standardize_smiles (ssmiles : string → option string)
    (stdrd_smiles : pyval) (self : MyMol) : result (pyval * MyMol) :=
  if py_ne stdrd_smiles (PStr "") then Ok (stdrd_smiles, self)
  else
    '(can, self) ← smiles false self;
    match (match can with PStr s => ssmiles s | _ => None end) with
    | Some std => Ok (PStr std, self)
    | None =>
        '(_, self) ← smiles true self;
        smiles false self
    end.

(** [MyMol.setRDKitMolProp(key, val)].  The properties of the rdkit object
    ([SetProp]) are a store of their own, passed in and returned; [val] is
    the string [str(val)].  The first [SetProp] is outside the try block. *)
Definition setRDKitMolProp (key val : string) (self : MyMol)
    (props : gmap string string) : result (gmap string string) :=
  match rdkit_mol self with
  | Mol _ => Ok (<[key := val]> (<[key := val]> (<[key := val]> props)))
  | _ => Raise AttributeError
  end.

(** ["\n".join(l)]. *)
Fixpoint join_lines (l : list string) : string :=
  match l with
  | [] => ""
  | [x] => x
  | x :: l' => x +:+ String (ascii_of_nat 10) "" +:+ join_lines l'
  end.

(** [str(v)]. *)
Definition py_str (v : pyval) : string :=
  match v with
  | PStr s => s
  | PNone => "None"
  | PBool b => if b then "True" else "False"
  end.

(** [MyMol.setAllRDKitMolProps]; [mol_props] is the dictionary attribute of
    that name, its values as [str] gives them. *)
Definition setAllRDKitMolProps (mol_props : gmap string string) (self : MyMol)
    (props : gmap string string) : result (gmap string string * MyMol) :=
  '(smi, self) ← smiles true self;
  props ← setRDKitMolProp "SMILES" (py_str smi) self props;
  props ← for_each (λ props kv, setRDKitMolProp kv.1 kv.2 self props)
                   (map_to_list mol_props) props;
  props ← setRDKitMolProp "Genealogy" (join_lines (genealogy self)) self props;
  props ← setRDKitMolProp "_Name" (name self) self props;
  Ok (props, self).

(** ** More specification vocabulary *)

(** The test [m_num_nonaro_rngs] makes on a ring whose atoms all exist. *)
Definition nonaromatic_ring (atoms : list Atom) (rng : list nat) : bool :=
  existsb (λ i, match atoms !! i with
                | Some a => negb (GetIsAromatic a)
                | None => false
                end) rng.

(** The RMS after alignment does not depend on where the reference was
    before: moving the reference is a rigid motion as well. *)
Definition alignment_invariant_ref : Prop :=
  ∀ amol g ids g0 ids0 (a b c : Geom),
    GetConformerRMS amol (AlignConformer g0 ids0 c a)
      (AlignConformer g ids (AlignConformer g0 ids0 c a) b)
    = GetConformerRMS amol a (AlignConformer g ids a b).

(** The energy attribute is the force-field energy of the geometry the
    conformer holds. *)
Definition energy_current (c : MyConformer) : Prop :=
  ∃ g c0 rest, conf_mol c = CMol g (c0 :: rest)
    ∧ energy c = Some (UFFCalcEnergy g c0).

(** The first entry of the working list of the deduplication pass is still
    the conformer [c], with its first geometry. *)
Definition head_kept (c : MyConformer) (confs : list (option MyConformer)) : Prop :=
  ∃ c', confs !! 0 = Some (Some c') ∧ same_identity c c'
        ∧ conformer c' = conformer c.

(** Two records that agree on everything but the graph and the cached
    canonical form. *)
Definition same_but_graph (m m' : MyMol) : Prop :=
  set_can_smi (PStr "") (set_rdkit_mol MolUnset m')
  = set_can_smi (PStr "") (set_rdkit_mol MolUnset m).

(** The working list of the deduplication pass with nothing to remove:
    every entry is live and every pair is apart. *)
Definition all_live_far (rmsd_cutoff : Float)
    (confs : list (option MyConformer)) : Prop :=
  Forall (λ o, is_Some o) confs
  ∧ ∀ i j ci cj, i < j →
      confs !! i = Some (Some ci) → confs !! j = Some (Some cj) →
      far rmsd_cutoff ci cj.

End ModelRest.

(** ** A small engine to run the model on

    Graphs are lists of fragment notations; a geometry is a pair (position,
    shape) of integers; alignment moves the probe to the position of the
    reference and the RMS adds the two differences. *)
Module Toy.

Fixpoint balanced (depth : nat) (s : string) : bool :=
  match s with
  | EmptyString => bool_decide (depth = 0)
  | String "("%char s' => balanced (S depth) s'
  | String ")"%char s' =>
      match depth with 0 => false | S d => balanced d s' end
  | String _ s' => balanced depth s'
  end.

Fixpoint split_dots (cur : string) (s : string) : list string :=
  match s with
  | EmptyString => [cur]
  | String "."%char s' => cur :: split_dots "" s'
  | String c s' => split_dots (cur +:+ String c "") s'
  end.

Fixpoint join_dots (l : list string) : string :=
  match l with
  | [] => ""
  | [f] => f
  | f :: l' => f +:+ "." +:+ join_dots l'
  end.

Fixpoint count_upper (s : string) : nat :=
  match s with
  | EmptyString => 0
  | String c s' =>
      (if bool_decide (65 ≤ nat_of_ascii c ≤ 90)%nat then 1 else 0)%nat + count_upper s'
  end.

Definition parse (s : string) : option (list string) :=
  if balanced 0 s then Some (split_dots "" s) else None.

Definition write (g : list string) : option string :=
  if bool_decide (Exists (λ f, str_contains "=C=[N+]" f = true) g) then None
  else Some (join_dots g).

Definition embed_etkdg (g : list string) (sd : nat) : option (Z * Z) * nat :=
  (if bool_decide (sd `mod` 3 = 0) then None
   else Some (Z.of_nat sd, Z.of_nat (sd `mod` 2)), S sd).

Definition embed_default (g : list string) (sd : nat) : option (Z * Z) * nat :=
  (if bool_decide (sd `mod` 2 = 0) then None
   else Some (Z.of_nat sd, Z.of_nat (sd `mod` 5)), S sd).

#[export] Instance engine : ChemEngine := {|
  Graph := list string;
  Geom := Z * Z;
  Float := Z;
  flt := Z.ltb;
  fle := Z.leb;
  SanitizeFlags_values := [0; 1; 2; 4; 8; 16; 32; 64; 128; 256; 512; 268435455]%Z;
  SANITIZE_CLEANUP := 1%Z;
  SANITIZE_ALL := 268435455%Z;
  MolFromSmiles_unsanitized := parse;
  SanitizeMol := λ g _, Some g;
  MolFromSmiles := parse;
  MolToSmiles := write;
  AddHs := id;
  RemoveHs := id;
  GetMolFrags := λ g, (λ f, [f]) <$> g;
  GetNumHeavyAtoms := λ g, foldr (λ f n, count_upper f + n) 0 g;
  GetAtoms := λ _, [];
  GetBonds := λ _, [];
  GetSymmSSSR := λ _, [];
  FindMolChiralCenters := λ _ _, [];
  HasSubstructMatch := λ _ _, false;
  ReplaceSubstructs := λ g _ _, [g];
  RunReactants := λ _ _, [];
  Seed := nat;
  EmbedMolecule_ETKDG := embed_etkdg;
  EmbedMolecule_default := embed_default;
  UFFCalcEnergy := λ _ c, Z.abs c.2;
  UFFMinimize := λ _ c, (c.1, 0%Z);
  AlignConformer := λ _ _ ref probe, (ref.1, probe.2);
  GetConformerRMS := λ _ a b, (Z.abs (a.1 - b.1) + Z.abs (a.2 - b.2))%Z;
|}.

#[export] Instance runtime : PyRuntime := {|
  str_hash := λ s, (Z.of_nat (String.length s) `mod` 1024)%Z;
  none_hash := 474054%Z;
|}.

(** The record the constructor returns for a notation. *)
Definition blank : MyMol :=
  {| rdkit_mol := MolNone; can_smi := PStr ""; can_smi_noh := "";
     orig_smi := SmiStr ""; orig_smi_deslt := SmiStr ""; name := "";
     conformers := []; nonaro_ring_atom_idx := None;
     chiral_cntrs_only_assigned := None;
     chiral_cntrs_include_unasignd := None; crzy_substruct := None;
     contnr_idx := None; frgs := None; genealogy := [] |}.

Definition record (s nm : string) : MyMol :=
  match MyMol_init (inl s) nm with Ok m => m | Raise _ => blank end.

(** The container built for an input notation. *)
Definition container (s nm : string) (idx : Z) : MolContainer :=
  {| cont_contnr_idx := Some idx; cont_name := nm; cont_orig_smi := s;
     mol_orig_frm_inp_smi := record s nm |}.

Definition ethanol : MyMol := record "CCO" "ethanol".
Definition ethylamine : MyMol := record "CCN" "ethylamine".
Definition unparsed : MyMol := record "C(" "broken".
Definition beast : MyMol := record "CC(=O)NC1=CC(=C=[N+]([O-])O)C=C1O" "beast".

(** A stored conformer of ethanol with the given geometry. *)
Definition conf (x : Z * Z) : MyConformer :=
  {| conf_mol := CMol ["CCO"] [x]; conf_smiles := PStr "CCO";
     minimized := Some false; energy := Some (Z.abs x.2);
     ids_hvy_atms := Some [] |}.

Definition ethanol_3d : MyMol :=
  set_conformers [conf (1, 0); conf (2, 0); conf (5, 3)]%Z ethanol.

End Toy.

(** ** A second engine, with atoms, rings, bonds and a rewrite

    Graphs are again lists of fragment notations.  A letter is an atom,
    aromatic when in lower case; a fragment that closes a ring (a digit 1)
    has one ring, made of all its atoms; [=], [#] and [-] are bonds, and a
    double bond has a configuration when the fragment has a [/].  Hydrogens
    are added in front of each fragment as [[H]].  The only rewrite turns a
    fragment [[N+]] into [N]. *)
Module Lab.

Definition is_upper (c : ascii) : bool :=
  bool_decide (65 ≤ nat_of_ascii c ≤ 90)%nat.

Definition is_lower (c : ascii) : bool :=
  bool_decide (97 ≤ nat_of_ascii c ≤ 122)%nat.

Definition atom_of (c : ascii) : Atom :=
  {| GetAtomicNum := if bool_decide (c = "H"%char) then 1 else 6;
     GetIsAromatic := is_lower c;
     GetSymbol := String c "";
     GetNumImplicitHs := 0; GetNumExplicitHs := 0 |}.

Fixpoint atoms_of (s : string) : list Atom :=
  match s with
  | EmptyString => []
  | String c s' =>
      if is_upper c || is_lower c then atom_of c :: atoms_of s' else atoms_of s'
  end.

Fixpoint rings_of (offset : nat) (g : list string) : list (list nat) :=
  match g with
  | [] => []
  | f :: g' =>
      let n := length (atoms_of f) in
      (if str_contains "1" f then [seq offset n] else []) ++ rings_of (offset + n) g'
  end.

Fixpoint bonds_of (stereo : BondStereo) (s : string) : list Bond :=
  match s with
  | EmptyString => []
  | String c s' =>
      if bool_decide (c = "="%char) then
        {| GetBondTypeAsDouble := 2; GetStereo := stereo |} :: bonds_of stereo s'
      else if bool_decide (c = "#"%char) then
        {| GetBondTypeAsDouble := 3; GetStereo := STEREONONE |} :: bonds_of stereo s'
      else if bool_decide (c = "-"%char) then
        {| GetBondTypeAsDouble := 1; GetStereo := STEREONONE |} :: bonds_of stereo s'
      else bonds_of stereo s'
  end.

Definition frag_bonds (f : string) : list Bond :=
  bonds_of (if str_contains "/" f then STEREOE else STEREONONE) f.

Fixpoint strip_H (s : string) : string :=
  match s with
  | String "["%char (String "H"%char (String "]"%char s')) => strip_H s'
  | _ => s
  end.

Definition needle (pattern : string) : string :=
  if String.eqb pattern "[NX3+]" then "[N+]" else pattern.

Definition neutralize (g : list string) : list (list (list string)) :=
  if existsb (String.eqb "[N+]") g then
    [[(λ f, if String.eqb f "[N+]" then "N" else f) <$> g]]
  else [].

#[export] Instance engine : ChemEngine := {|
  Graph := list string;
  Geom := Z * Z;
  Float := Z;
  flt := Z.ltb;
  fle := Z.leb;
  SanitizeFlags_values := [0; 1; 2; 4; 8; 16; 32; 64; 128; 256; 512; 268435455]%Z;
  SANITIZE_CLEANUP := 1%Z;
  SANITIZE_ALL := 268435455%Z;
  MolFromSmiles_unsanitized := Toy.parse;
  SanitizeMol := λ g _, Some g;
  MolFromSmiles := Toy.parse;
  MolToSmiles := Toy.write;
  AddHs := λ g, (λ f, "[H]" +:+ f) <$> g;
  RemoveHs := λ g, strip_H <$> g;
  GetMolFrags := λ g, (λ f, [f]) <$> g;
  GetNumHeavyAtoms :=
    λ g, length (filter (λ a, GetAtomicNum a ≠ 1) (g ≫= atoms_of));
  GetAtoms := λ g, g ≫= atoms_of;
  GetBonds := λ g, g ≫= frag_bonds;
  GetSymmSSSR := rings_of 0;
  FindMolChiralCenters := λ _ _, [];
  HasSubstructMatch := λ g pattern, existsb (str_contains (needle pattern)) g;
  ReplaceSubstructs := λ g _ _, [g];
  RunReactants :=
    λ rxn g, if String.eqb rxn "[NX3+:1]>>[N:1]" then neutralize g else [];
  Seed := nat;
  EmbedMolecule_ETKDG := Toy.embed_etkdg;
  EmbedMolecule_default := Toy.embed_default;
  UFFCalcEnergy := λ _ c, Z.abs c.2;
  UFFMinimize := λ _ c, (c.1, 0%Z);
  AlignConformer := λ _ _ ref probe, (ref.1, probe.2);
  GetConformerRMS := λ _ a b, (Z.abs (a.1 - b.1) + Z.abs (a.2 - b.2))%Z;
|}.

Definition blank : MyMol :=
  {| rdkit_mol := MolNone; can_smi := PStr ""; can_smi_noh := "";
     orig_smi := SmiStr ""; orig_smi_deslt := SmiStr ""; name := "";
     conformers := []; nonaro_ring_atom_idx := None;
     chiral_cntrs_only_assigned := None;
     chiral_cntrs_include_unasignd := None; crzy_substruct := None;
     contnr_idx := None; frgs := None; genealogy := [] |}.

Definition record (s nm : string) : MyMol :=
  match MyMol_init (inl s) nm with Ok m => m | Raise _ => blank end.

Definition benzene : MyMol := Eval vm_compute in record "c1ccccc1" "benzene".
Definition cyclohexene : MyMol := Eval vm_compute in record "C1=CCCCC1" "cyclohexene".
Definition difluoroethene : MyMol :=
  Eval vm_compute in record "F/C=C/F.C=C" "difluoroethene".
Definition ammonium_salt : MyMol := Eval vm_compute in record "CC.[N+]" "salt".
Definition ethanol : MyMol := Eval vm_compute in record "CCO" "ethanol".
Definition imidic_acid : MyMol := Eval vm_compute in record "CC(O)=N" "imidic acid".

(** The salt once [smiles(True)] has been asked for. *)
Definition ammonium_noh : MyMol :=
  Eval vm_compute in
    match smiles true ammonium_salt with Ok (_, m) => m | Raise _ => blank end.

(** And what [fix_common_errors] then makes of it. *)
Definition ammonium_fixed : MyMol :=
  Eval vm_compute in
    match fix_common_errors 2 ammonium_noh with
    | Some (Ok m) => m
    | _ => blank
    end.

End Lab.

(** * Properties *)

Section Facts.
Context `{R : PyRuntime} `{E : ChemEngine}.

(** ** Construction and the graph *)

Lemma makeMolFromSmiles_stored (m : MyMol) :
  rdkit_mol m ≠ MolUnset → makeMolFromSmiles m = Ok (rdkit_mol m, m).
Proof. unfold makeMolFromSmiles. by destruct (rdkit_mol m). Qed.

Lemma MyMol_init_graph_Ok (g : Graph) (nm : string) :
  ∃ m, MyMol_init (inr g) nm = Ok m ∧ rdkit_mol m = Mol g ∧ name m = nm
       ∧ conformers m = [] ∧ frgs m = None ∧ genealogy m = []
       ∧ contnr_idx m = None
       ∧ can_smi m = match MolToSmiles g with
                     | Some s => PStr s | None => PBool false end.
Proof.
  unfold MyMol_init. destruct (MolToSmiles g); simpl; eexists; split; try done.
Qed.

(** C8, as the code has it: constructing a record from a notation string
    ends with a call to [makeMolFromSmiles], so the record leaves the
    constructor with its graph parsed and sanitized (or None when either
    step failed), never with the not-yet-built marker; a later call of
    [makeMolFromSmiles] returns the stored value and changes nothing. *)
Theorem MyMol_init_str_builds_graph (s nm : string) :
  ∃ m, MyMol_init (inl s) nm = Ok m
       ∧ rdkit_mol m =
           match MolFromSmiles_unsanitized s ≫= (λ g, SanitizeMol g sanitize_ops) with
           | Some g => Mol g
           | None => MolNone
           end
       ∧ makeMolFromSmiles m = Ok (rdkit_mol m, m)
       ∧ orig_smi m = SmiStr s ∧ orig_smi_deslt m = SmiStr s
       ∧ can_smi m = PStr "" ∧ frgs m = None ∧ crzy_substruct m = None
       ∧ name m = nm ∧ conformers m = [].
Proof.
  unfold MyMol_init, makeMolFromSmiles; simpl.
  destruct (MolFromSmiles_unsanitized s ≫= _); simpl; eexists; repeat split.
Qed.

(** ** Equality and hashing *)

Lemma MyMol_eq_eval (a b a' b' : MyMol) (va vb : pyval) :
  smiles false a = Ok (va, a') → smiles false b = Ok (vb, b') →
  MyMol_eq a b = Ok (bool_decide (py_hash va = py_hash vb), (a', b')).
Proof. intros Ha Hb. unfold MyMol_eq, MyMol_hash. by rewrite Ha, Hb. Qed.

(** C1, as the code has it: [__eq__] compares the two hash values, so two
    records whose canonical forms are computable compare equal exactly when
    the hashes of the two forms are equal; records with equal canonical
    forms therefore compare equal, records that compare equal have
    identical hash values, and records that compare equal have equal
    canonical forms provided the hash does not collide on the two forms. *)
Theorem MyMol_eq_is_hash_eq (a b a' b' : MyMol) (sa sb : string) :
  smiles false a = Ok (PStr sa, a') →
  smiles false b = Ok (PStr sb, b') →
  ∃ r, MyMol_eq a b = Ok (r, (a', b'))
       ∧ (r = true ↔ str_hash sa = str_hash sb)
       ∧ (sa = sb → r = true)
       ∧ MyMol_hash a = Ok (str_hash sa, a')
       ∧ MyMol_hash b = Ok (str_hash sb, b')
       ∧ (r = true → fst <$> MyMol_hash a = fst <$> MyMol_hash b)
       ∧ ((str_hash sa = str_hash sb → sa = sb) → (r = true ↔ sa = sb)).
Proof.
  intros Ha Hb. rewrite (MyMol_eq_eval a b a' b' _ _ Ha Hb).
  unfold MyMol_hash. rewrite Ha, Hb; simpl.
  eexists; split; [done |].
  rewrite bool_decide_eq_true. repeat split; try done; try congruence; auto.
Qed.

(** ** Fragments and desalting *)

(** C5: for a record whose original notation has no "." (and whose
    fragment cache is unset, or set by an earlier call),
    [get_frags_of_orig_smi] returns the one-element list [[self]], and
    [desalter] returns that very record: nothing of it has changed but the
    fragment cache, and its desalted notation is its original notation, as
    the constructor left them. *)
Theorem desalter_single_fragment (contnr : MolContainer) (s : string) :
  let m := mol_orig_frm_inp_smi contnr in
  frgs m = None ∨ frgs m = Some FragsSelf →
  orig_smi m = SmiStr s →
  orig_smi_deslt m = SmiStr s →
  str_contains "." s = false →
  ∃ m', get_frags_of_orig_smi m = Ok (FragsSelf, m')
        ∧ frags_len FragsSelf = 1
        ∧ desalter contnr = Ok m'
        ∧ frgs m' = Some FragsSelf
        ∧ set_frgs FragsSelf m' = set_frgs FragsSelf m
        ∧ orig_smi m' = SmiStr s
        ∧ orig_smi_deslt m' = orig_smi m'.
Proof.
  intros m Hf Ho Hd Hdot.
  assert (∃ m', get_frags_of_orig_smi m = Ok (FragsSelf, m')
                ∧ frgs m' = Some FragsSelf
                ∧ set_frgs FragsSelf m' = set_frgs FragsSelf m
                ∧ orig_smi m' = SmiStr s ∧ orig_smi_deslt m' = SmiStr s)
    as (m' & Hg & Hf' & Hsame & Ho' & Hd').
  { unfold get_frags_of_orig_smi. destruct Hf as [Hf|Hf]; rewrite Hf.
    - rewrite Ho; simpl. rewrite Hdot; simpl. by eexists.
    - by eexists. }
  exists m'. split; [done |]. split; [done |]. split.
  - unfold desalter, desalter_in, cont_get_frags_of_orig_smi. fold m.
    by rewrite Hg.
  - repeat split; congruence.
Qed.

(** ** Minimization *)

(** C9: [minimize] returns at once on a conformer already minimized,
    leaving it as it is; whenever a call returns, a second call returns the
    same conformer (same energy and geometry); and the call does return on
    every conformer that has a geometry and its flag. *)
Theorem minimize_idempotent (c : MyConformer) :
  (minimized c = Some true → minimize c = Ok c)
  ∧ (∀ c', minimize c = Ok c' →
       minimized c' = Some true ∧ minimize c' = Ok c'
       ∧ (c ← minimize c; c ← minimize c; Ok (energy c, conf_mol c))
         = Ok (energy c', conf_mol c'))
  ∧ (∀ g c0 rest b, conf_mol c = CMol g (c0 :: rest) → minimized c = Some b →
       is_Ok (minimize c) = true).
Proof.
  split; [| split].
  - intros Hm. unfold minimize. by rewrite Hm.
  - intros c' Hc.
    assert (Hmin : minimized c' = Some true).
    { unfold minimize in Hc. destruct (minimized c) as [[|]|] eqn:Hm; simplify_eq; [done |].
      destruct (conf_mol c) as [|g [|c0 rest]]; simplify_eq. done. }
    assert (Hagain : minimize c' = Ok c').
    { unfold minimize. by rewrite Hmin. }
    repeat split; [done | done |].
    rewrite Hc; simpl. by rewrite Hagain.
  - intros g c0 rest b Hmol Hm. unfold minimize. rewrite Hm, Hmol. by destruct b.
Qed.

(** ** Conformers: construction *)

Lemma MyConformer_init_cases (mol mol' : MyMol) (o : option Geom)
    (sd sd' : Seed) (c : MyConformer) :
  MyConformer_init mol o sd = Ok (c, mol', sd') →
  (conf_mol c = CMolFalse ∧ minimized c = None ∧ energy c = None
   ∧ ids_hvy_atms c = None)
  ∨ stored_ok c.
Proof.
  unfold MyConformer_init. intros H.
  destruct (rdkit_mol mol) as [| |g]; simplify_eq/=.
  destruct (smiles false mol) as [[v m1]|]; simplify_eq/=.
  destruct (match o with Some _ => _ | None => _ end) as [[|g' [|c0 rest]] sd1];
    simplify_eq/=.
  - left. done.
  - right. unfold stored_ok; simpl. repeat split; eauto.
Qed.

Lemma MyConformer_init_conformers (mol mol' : MyMol) (o : option Geom)
    (sd sd' : Seed) (c : MyConformer) :
  MyConformer_init mol o sd = Ok (c, mol', sd') →
  conformers mol' = conformers mol ∧ rdkit_mol mol' = rdkit_mol mol.
Proof.
  unfold MyConformer_init. intros H.
  destruct (rdkit_mol mol) as [| |g] eqn:Hg; simplify_eq/=.
  destruct (smiles false mol) as [[v m1]|] eqn:Hs; simplify_eq/=.
  assert (conformers m1 = conformers mol ∧ rdkit_mol m1 = rdkit_mol mol) as Hm.
  { unfold smiles in Hs; simpl in Hs.
    destruct (py_ne _ _); simplify_eq/=; [done |].
    rewrite Hg in Hs. destruct (MolToSmiles g); simplify_eq/=; done. }
  destruct (match o with Some _ => _ | None => _ end) as [[|g' [|c0 rest]] sd1];
    simplify_eq/=; destruct Hm; split; congruence.
Qed.

Lemma add_new_confs_stored (n : nat) (m m' : MyMol) (sd sd' : Seed) :
  add_new_confs n m sd = Ok (m', sd') →
  Forall stored_ok (conformers m) → Forall stored_ok (conformers m').
Proof.
  revert m sd. induction n as [|n IH]; intros m sd H Hall; simplify_eq/=; [done |].
  destruct (MyConformer_init m None sd) as [[[c m1] sd1]|] eqn:Hi; simplify_eq/=.
  destruct (MyConformer_init_conformers _ _ _ _ _ _ Hi) as [Hc _].
  apply IH in H; [done |].
  destruct (MyConformer_init_cases _ _ _ _ _ _ Hi) as [(Hf & _)|Hok].
  - rewrite Hf. by rewrite Hc.
  - destruct (conf_mol c) eqn:Hm; simpl; rewrite Hc; [done |].
    apply Forall_app; split; [done |]. by constructor.
Qed.

(** ** Conformers: identity through the pass *)

Lemma same_identity_refl (c : MyConformer) : same_identity c c.
Proof. unfold same_identity. repeat split. by destruct (conf_mol c). Qed.

Lemma same_identity_trans (c1 c2 c3 : MyConformer) :
  same_identity c1 c2 → same_identity c2 c3 → same_identity c1 c3.
Proof.
  unfold same_identity. intros (?&?&?&?&M1) (?&?&?&?&M2).
  repeat split; try congruence.
  destruct (conf_mol c1), (conf_mol c2), (conf_mol c3); try done. congruence.
Qed.

Lemma same_identity_stored (c c' : MyConformer) :
  same_identity c c' → stored_ok c → stored_ok c'.
Proof.
  unfold same_identity, stored_ok. intros (?&Hm&He&Hi&H) (Hf&?&?&?).
  rewrite Hm, He, Hi. repeat split; try done.
  destruct (conf_mol c), (conf_mol c'); done.
Qed.

Lemma align_to_me_same (c1 c2 c1' c2' : MyConformer) :
  align_to_me c1 c2 = Ok (c1', c2') →
  same_identity c1 c1' ∧ same_identity c2 c2'.
Proof.
  unfold align_to_me, set_conformer, conformer. intros H.
  destruct (conf_mol c1) as [|g1 l1] eqn:H1; simplify_eq/=.
  destruct (conf_mol c2) as [|g2 [|x l2]] eqn:H2; simplify_eq/=.
  destruct (ids_hvy_atms c1) eqn:Hi; simplify_eq/=.
  destruct (last _); simplify_eq/=.
  unfold same_identity; simpl. rewrite H1, H2. done.
Qed.

Lemma kept_refl (o : option MyConformer) : kept o o.
Proof. destruct o; simpl; eauto using same_identity_refl. Qed.

Lemma kept_trans (o1 o2 o3 : option MyConformer) :
  kept o1 o2 → kept o2 o3 → kept o1 o3.
Proof.
  unfold kept. destruct o3 as [c3|]; [| done].
  intros H12 (c2 & -> & H23). destruct H12 as (c1 & -> & H12).
  eauto using same_identity_trans.
Qed.

Lemma Forall2_kept_refl (l : list (option MyConformer)) : Forall2 kept l l.
Proof. induction l; constructor; auto using kept_refl. Qed.

Lemma Forall2_kept_trans (l1 l2 l3 : list (option MyConformer)) :
  Forall2 kept l1 l2 → Forall2 kept l2 l3 → Forall2 kept l1 l3.
Proof.
  intros H. revert l3. induction H; intros l3 H3; inversion H3; subst;
    constructor; eauto using kept_trans.
Qed.

Lemma Forall2_kept_insert (l l' : list (option MyConformer)) (i : nat)
    (c : MyConformer) (o : option MyConformer) :
  Forall2 kept l l' → l !! i = Some (Some c) → kept (Some c) o →
  Forall2 kept l (<[i := o]> l').
Proof.
  intros HF Hl Hk. rewrite <- (list_insert_id l i (Some c)) at 1 by done.
  by apply Forall2_insert.
Qed.

Lemma compare_pair_kept (cutoff : Float) (i1 i2 : nat)
    (confs confs' : list (option MyConformer)) :
  compare_pair cutoff i1 confs i2 = Ok confs' → Forall2 kept confs confs'.
Proof.
  unfold compare_pair. intros H.
  destruct (confs !! i2) as [[c2|]|] eqn:H2; simplify_eq/=;
    [| apply Forall2_kept_refl].
  destruct (confs !! i1) as [[c1|]|] eqn:H1; simplify_eq/=.
  destruct (align_to_me c1 c2) as [[c1' c2']|] eqn:Ha; simplify_eq/=.
  destruct (rmsd_to_me c1' c2') as [d|]; simplify_eq/=.
  apply align_to_me_same in Ha as [Hs1 Hs2].
  assert (Forall2 kept confs (<[i2 := Some c2']> (<[i1 := Some c1']> confs))) as K2.
  { eapply Forall2_kept_insert; [| done | simpl; eauto].
    eapply Forall2_kept_insert; [apply Forall2_kept_refl | done | simpl; eauto]. }
  destruct (fle d cutoff); [| done].
  eapply Forall2_kept_insert; [exact K2 | done | done].
Qed.

Lemma for_each_rel {A B} (Rel : B → B → Prop) (f : B → A → result B)
    (l : list A) (b b' : B) :
  (∀ x, Rel x x) → (∀ x y z, Rel x y → Rel y z → Rel x z) →
  (∀ x a y, f x a = Ok y → Rel x y) →
  for_each f l b = Ok b' → Rel b b'.
Proof.
  intros Hrefl Htrans Hstep. revert b.
  induction l as [|a l IH]; intros b H; simplify_eq/=; [done |].
  destruct (f b a) as [b1|] eqn:Hf; simplify_eq/=. eauto.
Qed.

Lemma compare_from_kept (cutoff : Float) (i1 : nat)
    (confs confs' : list (option MyConformer)) :
  compare_from cutoff confs i1 = Ok confs' → Forall2 kept confs confs'.
Proof.
  unfold compare_from. intros H.
  destruct (confs !! i1) as [[c1|]|]; simplify_eq/=; [| apply Forall2_kept_refl].
  eapply (for_each_rel (Forall2 kept)); [| | | exact H];
    eauto using Forall2_kept_refl, Forall2_kept_trans, compare_pair_kept.
Qed.

Lemma kept_survivors (cs : list MyConformer) (confs : list (option MyConformer)) :
  Forall2 kept (Some <$> cs) confs → survivors cs (remove_None confs).
Proof.
  revert confs. induction cs as [|c cs IH]; intros confs H.
  - inversion H; subst. constructor.
  - inversion H as [|? o ? confs' K HF]; subst; simpl.
    destruct o as [c'|]; simpl in K.
    + destruct K as (c0 & ? & Hs); simplify_eq. apply survivors_keep; auto.
    + apply survivors_drop; auto.
Qed.

(** The pass keeps the order: whenever it returns, what it leaves in the
    list is a selection of the conformers it found, in their order, and
    nothing else of the record changes. *)
Lemma eliminate_survivors (cutoff : Float) (m m' : MyMol) :
  eliminate_structurally_similar_conformers cutoff m = Ok m' →
  survivors (conformers m) (conformers m')
  ∧ m' = set_conformers (conformers m') m.
Proof.
  unfold eliminate_structurally_similar_conformers. intros H.
  destruct (for_each _ _ _) as [confs|] eqn:Hf; simplify_eq/=.
  split; [| done]. apply kept_survivors.
  eapply (for_each_rel (Forall2 kept)); [| | | exact Hf];
    eauto using Forall2_kept_refl, Forall2_kept_trans, compare_from_kept.
Qed.

Lemma survivors_lookup (l l' : list MyConformer) (j : nat) (c' : MyConformer) :
  survivors l l' → l' !! j = Some c' →
  ∃ i c, l !! i = Some c ∧ same_identity c c'.
Proof.
  intros H. revert j. induction H as [|c l l' _ IH|c c1 l l' Hs _ IH]; intros j Hj.
  - done.
  - destruct (IH _ Hj) as (i & c0 & ? & ?). by exists (S i), c0.
  - destruct j as [|j]; simplify_eq/=.
    + by exists 0, c.
    + destruct (IH _ Hj) as (i & c0 & ? & ?). by exists (S i), c0.
Qed.

Lemma survivors_stored (l l' : list MyConformer) :
  survivors l l' → Forall stored_ok l → Forall stored_ok l'.
Proof.
  induction 1; intros HF; inversion HF; subst; auto.
  constructor; eauto using same_identity_stored.
Qed.

(** ** Sorting by energy *)

Lemma sorted_by_energy_cons (c : MyConformer) (l : list MyConformer) :
  sorted_by_energy (c :: l) ↔
  sorted_by_energy l
  ∧ (∀ j cj e ej, l !! j = Some cj → energy c = Some e → energy cj = Some ej →
       flt ej e = false).
Proof.
  unfold sorted_by_energy. split.
  - intros H. split.
    + intros i j ci cj ei ej Hij Hi Hj. apply (H (S i) (S j)); [lia | done | done].
    + intros j cj e ej Hj. apply (H 0 (S j)); [lia | done | done].
  - intros [Hl Hc] i j ci cj ei ej Hij Hi Hj.
    destruct j as [|j]; [lia |]. destruct i as [|i]; simplify_eq/=.
    + eapply Hc; done.
    + eapply (Hl i j); [lia | done | done].
Qed.

Lemma survivors_sorted (l l' : list MyConformer) :
  survivors l l' → sorted_by_energy l → sorted_by_energy l'.
Proof.
  induction 1 as [|c l l' Hs IH|c c' l l' Hc Hs IH]; intros Hsorted.
  - done.
  - apply sorted_by_energy_cons in Hsorted as [? _]. auto.
  - apply sorted_by_energy_cons in Hsorted as [Hl Hhead].
    apply sorted_by_energy_cons. split; [auto |].
    intros j cj e ej Hj He Hej.
    destruct (survivors_lookup _ _ _ _ Hs Hj) as (i & c0 & Hi & Hid).
    destruct Hc as (_ & _ & Hec & _). destruct Hid as (_ & _ & He0 & _).
    eapply Hhead; [exact Hi | congruence | congruence].
Qed.

Lemma insert_by_key_Forall (P : Float * MyConformer → Prop) (k : Float)
    (c : MyConformer) (l : list (Float * MyConformer)) :
  P (k, c) → Forall P l → Forall P (insert_by_key k c l).
Proof.
  intros Hk. induction 1 as [|[k' c'] l Hx Hl IH]; simpl; [by constructor |].
  destruct (flt k' k); constructor; auto.
Qed.

Lemma sort_by_key_Forall (P : Float * MyConformer → Prop)
    (l : list (Float * MyConformer)) :
  Forall P l → Forall P (sort_by_key l).
Proof.
  induction 1 as [|[k c] l Hx Hl IH]; simpl; [constructor |].
  by apply insert_by_key_Forall.
Qed.

Lemma insert_by_key_sorted (k : Float) (c : MyConformer)
    (l : list (Float * MyConformer)) :
  flt_strict_weak →
  StronglySorted (λ a b, flt b.1 a.1 = false) l →
  StronglySorted (λ a b, flt b.1 a.1 = false) (insert_by_key k c l).
Proof.
  intros [Hasym Htrans]. induction 1 as [|[k' c'] l Hl IH Hall]; simpl.
  - repeat constructor.
  - destruct (flt k' k) eqn:Hlt.
    + constructor; [done |].
      apply insert_by_key_Forall; [simpl; auto | done].
    + constructor; [by constructor |].
      constructor; [done |].
      eapply Forall_impl; [exact Hall |]. intros [k2 c2]; simpl. eauto.
Qed.

Lemma sort_by_key_sorted (l : list (Float * MyConformer)) :
  flt_strict_weak →
  StronglySorted (λ a b, flt b.1 a.1 = false) (sort_by_key l).
Proof.
  intros Hw. induction l as [|[k c] l IH]; simpl; [constructor |].
  by apply insert_by_key_sorted.
Qed.

Lemma energy_keys_spec (l : list MyConformer) (ks : list (Float * MyConformer)) :
  energy_keys l = Ok ks →
  snd <$> ks = l ∧ Forall (λ kc, energy kc.2 = Some kc.1) ks.
Proof.
  revert ks. induction l as [|c l IH]; intros ks H; simplify_eq/=; [done |].
  destruct (energy c) as [k|] eqn:He; simplify_eq/=.
  destruct (energy_keys l) as [ks'|]; simplify_eq/=.
  destruct (IH _ eq_refl) as [-> HF]. split; [done |]. by constructor.
Qed.

Lemma keys_sorted_by_energy (ks : list (Float * MyConformer)) :
  StronglySorted (λ a b, flt b.1 a.1 = false) ks →
  Forall (λ kc, energy kc.2 = Some kc.1) ks →
  sorted_by_energy (snd <$> ks).
Proof.
  induction 1 as [|[k c] ks Hs IH Hall]; intros HF.
  - by intros i j ci cj ei ej _ Hi.
  - inversion HF as [|? ? Hk HF']; subst; simpl in *.
    apply sorted_by_energy_cons. split; [auto |].
    intros j cj e ej Hj He Hej.
    rewrite list_lookup_fmap in Hj.
    destruct (ks !! j) as [[k2 c2]|] eqn:Hkj; simplify_eq/=.
    pose proof (proj1 (Forall_lookup _ _) Hall _ _ Hkj) as H1.
    pose proof (proj1 (Forall_lookup _ _) HF' _ _ Hkj) as H2.
    simpl in *. congruence.
Qed.

Lemma sort_by_energy_sorted (l l' : list MyConformer) :
  flt_strict_weak → sort_by_energy l = Ok l' → sorted_by_energy l'.
Proof.
  unfold sort_by_energy. intros Hw H.
  destruct (energy_keys l) as [ks|] eqn:Hk; simplify_eq/=.
  apply energy_keys_spec in Hk as [_ HF].
  apply keys_sorted_by_energy;
    [by apply sort_by_key_sorted | by apply sort_by_key_Forall].
Qed.

Lemma sort_by_energy_Forall (P : MyConformer → Prop) (l l' : list MyConformer) :
  sort_by_energy l = Ok l' → Forall P l → Forall P l'.
Proof.
  unfold sort_by_energy. intros H HP.
  destruct (energy_keys l) as [ks|] eqn:Hk; simplify_eq/=.
  apply energy_keys_spec in Hk as [<- _].
  apply Forall_fmap. apply sort_by_key_Forall. by apply Forall_fmap.
Qed.

Lemma sort_by_energy_defined (l l' : list MyConformer) :
  sort_by_energy l = Ok l' → Forall (λ c, is_Some (energy c)) l'.
Proof.
  unfold sort_by_energy. intros H.
  destruct (energy_keys l) as [ks|] eqn:Hk; simplify_eq/=.
  apply energy_keys_spec in Hk as [_ HF].
  apply Forall_fmap. apply sort_by_key_Forall.
  eapply Forall_impl; [exact HF |]. intros [k c] Hkc; simpl in *. eauto.
Qed.

Lemma survivors_energy_defined (l l' : list MyConformer) :
  survivors l l' → Forall (λ c, is_Some (energy c)) l →
  Forall (λ c, is_Some (energy c)) l'.
Proof.
  induction 1 as [|c l l' Hs IH|c c' l l' Hc Hs IH]; intros HF;
    inversion HF; subst; auto.
  constructor; [| auto]. destruct Hc as (_ & _ & He & _). by rewrite He.
Qed.

Lemma sort_by_energy_Ok (l : list MyConformer) :
  Forall (λ c, is_Some (energy c)) l → is_Ok (sort_by_energy l) = true.
Proof.
  unfold sort_by_energy. intros H.
  assert (∃ ks, energy_keys l = Ok ks) as [ks ->]; [| done].
  induction H as [|c l [k Hk] _ [ks IH]]; simpl; [by eexists |].
  rewrite Hk, IH. simpl. by eexists.
Qed.

(** ** Deduplication on usable conformers *)

Lemma align_to_me_usable (c1 c2 : MyConformer) :
  usable c1 → usable c2 →
  ∃ c2', align_to_me c1 c2 = Ok (c1, c2') ∧ usable c2'
         ∧ rmsd_to_me c1 c2' = pair_rmsd c1 c2
         ∧ is_Ok (pair_rmsd c1 c2) = true.
Proof.
  intros (g1 & x1 & i1 & s1 & a1 & M1 & I1 & S1 & P1)
         (g2 & x2 & i2 & s2 & a2 & M2 & I2 & S2 & P2).
  destruct c1 as [m1 sm1 mi1 e1 id1], c2 as [m2 sm2 mi2 e2 id2]; simplify_eq/=.
  eexists. unfold pair_rmsd, align_to_me, rmsd_to_me; simpl.
  rewrite P1; simpl. split; [done |]. split; [| done].
  by exists g2, (AlignConformer g1 i1 x1 x2), i2, s2, a2.
Qed.

Lemma pair_rmsd_realigned (c c1 c2 c1' c2' : MyConformer) :
  alignment_invariant →
  usable c → usable c1 → usable c2 →
  align_to_me c1 c2 = Ok (c1', c2') →
  pair_rmsd c c2' = pair_rmsd c c2.
Proof.
  intros Hinv (g & x & i & s & a & M & I & S & P)
         (g1 & x1 & i1 & s1 & a1 & M1 & I1 & S1 & P1)
         (g2 & x2 & i2 & s2 & a2 & M2 & I2 & S2 & P2) Ha.
  destruct c as [m sm mi e id], c1 as [m1 sm1 mi1 e1 id1],
           c2 as [m2 sm2 mi2 e2 id2]; simplify_eq/=.
  unfold align_to_me in Ha; simplify_eq/=.
  unfold pair_rmsd, align_to_me, rmsd_to_me; simpl. rewrite P; simpl.
  by rewrite Hinv.
Qed.

Lemma far_realigned (cutoff : Float) (c c1 c2 c1' c2' : MyConformer) :
  alignment_invariant →
  usable c → usable c1 → usable c2 →
  align_to_me c1 c2 = Ok (c1', c2') →
  far cutoff c c2 → far cutoff c c2'.
Proof.
  intros Hinv Hc H1 H2 Ha (d & Hd & Hle). exists d. split; [| done].
  by rewrite (pair_rmsd_realigned c c1 c2 c1' c2').
Qed.

Lemma compare_pair_step (cutoff : Float) (i1 i2 : nat)
    (confs : list (option MyConformer)) (c1 : MyConformer) :
  alignment_invariant →
  i1 < i2 < length confs →
  all_usable confs →
  confs !! i1 = Some (Some c1) →
  far_before cutoff i1 confs →
  far_row cutoff i1 i2 confs →
  ∃ confs', compare_pair cutoff i1 confs i2 = Ok confs'
            ∧ length confs' = length confs
            ∧ all_usable confs'
            ∧ confs' !! i1 = Some (Some c1)
            ∧ far_before cutoff i1 confs'
            ∧ far_row cutoff i1 (S i2) confs'.
Proof.
  intros Hinv [Hlt Hlen] Hus H1 Hbefore Hrow. unfold compare_pair.
  destruct (lookup_lt_is_Some_2 confs i2 Hlen) as [o2 H2]. rewrite H2.
  destruct o2 as [c2|].
  - (* both entries are live *)
    rewrite H1.
    pose proof (Hus _ _ H1) as U1. pose proof (Hus _ _ H2) as U2.
    destruct (align_to_me_usable c1 c2 U1 U2) as (c2' & Ha & U2' & Hr & Hok).
    rewrite Ha; simpl. rewrite Hr.
    destruct (pair_rmsd c1 c2) as [d|] eqn:Hd; [simpl | done].
    rewrite (list_insert_id confs i1 (Some c1)) by done.
    assert (Hother : ∀ o j, j ≠ i2 → <[i2 := o]> confs !! j = confs !! j).
    { intros o j Hj. by apply list_lookup_insert_ne. }
    destruct (fle d cutoff) eqn:Hle.
    + (* too close: entry i2 becomes None *)
      rewrite list_insert_insert_eq.
      assert (Hi2 : <[i2 := None]> confs !! i2 = Some (@None MyConformer))
        by (by apply list_lookup_insert_eq).
      eexists; split; [done |]. rewrite length_insert.
      split; [done |]. split; [| split; [| split]].
      * intros j c Hj. destruct (decide (j = i2)) as [->|Hne]; [congruence |].
        rewrite Hother in Hj by done. eauto.
      * rewrite Hother by lia. done.
      * intros i j ci cj Hi Hij Li Lj.
        destruct (decide (j = i2)) as [->|Hne]; [congruence |].
        rewrite Hother in Li by lia. rewrite Hother in Lj by done. eauto.
      * intros j c cj Hj L1 Lj.
        destruct (decide (j = i2)) as [->|Hne]; [congruence |].
        rewrite Hother in L1 by lia. rewrite Hother in Lj by done.
        eapply Hrow; [| done | done]. lia.
    + (* apart: entry i2 stays, with its new coordinates *)
      assert (Hi2 : <[i2 := Some c2']> confs !! i2 = Some (Some c2'))
        by (by apply list_lookup_insert_eq).
      eexists; split; [done |]. rewrite length_insert.
      split; [done |]. split; [| split; [| split]].
      * intros j c Hj. destruct (decide (j = i2)) as [->|Hne].
        -- rewrite Hi2 in Hj. by simplify_eq.
        -- rewrite Hother in Hj by done. eauto.
      * rewrite Hother by lia. done.
      * intros i j ci cj Hi Hij Li Lj. rewrite Hother in Li by lia.
        destruct (decide (j = i2)) as [->|Hne].
        -- rewrite Hi2 in Lj. simplify_eq.
           eapply (far_realigned cutoff ci c1 c2); [done | by eapply Hus | done..|].
           eapply Hbefore; [exact Hi | | done | done]. lia.
        -- rewrite Hother in Lj by done. eauto.
      * intros j c cj Hj L1 Lj. rewrite Hother in L1 by lia. simplify_eq.
        destruct (decide (j = i2)) as [->|Hne].
        -- rewrite Hi2 in Lj. simplify_eq. exists d. split; [| done].
           rewrite <- Hd. by eapply (pair_rmsd_realigned c1 c1 c2).
        -- rewrite Hother in Lj by done.
           eapply Hrow; [| done | done]. lia.
  - (* entry i2 was marked before *)
    eexists; split; [done |]. repeat split; try done.
    intros j c cj Hj L1 Lj.
    destruct (decide (j = i2)) as [->|Hne]; [congruence |].
    eapply Hrow; [| done | done]. lia.
Qed.

Lemma inner_loop (cutoff : Float) (i1 : nat) (c1 : MyConformer) (n : nat) :
  alignment_invariant →
  ∀ k (confs : list (option MyConformer)),
    k + n = length confs → i1 < k →
    all_usable confs → confs !! i1 = Some (Some c1) →
    far_before cutoff i1 confs → far_row cutoff i1 k confs →
    ∃ confs', for_each (compare_pair cutoff i1) (seq k n) confs = Ok confs'
              ∧ length confs' = length confs
              ∧ all_usable confs'
              ∧ far_before cutoff i1 confs'
              ∧ far_row cutoff i1 (k + n) confs'.
Proof.
  intros Hinv. induction n as [|n IH]; intros k confs Hlen Hk Hus H1 Hb Hr; simpl.
  - eexists; split; [done |]. rewrite Nat.add_0_r. done.
  - destruct (compare_pair_step cutoff i1 k confs c1)
      as (confs1 & -> & Hl1 & Hus1 & H11 & Hb1 & Hr1); try done; [lia |].
    simpl.
    destruct (IH (S k) confs1) as (confs' & -> & Hl' & Hus' & Hb' & Hr');
      try done; [lia | lia |].
    eexists; split; [done |]. rewrite Hl', Hl1.
    replace (k + S n) with (S k + n) by lia. done.
Qed.

Lemma compare_from_step (cutoff : Float) (i1 : nat)
    (confs : list (option MyConformer)) :
  alignment_invariant →
  i1 < length confs →
  all_usable confs → far_before cutoff i1 confs →
  ∃ confs', compare_from cutoff confs i1 = Ok confs'
            ∧ length confs' = length confs
            ∧ all_usable confs'
            ∧ far_before cutoff (S i1) confs'.
Proof.
  intros Hinv Hlen Hus Hb. unfold compare_from.
  destruct (lookup_lt_is_Some_2 confs i1 Hlen) as [o1 H1]. rewrite H1.
  destruct o1 as [c1|].
  - destruct (inner_loop cutoff i1 c1 (length confs - (i1 + 1)) Hinv (i1 + 1) confs)
      as (confs' & -> & Hl' & Hus' & Hb' & Hr'); try done; [lia | lia | |].
    { intros j c cj Hj. lia. }
    eexists; split; [done |]. split; [done |]. split; [done |].
    intros i j ci cj Hi Hij Li Lj.
    destruct (decide (i = i1)) as [->|Hne].
    + eapply Hr'; [| done | done].
      apply lookup_lt_Some in Lj. lia.
    + eapply Hb'; [| exact Hij | done | done]. lia.
  - eexists; split; [done |]. split; [done |]. split; [done |].
    intros i j ci cj Hi Hij Li Lj.
    destruct (decide (i = i1)) as [->|Hne]; [congruence |].
    eapply Hb; [| exact Hij | done | done]. lia.
Qed.

Lemma outer_loop (cutoff : Float) (n : nat) :
  alignment_invariant →
  ∀ k (confs : list (option MyConformer)),
    (k + n ≤ length confs)%nat →
    all_usable confs → far_before cutoff k confs →
    ∃ confs', for_each (compare_from cutoff) (seq k n) confs = Ok confs'
              ∧ length confs' = length confs
              ∧ all_usable confs'
              ∧ far_before cutoff (k + n) confs'.
Proof.
  intros Hinv. induction n as [|n IH]; intros k confs Hlen Hus Hb; simpl.
  - eexists; split; [done |]. rewrite Nat.add_0_r. done.
  - destruct (compare_from_step cutoff k confs)
      as (confs1 & -> & Hl1 & Hus1 & Hb1); try done; [lia |].
    simpl.
    destruct (IH (S k) confs1) as (confs' & -> & Hl' & Hus' & Hb');
      try done; [lia |].
    eexists; split; [done |]. rewrite Hl', Hl1.
    replace (k + S n) with (S k + n) by lia. done.
Qed.

Lemma remove_None_lookup {A} (l : list (option A)) (p : nat) (x : A) :
  remove_None l !! p = Some x → ∃ i, l !! i = Some (Some x).
Proof.
  revert p. induction l as [|[y|] l IH]; intros p Hp; simpl in *.
  - done.
  - destruct p as [|p]; simplify_eq/=; [by exists 0 |].
    destruct (IH _ Hp) as [i Hi]. by exists (S i).
  - destruct (IH _ Hp) as [i Hi]. by exists (S i).
Qed.

Lemma remove_None_far (cutoff : Float) (confs : list (option MyConformer)) :
  (∀ i j ci cj, i < j → confs !! i = Some (Some ci) →
     confs !! j = Some (Some cj) → far cutoff ci cj) →
  all_far cutoff (remove_None confs).
Proof.
  induction confs as [|[c|] confs IH]; intros H; simpl.
  - by intros i j ci cj _ Hi.
  - intros p q cp cq Hpq Lp Lq.
    destruct q as [|q]; [lia |]. simpl in Lq.
    destruct p as [|p]; simplify_eq/=.
    + destruct (remove_None_lookup _ _ _ Lq) as [j Hj].
      apply (H 0 (S j)); [lia | done | done].
    + assert (Htail : ∀ i j ci cj, i < j → confs !! i = Some (Some ci) →
                confs !! j = Some (Some cj) → far cutoff ci cj).
      { intros i j ci cj Hij. apply (H (S i) (S j)). lia. }
      eapply (IH Htail p q); [lia | done | done].
  - apply IH. intros i j ci cj Hij. apply (H (S i) (S j)). lia.
Qed.

Lemma eliminate_far (cutoff : Float) (m : MyMol) :
  alignment_invariant →
  Forall usable (conformers m) →
  ∃ m', eliminate_structurally_similar_conformers cutoff m = Ok m'
        ∧ all_far cutoff (conformers m')
        ∧ survivors (conformers m) (conformers m')
        ∧ Forall usable (conformers m').
Proof.
  intros Hinv Hus.
  assert (Hall : all_usable (Some <$> conformers m)).
  { intros i c Hi. rewrite list_lookup_fmap in Hi.
    destruct (conformers m !! i) as [c0|] eqn:Hc; simplify_eq/=.
    by eapply (proj1 (Forall_lookup _ _) Hus). }
  destruct (outer_loop cutoff (length (Some <$> conformers m) - 1) Hinv 0
              (Some <$> conformers m))
    as (confs & Hfor & Hlen & Hus' & Hfar); [lia | done | |].
  { intros i j ci cj Hi. lia. }
  assert (Hel : eliminate_structurally_similar_conformers cutoff m
                = Ok (set_conformers (remove_None confs) m)).
  { unfold eliminate_structurally_similar_conformers. by rewrite Hfor. }
  eexists; split; [exact Hel |]. simpl. split; [| split].
  - apply remove_None_far. intros i j ci cj Hij Li Lj.
    eapply Hfar; [| exact Hij | done | done].
    apply lookup_lt_Some in Lj. simpl. lia.
  - by destruct (eliminate_survivors _ _ _ Hel).
  - apply Forall_lookup. intros p c Hp.
    destruct (remove_None_lookup _ _ _ Hp) as [i Hi]. eauto.
Qed.

(** The pass returns on usable conformers, whatever the alignment does. *)
Lemma compare_pair_usable (cutoff : Float) (i1 i2 : nat)
    (confs : list (option MyConformer)) (c1 : MyConformer) :
  i1 < i2 < length confs →
  all_usable confs → confs !! i1 = Some (Some c1) →
  ∃ confs', compare_pair cutoff i1 confs i2 = Ok confs'
            ∧ length confs' = length confs
            ∧ all_usable confs'
            ∧ confs' !! i1 = Some (Some c1).
Proof.
  intros [Hlt Hlen] Hus H1. unfold compare_pair.
  destruct (lookup_lt_is_Some_2 confs i2 Hlen) as [[c2|] H2]; rewrite H2;
    [| by eexists].
  rewrite H1.
  destruct (align_to_me_usable c1 c2) as (c2' & Ha & U2' & Hr & Hok); eauto.
  rewrite Ha; simpl. rewrite Hr.
  destruct (pair_rmsd c1 c2) as [d|]; [simpl | done].
  rewrite (list_insert_id confs i1 (Some c1)) by done.
  assert (Hcases : ∀ o, (∀ c, o = Some c → usable c) →
            length (<[i2 := o]> confs) = length confs
            ∧ all_usable (<[i2 := o]> confs)
            ∧ <[i2 := o]> confs !! i1 = Some (Some c1)).
  { intros o Ho. rewrite length_insert. split; [done |]. split.
    - intros j c Hj. destruct (decide (j = i2)) as [->|Hne].
      + rewrite list_lookup_insert_eq in Hj by done. simplify_eq. eauto.
      + rewrite list_lookup_insert_ne in Hj by done. eauto.
    - rewrite list_lookup_insert_ne by lia. done. }
  destruct (fle d cutoff).
  - rewrite list_insert_insert_eq. eexists; split; [done |].
    apply Hcases. by intros c.
  - eexists; split; [done |]. apply Hcases. intros c ?; by simplify_eq.
Qed.

Lemma inner_loop_usable (cutoff : Float) (i1 : nat) (c1 : MyConformer) (n : nat) :
  ∀ k (confs : list (option MyConformer)),
    k + n = length confs → i1 < k →
    all_usable confs → confs !! i1 = Some (Some c1) →
    ∃ confs', for_each (compare_pair cutoff i1) (seq k n) confs = Ok confs'
              ∧ length confs' = length confs ∧ all_usable confs'.
Proof.
  induction n as [|n IH]; intros k confs Hlen Hk Hus H1; simpl; [by eexists |].
  destruct (compare_pair_usable cutoff i1 k confs c1)
    as (confs1 & -> & Hl1 & Hus1 & H11); try done; [lia |].
  simpl.
  destruct (IH (S k) confs1) as (confs' & -> & Hl' & Hus'); try done; [lia | lia |].
  eexists; split; [done |]. split; [congruence | done].
Qed.

Lemma outer_loop_usable (cutoff : Float) (n : nat) :
  ∀ k (confs : list (option MyConformer)),
    (k + n ≤ length confs)%nat → all_usable confs →
    ∃ confs', for_each (compare_from cutoff) (seq k n) confs = Ok confs'
              ∧ length confs' = length confs ∧ all_usable confs'.
Proof.
  induction n as [|n IH]; intros k confs Hlen Hus; simpl; [by eexists |].
  assert (∃ confs1, compare_from cutoff confs k = Ok confs1
                    ∧ length confs1 = length confs ∧ all_usable confs1)
    as (confs1 & -> & Hl1 & Hus1).
  { unfold compare_from.
    destruct (lookup_lt_is_Some_2 confs k) as [[c1|] H1]; [lia | |];
      rewrite H1; [| by eexists].
    apply (inner_loop_usable cutoff k c1); [lia | lia | done | done]. }
  simpl. destruct (IH (S k) confs1) as (confs' & -> & Hl' & Hus'); try done; [lia |].
  eexists; split; [done |]. split; [congruence | done].
Qed.

Lemma eliminate_usable_Ok (cutoff : Float) (m : MyMol) :
  Forall usable (conformers m) →
  is_Ok (eliminate_structurally_similar_conformers cutoff m) = true.
Proof.
  intros Hus. unfold eliminate_structurally_similar_conformers.
  destruct (outer_loop_usable cutoff (length (Some <$> conformers m) - 1) 0
              (Some <$> conformers m)) as (confs & -> & _); [lia | | done].
  intros i c Hi. rewrite list_lookup_fmap in Hi.
  destruct (conformers m !! i) as [c0|] eqn:Hc; simplify_eq/=.
  by eapply (proj1 (Forall_lookup _ _) Hus).
Qed.

(** ** add_conformers *)

Lemma smiles_false_again (m m1 : MyMol) (g : Graph) (s : string) :
  rdkit_mol m = Mol g → smiles false m = Ok (PStr s, m1) →
  rdkit_mol m1 = Mol g ∧ conformers m1 = conformers m
  ∧ ∃ m2, smiles false m1 = Ok (PStr s, m2).
Proof.
  unfold smiles; simpl. intros Hg H.
  destruct (py_ne (can_smi m) (PStr "")) eqn:Hne.
  - injection H as Hc <-. rewrite Hne, Hc. eauto.
  - rewrite Hg in H. destruct (MolToSmiles g) as [s'|] eqn:Hs; [| done].
    injection H as <- <-. simpl. rewrite Hg, Hs.
    split; [done |]. split; [done |].
    destruct (py_ne (PStr s') (PStr "")); eauto.
Qed.

Lemma smiles_set_conformers (m m1 : MyMol) (v : pyval) (l : list MyConformer) :
  smiles false m = Ok (v, m1) →
  smiles false (set_conformers l m) = Ok (v, set_conformers l m1).
Proof.
  unfold smiles; simpl. intros H.
  destruct (py_ne (can_smi m) (PStr "")); simplify_eq/=; [done |].
  destruct (match rdkit_mol m with Mol g => MolToSmiles g | _ => None end);
    by simplify_eq/=.
Qed.

Lemma mol_ready_set_conformers (m : MyMol) (l : list MyConformer) :
  mol_ready m → mol_ready (set_conformers l m).
Proof.
  intros (g & s & g' & m1 & Hg & Hs & Hp).
  exists g, s, g', (set_conformers l m1). split; [done |]. split; [| done].
  by apply smiles_set_conformers.
Qed.

Lemma MyConformer_init_ready (m : MyMol) (sd : Seed) :
  mol_ready m →
  ∃ c m' sd', MyConformer_init m None sd = Ok (c, m', sd')
    ∧ mol_ready m' ∧ conformers m' = conformers m
    ∧ (conf_mol c = CMolFalse ∨ good c).
Proof.
  intros (g & s & g' & m1 & Hg & Hs & Hp). unfold MyConformer_init.
  rewrite Hg, Hs; simpl.
  destruct (smiles_false_again _ _ _ _ Hg Hs) as (Hg1 & Hc1 & m2 & Hs1).
  assert (Hready : mol_ready m1) by (by exists g, s, g', m2).
  destruct (EmbedMolecule_ETKDG g sd) as [[x|] sd1]; simpl.
  - do 3 eexists; split; [done |]. split; [done |]. split; [done |]. right.
    split; [by exists g, x, (heavy_atom_ids g), s, g' |].
    unfold stored_ok; simpl. eauto.
  - destruct (EmbedMolecule_default g sd1) as [[x|] sd2]; simpl.
    + do 3 eexists; split; [done |]. split; [done |]. split; [done |]. right.
      split; [by exists g, x, (heavy_atom_ids g), s, g' |].
      unfold stored_ok; simpl. eauto.
    + do 3 eexists; split; [done |]. split; [done |]. split; [done |]. by left.
Qed.

Lemma add_new_confs_good (n : nat) (m : MyMol) (sd : Seed) :
  mol_ready m → Forall good (conformers m) →
  ∃ m' sd', add_new_confs n m sd = Ok (m', sd')
    ∧ mol_ready m' ∧ Forall good (conformers m').
Proof.
  revert m sd. induction n as [|n IH]; intros m sd Hr Hg; simpl; [by eauto |].
  destruct (MyConformer_init_ready m sd Hr) as (c & m1 & sd1 & -> & Hr1 & Hc1 & Hc).
  simpl. destruct Hc as [Hf|Hgood].
  - rewrite Hf. apply IH; [done | by rewrite Hc1].
  - destruct (conf_mol c) eqn:Hm.
    + apply IH; [done | by rewrite Hc1].
    + apply IH; [by apply mol_ready_set_conformers |]. simpl. rewrite Hc1.
      apply Forall_app. split; [done | by constructor].
Qed.

Lemma minimize_good (c : MyConformer) :
  good c → ∃ c', minimize c = Ok c' ∧ good c'.
Proof.
  intros [(g & x & i & s & a & M & I & S & P) (Hf & [b Hb] & He & Hi)].
  unfold minimize. rewrite Hb, M. destruct b.
  - eexists; split; [done |]. split; [by exists g, x, i, s, a |].
    unfold stored_ok. rewrite Hb, M. eauto.
  - eexists; split; [done |].
    split; [by exists g, (UFFMinimize g x), i, s, a |].
    unfold stored_ok; simpl. eauto.
Qed.

Lemma minimize_all_good (l : list MyConformer) :
  Forall good l → ∃ l', minimize_all l = Ok l' ∧ Forall good l'.
Proof.
  induction 1 as [|c l Hc _ (l' & IH & Hl')]; simpl; [by eauto |].
  destruct (minimize_good c Hc) as (c' & -> & Hc'). simpl. rewrite IH. simpl.
  eexists; split; [done |]. by constructor.
Qed.

(** What [add_conformers] hands to the deduplication pass. *)
Lemma add_conformers_before_pass (num : Z) (cutoff : Float) (do_minimize : bool)
    (m : MyMol) (sd : Seed) :
  mol_ready m → Forall good (conformers m) →
  ∃ m1 sd1 confs,
    Forall good confs
    ∧ add_conformers num cutoff do_minimize m sd
      = (m' ← eliminate_structurally_similar_conformers cutoff
                (set_conformers confs m1); Ok (m', sd1)).
Proof.
  intros Hr Hg. unfold add_conformers.
  destruct (add_new_confs_good
              (Z.to_nat (Z.max 0 (num - Z.of_nat (length (conformers m))))) m sd Hr Hg)
    as (m1 & sd1 & -> & Hr1 & Hg1). simpl.
  assert (∃ confs, (if do_minimize then minimize_all (conformers m1)
                    else Ok (conformers m1)) = Ok confs ∧ Forall good confs)
    as (confs & -> & Hgc).
  { destruct do_minimize; [by apply minimize_all_good | by eauto]. }
  simpl.
  pose proof (sort_by_energy_Ok confs) as Hok.
  destruct (sort_by_energy confs) as [sorted|] eqn:Hs.
  - simpl. exists m1, sd1, sorted. split; [| done].
    by eapply sort_by_energy_Forall.
  - discriminate Hok. eapply Forall_impl; [exact Hgc |].
    by intros c (_ & _ & _ & He & _).
Qed.

(** C2: on conformers the pass can work on, and with an alignment whose
    RMS does not depend on the earlier pose of the aligned conformer,
    [eliminate_structurally_similar_conformers] returns; no two conformers
    it leaves are within the cutoff of each other (measured as the pass
    measures: the later one aligned onto the earlier one); and what it
    leaves is a selection of the conformers it found, in their order.  The
    same holds of the list [add_conformers] leaves, which ends with the
    pass. *)
Theorem eliminate_no_close_pair (cutoff : Float) (m : MyMol) :
  alignment_invariant →
  (Forall usable (conformers m) →
   ∃ m', eliminate_structurally_similar_conformers cutoff m = Ok m'
         ∧ all_far cutoff (conformers m')
         ∧ survivors (conformers m) (conformers m'))
  ∧ (∀ num do_minimize sd,
       mol_ready m → Forall good (conformers m) →
       ∃ m' sd', add_conformers num cutoff do_minimize m sd = Ok (m', sd')
                 ∧ all_far cutoff (conformers m')).
Proof.
  intros Hinv. split.
  - intros Hus.
    destruct (eliminate_far cutoff m Hinv Hus) as (m' & He & Hf & Hs & _). eauto.
  - intros num do_minimize sd Hr Hg.
    destruct (add_conformers_before_pass num cutoff do_minimize m sd Hr Hg)
      as (m1 & sd1 & confs & Hgc & ->).
    destruct (eliminate_far cutoff (set_conformers confs m1) Hinv)
      as (m' & -> & Hf & _).
    { simpl. eapply Forall_impl; [exact Hgc |]. by intros c [? _]. }
    simpl. eauto.
Qed.

(** C3: whenever [add_conformers] returns, whatever the count, the cutoff
    and the minimize flag, every conformer it leaves has an energy and the
    conformers are in order of non-decreasing energy ([<] on energies being
    a strict weak order); and it does return on a molecule that is ready
    for embedding and whose stored conformers are well formed. *)
Theorem add_conformers_sorted (num : Z) (cutoff : Float) (do_minimize : bool)
    (m : MyMol) (sd : Seed) :
  flt_strict_weak →
  (∀ m' sd', add_conformers num cutoff do_minimize m sd = Ok (m', sd') →
     sorted_by_energy (conformers m')
     ∧ Forall (λ c, is_Some (energy c)) (conformers m'))
  ∧ (mol_ready m → Forall good (conformers m) →
     is_Ok (add_conformers num cutoff do_minimize m sd) = true).
Proof.
  intros Hw. split.
  - intros m' sd' H. unfold add_conformers in H.
    destruct (add_new_confs _ m sd) as [[m1 sd1]|]; simplify_eq/=.
    destruct (if do_minimize then _ else _) as [confs|]; simplify_eq/=.
    destruct (sort_by_energy confs) as [sorted|] eqn:Hs; simplify_eq/=.
    destruct (eliminate_structurally_similar_conformers _ _) as [m2|] eqn:He;
      simplify_eq/=.
    apply eliminate_survivors in He as [Hsv _]. simpl in Hsv. split.
    + eapply survivors_sorted; [exact Hsv |]. by eapply sort_by_energy_sorted.
    + eapply survivors_energy_defined; [exact Hsv |].
      by eapply sort_by_energy_defined.
  - intros Hr Hg.
    destruct (add_conformers_before_pass num cutoff do_minimize m sd Hr Hg)
      as (m1 & sd1 & confs & Hgc & ->).
    pose proof (eliminate_usable_Ok cutoff (set_conformers confs m1)) as Hok.
    destruct (eliminate_structurally_similar_conformers _ _); [done |].
    discriminate Hok. simpl. eapply Forall_impl; [exact Hgc |]. by intros c [? _].
Qed.

Lemma minimize_stored (c c' : MyConformer) :
  minimize c = Ok c' → stored_ok c → stored_ok c'.
Proof.
  unfold minimize. intros H Hs.
  destruct (minimized c) as [[|]|] eqn:Hm; [by simplify_eq | | done].
  destruct Hs as (Hf & _ & He & Hi).
  destruct (conf_mol c) as [|g [|x rest]] eqn:Hc; simplify_eq/=.
  unfold stored_ok; simpl. eauto.
Qed.

Lemma minimize_all_stored (l l' : list MyConformer) :
  minimize_all l = Ok l' → Forall stored_ok l → Forall stored_ok l'.
Proof.
  revert l'. induction l as [|c l IH]; intros l' H HF; simplify_eq/=; [done |].
  destruct (minimize c) as [c'|] eqn:Hc; simplify_eq/=.
  destruct (minimize_all l) as [l1|]; simplify_eq/=.
  inversion HF; subst. constructor; eauto using minimize_stored.
Qed.

(** C10: when both embedding attempts leave no conformer, the constructor
    returns a conformer whose [mol] is False and whose [minimized],
    [energy] and [ids_hvy_atms] are unset; the loop of [add_conformers]
    appends a new conformer only when its [mol] is not False, so that loop,
    and [add_conformers] as a whole, leave only conformers with the three
    attributes assigned when they started with such. *)
Theorem failed_conformer_never_stored (m : MyMol) (sd : Seed) :
  (∀ g, rdkit_mol m = Mol g →
     (EmbedMolecule_ETKDG g sd).1 = None →
     (EmbedMolecule_default g (EmbedMolecule_ETKDG g sd).2).1 = None →
     ∃ c m' sd', MyConformer_init m None sd = Ok (c, m', sd')
       ∧ conf_mol c = CMolFalse ∧ minimized c = None ∧ energy c = None
       ∧ ids_hvy_atms c = None
       ∧ add_new_confs 1 m sd = Ok (m', sd')
       ∧ conformers m' = conformers m)
  ∧ (∀ n m' sd', add_new_confs n m sd = Ok (m', sd') →
       Forall stored_ok (conformers m) → Forall stored_ok (conformers m'))
  ∧ (∀ num cutoff do_minimize m' sd',
       add_conformers num cutoff do_minimize m sd = Ok (m', sd') →
       Forall stored_ok (conformers m) → Forall stored_ok (conformers m')).
Proof.
  split; [| split].
  - intros g Hg H1 H2.
    assert (∃ v m1, smiles false m = Ok (v, m1) ∧ conformers m1 = conformers m)
      as (v & m1 & Hs & Hc).
    { unfold smiles; simpl. destruct (py_ne _ _); [by eauto |].
      destruct (match rdkit_mol m with Mol _ => _ | _ => None end); by eauto. }
    assert (Hi : MyConformer_init m None sd
                 = Ok ({| conf_mol := CMolFalse; conf_smiles := v;
                          minimized := None; energy := None;
                          ids_hvy_atms := None |}, m1,
                       (EmbedMolecule_default g (EmbedMolecule_ETKDG g sd).2).2)).
    { unfold MyConformer_init. rewrite Hg, Hs; simpl.
      destruct (EmbedMolecule_ETKDG g sd) as [o1 sd1]; simpl in *; subst o1; simpl.
      destruct (EmbedMolecule_default g sd1) as [o2 sd2]; simpl in *; subst o2.
      done. }
    do 3 eexists. split; [exact Hi |]. simpl. repeat split; try done.
    by rewrite Hi.
  - intros n m' sd'. apply add_new_confs_stored.
  - intros num cutoff do_minimize m' sd' H HF. unfold add_conformers in H.
    destruct (add_new_confs _ m sd) as [[m1 sd1]|] eqn:Hn; simplify_eq/=.
    apply add_new_confs_stored in Hn; [| done].
    destruct (if do_minimize then _ else _) as [confs|] eqn:Hmin; simplify_eq/=.
    assert (Forall stored_ok confs) as Hconfs.
    { destruct do_minimize; simplify_eq; eauto using minimize_all_stored. }
    destruct (sort_by_energy confs) as [sorted|] eqn:Hs; simplify_eq/=.
    destruct (eliminate_structurally_similar_conformers _ _) as [m2|] eqn:He;
      simplify_eq/=.
    apply eliminate_survivors in He as [Hsv _]. simpl in Hsv.
    eapply survivors_stored; [exact Hsv |]. by eapply sort_by_energy_Forall.
Qed.

(** ** Queries on a record without a graph *)

Lemma smiles_false_Ok (m : MyMol) :
  ∃ v m1, smiles false m = Ok (v, m1) ∧ rdkit_mol m1 = rdkit_mol m.
Proof.
  unfold smiles; simpl. destruct (py_ne _ _); [by eauto |].
  destruct (match rdkit_mol m with Mol _ => _ | _ => None end); by eauto.
Qed.

(** The four queries that test [self.rdkit_mol is None] return (the cache,
    or the empty list) on a record whose graph is None. *)
Lemma invalid_graph_queries (m : MyMol) :
  rdkit_mol m = MolNone →
  m_num_nonaro_rngs m = Ok (default [] (nonaro_ring_atom_idx m), m)
  ∧ chiral_cntrs_w_unasignd m = Ok (default [] (chiral_cntrs_include_unasignd m), m)
  ∧ chiral_cntrs_only_asignd m = Ok (default [] (chiral_cntrs_only_assigned m), m)
  ∧ get_double_bonds_without_stereochemistry m = Ok [].
Proof.
  intros Hg.
  unfold m_num_nonaro_rngs, chiral_cntrs_w_unasignd, chiral_cntrs_only_asignd,
    get_double_bonds_without_stereochemistry.
  rewrite Hg.
  destruct (nonaro_ring_atom_idx m), (chiral_cntrs_include_unasignd m),
    (chiral_cntrs_only_assigned m); done.
Qed.

(** [crzy_substruc] has no such test: when the textual tests find nothing
    it goes on to [self.rdkit_mol.HasSubstructMatch] and raises. *)
Lemma crzy_substruc_invalid_graph (m : MyMol) :
  rdkit_mol m = MolNone → crzy_substruct m = None →
  crzy_text_match m prohibited_substructures = Ok false →
  crzy_substruc m = Raise AttributeError.
Proof.
  intros Hg Hc Ht. unfold crzy_substruc. rewrite Hc, Ht; simpl. by rewrite Hg.
Qed.

(** ** fix_common_errors *)

(** On a record whose graph is None the first pass returns at once. *)
Lemma fix_common_errors_invalid_graph (fuel : nat) (m : MyMol) :
  rdkit_mol m = MolNone →
  ∃ m', fix_common_errors (S fuel) m = Some (Ok m') ∧ rdkit_mol m' = MolNone.
Proof.
  intros Hg. unfold fix_common_errors. rewrite Hg.
  destruct (smiles_false_Ok m) as (v & m1 & -> & H1).
  destruct (smiles_false_Ok m1) as (v2 & m2 & H2 & H3).
  simpl. rewrite H2. exists m2. split; [done | congruence].
Qed.

(** On a record with a graph whose canonical form cannot be computed,
    [orig_can_smi] is None and ["[C+]" in orig_can_smi] raises. *)
Lemma fix_common_errors_uncanonical (fuel : nat) (m : MyMol) (g : Graph) :
  rdkit_mol m = Mol g → MolToSmiles g = None →
  can_smi m = PStr "" ∨ can_smi m = PNone ∨ can_smi m = PBool false →
  fix_common_errors (S fuel) m = Some (Raise TypeError).
Proof.
  intros Hg Hs Hc.
  assert (∃ v m1, smiles false m = Ok (v, m1) ∧ smiles false m1 = Ok (v, m1)
                  ∧ py_in "[C+]" v = Raise TypeError) as (v & m1 & H1 & H2 & Hv).
  { unfold smiles, py_ne; simpl.
    destruct Hc as [Hc|[Hc|Hc]]; rewrite Hc; simpl; rewrite ?Hg, ?Hs;
      do 2 eexists; repeat split; by rewrite ?Hc. }
  unfold fix_common_errors. rewrite Hg, H1. simpl. rewrite H2.
  unfold fix_pass. by rewrite Hv.
Qed.

(** A pass that leaves the canonical form as it was is the last one. *)
Lemma fix_loop_stops_when_unchanged (fuel : nat) (m m1 : MyMol) (g g' : Graph)
    (s : string) (o n : pyval) :
  py_ne o n = true →
  rdkit_mol m = Mol g → smiles false m = Ok (PStr s, m1) →
  fix_pass m1 g (PStr s) = Ok g' → MolToSmiles g' = Some s →
  ∃ m', fix_loop (S fuel) (Mol g) o n m = Some (Ok m')
        ∧ rdkit_mol m' = Mol g' ∧ can_smi m' = PStr s.
Proof.
  intros Hne Hg Hs Hp Hc. simpl. rewrite Hne, Hs, Hp.
  unfold smiles at 1; simpl. rewrite Hc; simpl.
  destruct fuel; simpl; unfold py_ne; rewrite bool_decide_false by naive_solver;
    eexists; repeat split.
Qed.

Lemma smiles_consistent (m : MyMol) (g : Graph) (s : string) :
  consistent m g s →
  ∃ m1, smiles false m = Ok (PStr s, m1) ∧ consistent m1 g s
        ∧ can_smi m1 = PStr s.
Proof.
  intros (Hg & Hs & Hc). unfold smiles, py_ne, consistent; simpl.
  destruct Hc as [Hc|Hc]; rewrite Hc.
  - rewrite bool_decide_false by naive_solver. rewrite Hg, Hs.
    eexists; split; [done |]. simpl. auto.
  - destruct (decide (s = "")) as [->|Hne].
    + rewrite bool_decide_false by naive_solver. rewrite Hg, Hs.
      eexists; split; [done |]. simpl. auto.
    + rewrite bool_decide_true by congruence.
      eexists; split; [done |]. auto.
Qed.



(** Run again at once, it makes one pass and leaves the canonical form as
    it was. *)
Lemma fix_common_errors_again (mu : Graph → nat) (m : MyMol) (fuel : nat) :
  repairs_well_founded mu → repairs_respect_canonical_form →
  at_fixed_point m →
  ∃ m', fix_common_errors (S fuel) m = Some (Ok m')
        ∧ can_smi m' = can_smi m ∧ at_fixed_point m'.
Proof.
  intros Hwf Hresp (g & s & m0 & g0 & Hc & Hcan & Hg0 & Hs0 & Hp0).
  unfold fix_common_errors.
  destruct (smiles_consistent m g s Hc) as (m1 & Hs1 & Hc1 & Hcan1).
  destruct (smiles_consistent m1 g s Hc1) as (m2 & Hs2 & Hc2 & Hcan2).
  destruct Hc as (Hg & Hsm & _). rewrite Hg, Hs1.
  destruct Hc2 as (Hg2 & _ & _).
  destruct (Hwf m2 g s Hg2 Hsm) as (g' & s' & Hp & Hs' & _).
  assert (s' = s) as ->.
  { pose proof (Hresp m0 m2 g0 g s g g' Hg0 Hg2 Hs0 Hsm Hp0 Hp) as Heq.
    congruence. }
  set (m3 := set_can_smi (PStr "") (set_rdkit_mol (Mol g') m2)).
  assert (Hc3 : consistent m3 g' s) by (repeat split; auto).
  destruct (smiles_consistent m3 g' s Hc3) as (m4 & Hs4 & Hc4 & Hcan4).
  exists m4. simpl. rewrite Hs2, Hp. fold m3. rewrite Hs4.
  assert (Hstop : ∀ f, fix_loop f (Mol g') (PStr s) (PStr s) m4 = Some (Ok m4)).
  { intros f. destruct f; simpl; unfold py_ne;
      by rewrite bool_decide_false by naive_solver. }
  rewrite Hstop. split; [done |]. split; [congruence |].
  by exists g', s, m2, g.
Qed.

(** ** The biggest fragment *)

Lemma biggest_frag_fold (fs : list Graph) (nums : list nat) (d : gmap nat Graph) :
  foldl (λ '(nums, d) f,
           let num := GetNumHeavyAtoms f in (nums ++ [num], <[num := f]> d))
        (nums, d) fs
  = (nums ++ (GetNumHeavyAtoms <$> fs),
     foldl (λ d f, <[GetNumHeavyAtoms f := f]> d) d fs).
Proof.
  revert nums d. induction fs as [|f fs IH]; intros nums d; simpl.
  - by rewrite app_nil_r.
  - rewrite IH. by rewrite <- app_assoc.
Qed.

(** The dictionary maps a count to the last fragment that has it. *)
Lemma heavy_dict_lookup (fs : list Graph) (d : gmap nat Graph) (n : nat) :
  foldl (λ d f, <[GetNumHeavyAtoms f := f]> d) d fs !! n
  = match last (filter (λ f, GetNumHeavyAtoms f = n) fs) with
    | Some f => Some f
    | None => d !! n
    end.
Proof.
  induction fs as [|f fs IH] using rev_ind; [done |].
  rewrite foldl_app, filter_app; simpl.
  destruct (decide (GetNumHeavyAtoms f = n)) as [<-|Hn].
  - rewrite lookup_insert_eq. rewrite filter_cons_True by done.
    rewrite filter_nil. by rewrite last_snoc.
  - rewrite lookup_insert_ne by done. rewrite filter_cons_False by done.
    rewrite filter_nil, app_nil_r. done.
Qed.

Lemma foldl_max_spec (l : list nat) (x : nat) :
  (x ≤ foldl Nat.max x l)%nat
  ∧ Forall (λ y, (y ≤ foldl Nat.max x l)%nat) l
  ∧ (foldl Nat.max x l = x ∨ foldl Nat.max x l ∈ l).
Proof.
  revert x. induction l as [|y l IH]; intros x; simpl.
  - split; [lia |]. split; [constructor | by left].
  - destruct (IH (Nat.max x y)) as (H1 & H2 & H3).
    split; [lia |]. split.
    + constructor; [lia | done].
    + destruct H3 as [H3|H3].
      * destruct (Nat.max_spec x y) as [[? Hm]|[? Hm]].
        -- right. rewrite H3, Hm. by left.
        -- left. by rewrite H3.
      * right. by right.
Qed.

Lemma last_filter_split {A} (P : A → Prop) `{∀ x, Decision (P x)}
    (l : list A) (x : A) :
  last (filter P l) = Some x →
  ∃ pre post, l = pre ++ x :: post ∧ P x ∧ Forall (λ y, ¬ P y) post.
Proof.
  induction l as [|y l IH] using rev_ind; [done |].
  rewrite filter_app. destruct (decide (P y)) as [Hy|Hy].
  - rewrite filter_cons_True by done. rewrite filter_nil, last_snoc.
    intros [= ->]. exists l, []. by repeat split.
  - rewrite filter_cons_False by done. rewrite filter_nil, app_nil_r.
    intros Hl. destruct (IH Hl) as (pre & post & -> & Hx & Hpost).
    exists pre, (post ++ [y]). split; [by rewrite <- app_assoc |].
    split; [done |]. apply Forall_app. split; [done | by constructor].
Qed.

(** The fragment [desalter] picks has at least as many heavy atoms as any
    fragment, and more than any fragment after it: of the fragments with
    the largest count it is the last one. *)
Lemma biggest_frag_last_max (fs : list Graph) :
  fs ≠ [] →
  ∃ pre f post, fs = pre ++ f :: post ∧ biggest_frag fs = Ok f
    ∧ Forall (λ f', (GetNumHeavyAtoms f' ≤ GetNumHeavyAtoms f)%nat) fs
    ∧ Forall (λ f', (GetNumHeavyAtoms f' < GetNumHeavyAtoms f)%nat) post.
Proof.
  intros Hne. unfold biggest_frag. rewrite biggest_frag_fold; simpl.
  destruct fs as [|f0 fs]; [done |]. simpl.
  set (all := f0 :: fs).
  match goal with |- context [foldl Nat.max ?a ?b] =>
    destruct (foldl_max_spec b a) as (H0 & Hall & Hin);
    remember (foldl Nat.max a b) as mx eqn:Hmx
  end. clear Hmx.
  assert (Hle : Forall (λ f', (GetNumHeavyAtoms f' ≤ mx)%nat) all).
  { constructor; [done |]. by apply Forall_fmap in Hall. }
  assert (Hex : ∃ f, f ∈ all ∧ GetNumHeavyAtoms f = mx).
  { destruct Hin as [Hin|Hin].
    - exists f0. split; [by left | done].
    - apply list_elem_of_fmap in Hin as (f & -> & Hf). exists f.
      split; [by right | done]. }
  change (foldl (λ d f, <[GetNumHeavyAtoms f := f]> d)
            (<[GetNumHeavyAtoms f0 := f0]> ∅) fs)
    with (foldl (λ d f, <[GetNumHeavyAtoms f := f]> d) (∅ : gmap nat Graph) all).
  rewrite heavy_dict_lookup.
  destruct (last (filter (λ f, GetNumHeavyAtoms f = mx) all)) as [f|] eqn:Hl.
  - destruct (last_filter_split _ _ _ Hl) as (pre & post & Hsplit & Hf & Hpost).
    exists pre, f, post. rewrite Hf. split; [done |]. split; [done |].
    split; [done |].
    apply Forall_forall. intros f' Hf'.
    assert (f' ∈ all) as Hin'.
    { rewrite Hsplit. apply elem_of_app. right. by right. }
    pose proof (proj1 (Forall_forall _ _) Hle _ Hin') as Hle'.
    pose proof (proj1 (Forall_forall _ _) Hpost _ Hf') as Hne'. simpl in *. lia.
  - destruct Hex as (f & Hf & Hm).
    apply last_None in Hl.
    assert (f ∈ filter (λ f, GetNumHeavyAtoms f = mx) all) as Hin'
      by (by apply list_elem_of_filter).
    rewrite Hl in Hin'. by apply not_elem_of_nil in Hin'.
Qed.

(** The record built from the picked fragment holds that fragment and
    carries the container's index and name and the genealogy of the
    container's record. *)
Lemma new_mol_of_spec (contnr : MolContainer) (f : Graph) :
  ∃ new_mol, new_mol_of contnr f = Ok new_mol
    ∧ rdkit_mol new_mol = Mol f
    ∧ contnr_idx new_mol = cont_contnr_idx contnr
    ∧ name new_mol = cont_name contnr
    ∧ genealogy new_mol = genealogy (mol_orig_frm_inp_smi contnr).
Proof.
  unfold new_mol_of.
  destruct (MyMol_init_graph_Ok f "") as (m & -> & Hg & _). simpl.
  eexists; repeat split. done.
Qed.

(** With two or more fragments, [desalter] comes to the call of
    [make_mol_frm_smiles_sanitze] with the record of the last biggest
    fragment in hand: it returns that record if the name resolves, and
    raises if not. *)
Lemma desalter_in_multi_fragment (attrs : list string) (contnr : MolContainer)
    (s : string) (g : Graph) :
  let m := mol_orig_frm_inp_smi contnr in
  frgs m = None → orig_smi m = SmiStr s → str_contains "." s = true →
  rdkit_mol m = Mol g → (2 ≤ length (GetMolFrags g))%nat →
  ∃ pre f post new_mol,
    GetMolFrags g = pre ++ f :: post
    ∧ Forall (λ f', (GetNumHeavyAtoms f' ≤ GetNumHeavyAtoms f)%nat) (GetMolFrags g)
    ∧ Forall (λ f', (GetNumHeavyAtoms f' < GetNumHeavyAtoms f)%nat) post
    ∧ rdkit_mol new_mol = Mol f
    ∧ contnr_idx new_mol = cont_contnr_idx contnr
    ∧ name new_mol = cont_name contnr
    ∧ genealogy new_mol = genealogy m
    ∧ desalter_in attrs contnr
      = (_ ← getattr attrs "make_mol_frm_smiles_sanitze"; Ok new_mol).
Proof.
  intros m Hf Ho Hdot Hg Hlen.
  destruct (biggest_frag_last_max (GetMolFrags g))
    as (pre & f & post & Hsplit & Hbig & Hmax & Hlast).
  { intros Hnil. rewrite Hnil in Hlen. simpl in Hlen. lia. }
  set (contnr' := {| cont_contnr_idx := cont_contnr_idx contnr;
                     cont_name := cont_name contnr;
                     cont_orig_smi := cont_orig_smi contnr;
                     mol_orig_frm_inp_smi :=
                       set_frgs (FragsMols (GetMolFrags g)) m |}).
  destruct (new_mol_of_spec contnr' f) as (nm & Hnew & Hgn & Hi & Hn & Hgen).
  exists pre, f, post, nm. repeat split; try done.
  unfold desalter_in, cont_get_frags_of_orig_smi, get_frags_of_orig_smi. fold m.
  rewrite Hf, Ho; simpl. rewrite Hdot; simpl. rewrite Hg; simpl.
  rewrite bool_decide_false by lia. rewrite Hbig; simpl.
  fold contnr'. by rewrite Hnew.
Qed.

Lemma make_mol_frm_smiles_sanitze_undefined :
  getattr MyMol_attributes "make_mol_frm_smiles_sanitze" = Raise AttributeError.
Proof. unfold getattr. vm_compute. reflexivity. Qed.

(** ** Hash collisions *)

(** [N + 1] values below [N] cannot all differ. *)
Lemma pigeonhole (N : nat) :
  ∀ f : nat → nat, (∀ i, (i ≤ N)%nat → f i < N) →
    ∃ i j, i < j ∧ (j ≤ N)%nat ∧ f i = f j.
Proof.
  induction N as [|N IH]; intros f Hf.
  - specialize (Hf 0). lia.
  - destruct (decide (Exists (λ i, f i = f (S N)) (seq 0 (S N)))) as [Hex|Hnex].
    + apply Exists_exists in Hex as (i & Hi & Heq).
      apply elem_of_seq in Hi. exists i, (S N). split; [lia |]. split; [lia | done].
    + assert (Hno : ∀ i, (i ≤ N)%nat → f i ≠ f (S N)).
      { intros i Hi Heq. apply Hnex, Exists_exists. exists i. split; [| done].
        apply elem_of_seq. lia. }
      destruct (IH (λ i, if decide (f i = N) then f (S N) else f i))
        as (i & j & Hij & Hj & Heq).
      { intros i Hi. pose proof (Hf i ltac:(lia)). pose proof (Hf (S N) ltac:(lia)).
        pose proof (Hno i Hi). destruct (decide (f i = N)); lia. }
      exists i, j. split; [done |]. split; [lia |].
      pose proof (Hno i ltac:(lia)). pose proof (Hno j ltac:(lia)).
      destruct (decide (f i = N)), (decide (f j = N)); congruence.
Qed.

(** A hash with a bounded range sends two strings of any infinite family
    to the same value. *)
Lemma hash_collision (smi : nat → string) :
  hash_in_range → (∀ i j, smi i = smi j → i = j) →
  ∃ i j, smi i ≠ smi j ∧ str_hash (smi i) = str_hash (smi j).
Proof.
  intros Hrange Hinj.
  remember (Z.to_nat (2 ^ 64)) as N eqn:HN.
  assert (HNz : Z.of_nat N = (2 ^ 64)%Z) by (subst N; apply Z2Nat.id; lia).
  clear HN.
  destruct (pigeonhole N (λ i, Z.to_nat (str_hash (smi i) + 2 ^ 63)))
    as (i & j & Hij & _ & Heq).
  { intros i _. pose proof (Hrange (smi i)) as Hr.
    apply Nat2Z.inj_lt. rewrite Z2Nat.id by lia. lia. }
  exists i, j. split.
  - intros Hs. apply Hinj in Hs. lia.
  - pose proof (Hrange (smi i)). pose proof (Hrange (smi j)).
    apply Z2Nat.inj in Heq; lia.
Qed.

Lemma smiles_of_canonical (m : MyMol) (g : Graph) (s : string) :
  rdkit_mol m = Mol g → MolToSmiles g = Some s → can_smi m = PStr s →
  ∃ m', smiles false m = Ok (PStr s, m').
Proof.
  intros Hg Hs Hc. unfold smiles; simpl. rewrite Hc, Hg, Hs.
  destruct (py_ne (PStr s) (PStr "")); eauto.
Qed.

(** Whatever the hash, as long as its range is bounded: among records built
    from graphs with pairwise different canonical forms, two compare equal. *)
Lemma equal_records_with_different_forms (mols : nat → Graph) (smi : nat → string) :
  hash_in_range →
  (∀ n, MolToSmiles (mols n) = Some (smi n)) →
  (∀ i j, smi i = smi j → i = j) →
  ∃ i j a b a' b',
    MyMol_init (inr (mols i)) "" = Ok a ∧ MyMol_init (inr (mols j)) "" = Ok b
    ∧ smiles false a = Ok (PStr (smi i), a')
    ∧ smiles false b = Ok (PStr (smi j), b')
    ∧ smi i ≠ smi j
    ∧ MyMol_eq a b = Ok (true, (a', b')).
Proof.
  intros Hrange Hcan Hinj.
  destruct (hash_collision smi Hrange Hinj) as (i & j & Hne & Hh).
  destruct (MyMol_init_graph_Ok (mols i) "") as (a & Ha & Hga & _ & _ & _ & _ & _ & Hca).
  destruct (MyMol_init_graph_Ok (mols j) "") as (b & Hb & Hgb & _ & _ & _ & _ & _ & Hcb).
  rewrite Hcan in Hca, Hcb.
  destruct (smiles_of_canonical a _ _ Hga (Hcan i) Hca) as (a' & Hsa).
  destruct (smiles_of_canonical b _ _ Hgb (Hcan j) Hcb) as (b' & Hsb).
  exists i, j, a, b, a', b'. repeat split; try done.
  rewrite (MyMol_eq_eval a b a' b' _ _ Hsa Hsb). simpl.
  by rewrite bool_decide_true.
Qed.

End Facts.

(** * Further properties of the code *)

Section FormFacts.
Context `{R : PyRuntime} `{E : ChemEngine}.

(** ** Canonical forms and their caches *)

Lemma smiles_false_inv (m m1 : MyMol) (v : pyval) :
  smiles false m = Ok (v, m1) →
  m1 = set_can_smi v m ∧ (can_smi m ≠ PStr "" → v = can_smi m ∧ m1 = m).
Proof.
  unfold smiles, py_ne. simpl. case_bool_decide as Hc.
  - intros [= <- <-]. split; [by destruct m | done].
  - destruct (match rdkit_mol m with Mol g => MolToSmiles g | _ => None end);
      intros [= <- <-]; (split; [done | intros Hn; by destruct Hc]).
Qed.


Lemma smiles_true_stored (m : MyMol) :
  can_smi_noh m ≠ "" → smiles true m = Ok (PStr (can_smi_noh m), m).
Proof.
  intros Hn. unfold smiles. simpl.
  by destruct (String.eqb_spec (can_smi_noh m) "").
Qed.

Lemma smiles_true_no_graph (m : MyMol) :
  can_smi_noh m = "" → (∀ g, rdkit_mol m ≠ Mol g) →
  smiles true m = Raise ArgumentError.
Proof.
  intros Hn Hg. unfold smiles. simpl. rewrite Hn. simpl.
  destruct (rdkit_mol m) as [| |g]; [done | done | by destruct (Hg g)].
Qed.

(** X2.  [smiles(True)] works on the graph alone, whether or not [smiles()]
    was called before: with the cache empty it returns the form of the
    graph without hydrogens and stores it, leaving [can_smi] alone; without
    a graph it raises; a stored form is returned whatever the graph is. *)
Theorem smiles_noh_from_graph (m : MyMol) :
  (∀ g s, can_smi_noh m = "" → rdkit_mol m = Mol g →
     MolToSmiles (RemoveHs g) = Some s →
     smiles true m = Ok (PStr s, set_can_smi_noh s m)
     ∧ can_smi (set_can_smi_noh s m) = can_smi m
     ∧ (s ≠ "" → ∀ r, smiles true (set_rdkit_mol r (set_can_smi_noh s m))
                      = Ok (PStr s, set_rdkit_mol r (set_can_smi_noh s m))))
  ∧ (can_smi_noh m = "" → (∀ g, rdkit_mol m ≠ Mol g) →
     smiles true m = Raise ArgumentError)
  ∧ (can_smi_noh m ≠ "" → smiles true m = Ok (PStr (can_smi_noh m), m)).
Proof.
  split; [| split].
  - intros g s Hn Hg Hs. unfold smiles. simpl. rewrite Hn, Hg, Hs. simpl.
    split; [done |]. split; [done |]. intros Hne r.
    destruct (String.eqb_spec s ""); [done |]. done.
  - apply smiles_true_no_graph.
  - apply smiles_true_stored.
Qed.

(** X3.  [makeMolFromSmiles] parses once: what it returns is stored, is
    never the unset value, and a second call returns it without parsing
    again, a failure included; nothing but [rdkit_mol] changes.  On a
    notation it always returns. *)
Theorem makeMolFromSmiles_once (m : MyMol) :
  (∀ r m1, makeMolFromSmiles m = Ok (r, m1) →
     r ≠ MolUnset ∧ m1 = set_rdkit_mol r m
     ∧ makeMolFromSmiles m1 = Ok (r, m1))
  ∧ (∀ s, orig_smi_deslt m = SmiStr s → is_Ok (makeMolFromSmiles m) = true)
  ∧ (∀ g, rdkit_mol m = MolUnset → orig_smi_deslt m = SmiMol g →
       makeMolFromSmiles m = Raise ArgumentError).
Proof.
  split; [| split].
  - intros r m1. unfold makeMolFromSmiles.
    destruct (rdkit_mol m) eqn:Hr.
    + destruct (orig_smi_deslt m); [| done].
      destruct (_ ≫= _); intros [= <- <-]; done.
    + intros [= <- <-]. rewrite Hr. split; [done |]. split; [| done].
      destruct m; simpl in *; by subst.
    + intros [= <- <-]. rewrite Hr. split; [done |]. split; [| done].
      destruct m; simpl in *; by subst.
  - intros s Hs. unfold makeMolFromSmiles. rewrite Hs.
    destruct (rdkit_mol m); [| done..]. by destruct (_ ≫= _).
  - intros g Hr Hs. unfold makeMolFromSmiles. by rewrite Hr, Hs.
Qed.

Lemma sanitize_fold_bits (l : list Z) (a : Z) (b : Z) :
  Z.testbit
    (foldl (λ a v, if bool_decide (v = SANITIZE_CLEANUP ∨ v = SANITIZE_ALL)
                   then a else Z.lor a v) a l) b = true
  ↔ Z.testbit a b = true
    ∨ ∃ v, v ∈ l ∧ v ≠ SANITIZE_CLEANUP ∧ v ≠ SANITIZE_ALL ∧ Z.testbit v b = true.
Proof.
  revert a. induction l as [|v l IH]; intros a; simpl.
  - split; [by left |]. intros [H | (v & Hv & _)]; [done |].
    by apply elem_of_nil in Hv.
  - rewrite IH. case_bool_decide as Hd.
    + split.
      * intros [H | (w & Hw & H)]; [by left |]. right. exists w.
        split; [by right | done].
      * intros [H | (w & Hw & Hc & Ha & Hb)]; [by left |].
        apply elem_of_cons in Hw as [-> | Hw]; [tauto |].
        right. by exists w.
    + rewrite Z.lor_spec, orb_true_iff. split.
      * intros [[H | H] | (w & Hw & H)]; [by left | |].
        -- right. exists v. split; [by left |]. tauto.
        -- right. exists w. split; [by right | done].
      * intros [H | (w & Hw & Hc & Ha & Hb)]; [by left; left |].
        apply elem_of_cons in Hw as [-> | Hw]; [by left; right |].
        right. by exists w.
Qed.

(** X4.  The sanitize flags [makeMolFromSmiles] passes on: a bit is set in
    them exactly when it is set in one of the listed flags other than
    SANITIZE_CLEANUP and SANITIZE_ALL. *)
Theorem sanitize_ops_bits (b : Z) :
  Z.testbit sanitize_ops b = true
  ↔ ∃ v, v ∈ SanitizeFlags_values ∧ v ≠ SANITIZE_CLEANUP ∧ v ≠ SANITIZE_ALL
         ∧ Z.testbit v b = true.
Proof.
  unfold sanitize_ops. rewrite sanitize_fold_bits. rewrite Z.bits_0.
  split; [| by right]. by intros [H | H].
Qed.

End FormFacts.

Section QueryFacts.
Context `{R : PyRuntime} `{E : ChemEngine}.

(** ** The cached queries *)

Lemma ring_has_nonaromatic_valid (atoms : list Atom) (rng : list nat) :
  Forall (λ i, i < length atoms) rng →
  ring_has_nonaromatic atoms rng = Ok (nonaromatic_ring atoms rng).
Proof.
  induction 1 as [|i rng Hi _ IH]; [done |]. simpl.
  apply lookup_lt_is_Some_2 in Hi as [a Ha]. rewrite Ha.
  by destruct (GetIsAromatic a).
Qed.

Lemma nonaro_loop (atoms : list Atom) (rings acc : list (list nat)) :
  Forall (Forall (λ i, i < length atoms)) rings →
  for_each (λ acc rng, b ← ring_has_nonaromatic atoms rng;
                       Ok (if b : bool then acc ++ [rng] else acc)) rings acc
  = Ok (acc ++ filter (λ rng, nonaromatic_ring atoms rng = true) rings).
Proof.
  intros H. revert acc. induction H as [|rng rings Hr _ IH]; intros acc; simpl.
  - by rewrite app_nil_r.
  - rewrite (ring_has_nonaromatic_valid _ _ Hr). simpl.
    destruct (nonaromatic_ring atoms rng) eqn:Hb; rewrite IH.
    + rewrite filter_cons_True by done. by rewrite <- app_assoc.
    + rewrite filter_cons_False by (by rewrite Hb). done.
Qed.

(** X5.  On a graph whose rings name atoms the graph has,
    [m_num_nonaro_rngs] returns the rings of the smallest set of smallest
    rings that have an atom that is not aromatic, in their order: a ring
    is left out exactly when all its atoms are aromatic.  The list is
    stored and a second call returns it. *)
Theorem m_num_nonaro_rngs_filter (m : MyMol) (g : Graph) :
  rdkit_mol m = Mol g → nonaro_ring_atom_idx m = None →
  Forall (Forall (λ i, i < length (GetAtoms g))) (GetSymmSSSR g) →
  ∃ rngs m1,
    m_num_nonaro_rngs m = Ok (rngs, m1)
    ∧ rngs = filter (λ rng, nonaromatic_ring (GetAtoms g) rng = true) (GetSymmSSSR g)
    ∧ (∀ rng, rng ∈ rngs ↔
         rng ∈ GetSymmSSSR g
         ∧ ∃ i a, i ∈ rng ∧ GetAtoms g !! i = Some a ∧ GetIsAromatic a = false)
    ∧ m1 = set_nonaro_ring_atom_idx rngs m
    ∧ m_num_nonaro_rngs m1 = Ok (rngs, m1).
Proof.
  intros Hg Hc Hv. eexists _, _. unfold m_num_nonaro_rngs at 1.
  rewrite Hc, Hg. rewrite (nonaro_loop _ _ [] Hv). simpl.
  split; [reflexivity |]. split; [reflexivity |]. split; [| split; [done |]].
  - intros rng. rewrite list_elem_of_filter. unfold nonaromatic_ring.
    rewrite existsb_exists. split.
    + intros [(i & Hi & Ha) Hr]. split; [done |].
      destruct (GetAtoms g !! i) as [a|] eqn:Hl; [| done].
      exists i, a. split; [by apply list_elem_of_In |]. split; [done |].
      by destruct (GetIsAromatic a).
    + intros [Hr (i & a & Hi & Hl & Ha)]. split; [| done].
      exists i. split; [by apply list_elem_of_In |]. by rewrite Hl, Ha.
  - done.
Qed.

Lemma indexed_filter_sorted {A} (P : nat * A → Prop) `{∀ x, Decision (P x)}
    (l : list A) (k : nat) :
  StronglySorted lt (fst <$> filter P (imap (λ i b, (k + i, b)) l))
  ∧ Forall (λ i, (k ≤ i)%nat) (fst <$> filter P (imap (λ i b, (k + i, b)) l)).
Proof.
  revert k. induction l as [|x l IH]; intros k.
  - split; constructor.
  - rewrite imap_cons.
    assert (Hext : imap ((λ i b, (k + i, b)) ∘ S) l = imap (λ i b, (S k + i, b)) l).
    { apply imap_ext. intros i y _. simpl. f_equal. lia. }
    rewrite Hext. destruct (IH (S k)) as [Hs Hf].
    destruct (decide (P (k + 0, x))) as [Hp | Hp].
    + rewrite filter_cons_True by done. simpl. split.
      * constructor; [done |]. eapply Forall_impl; [exact Hf |].
        simpl. intros; lia.
      * constructor; [simpl; lia |]. eapply Forall_impl; [exact Hf |].
        simpl. intros; lia.
    + rewrite filter_cons_False by done. split; [done |].
      eapply Forall_impl; [exact Hf |]. simpl. intros; lia.
Qed.

Lemma indexed_filter_elem {A} (P : nat * A → Prop) `{∀ x, Decision (P x)}
    (l : list A) (i : nat) :
  i ∈ fst <$> filter P (imap (λ i b, (i, b)) l)
  ↔ ∃ b, l !! i = Some b ∧ P (i, b).
Proof.
  rewrite list_elem_of_fmap. split.
  - intros ([j b] & -> & Hin). apply list_elem_of_filter in Hin as [Hp Hin].
    apply elem_of_lookup_imap in Hin as (j' & b' & [= -> ->] & Hl).
    by exists b'.
  - intros (b & Hl & Hp). exists (i, b). split; [done |].
    apply list_elem_of_filter. split; [done |].
    apply elem_of_lookup_imap. by exists i, b.
Qed.

(** X6.  On a graph, [get_double_bonds_without_stereochemistry] returns
    the indices of the bonds of order two without configuration: each such
    bond once, no other index, in increasing order. *)
Theorem double_bonds_listed (m : MyMol) (g : Graph) :
  rdkit_mol m = Mol g →
  ∃ l, get_double_bonds_without_stereochemistry m = Ok l
    ∧ (∀ i, i ∈ l ↔ ∃ b, GetBonds g !! i = Some b
                        ∧ Qeq_bool (GetBondTypeAsDouble b) 2 = true
                        ∧ GetStereo b = STEREONONE)
    ∧ StronglySorted lt l
    ∧ Forall (λ i, i < length (GetBonds g)) l.
Proof.
  intros Hg. unfold get_double_bonds_without_stereochemistry. rewrite Hg.
  eexists. split; [reflexivity |].
  assert (Hel : ∀ i, i ∈ fst <$> filter (λ ib : nat * Bond,
                  Qeq_bool (GetBondTypeAsDouble ib.2) 2 = true
                  ∧ GetStereo ib.2 = STEREONONE) (imap (λ i b, (i, b)) (GetBonds g))
                ↔ ∃ b, GetBonds g !! i = Some b
                       ∧ Qeq_bool (GetBondTypeAsDouble b) 2 = true
                       ∧ GetStereo b = STEREONONE).
  { intros i. by rewrite indexed_filter_elem. }
  split; [exact Hel |]. split.
  - exact (proj1 (indexed_filter_sorted _ (GetBonds g) 0)).
  - apply Forall_forall. intros i Hi. apply Hel in Hi as (b & Hl & _).
    by eapply lookup_lt_Some.
Qed.

(** X7.  [crzy_substruc] on a record whose notations and canonical form
    are strings: a prohibited pattern found in one of the three texts gives
    True without the graph being looked at, so also without a graph; with a
    graph the answer is True exactly when a pattern is found in a text or
    matched in the graph.  The answer is stored and returned again. *)
Theorem crzy_substruc_text_or_graph (m : MyMol) (s d c : string) :
  crzy_substruct m = None →
  orig_smi m = SmiStr s → orig_smi_deslt m = SmiStr d → can_smi m = PStr c →
  let text := existsb (λ p, str_contains p s || str_contains p d
                            || str_contains p c) prohibited_substructures in
  (text = true → crzy_substruc m = Ok (true, set_crzy_substruct true m))
  ∧ (∀ g, rdkit_mol m = Mol g →
       let b := text || existsb (HasSubstructMatch g) prohibited_substructures in
       crzy_substruc m = Ok (b, set_crzy_substruct b m)
       ∧ crzy_substruc (set_crzy_substruct b m) = Ok (b, set_crzy_substruct b m)).
Proof.
  intros Hc Ho Hd Hs. simpl. unfold crzy_substruc. rewrite Hc. simpl.
  rewrite Ho, Hd, Hs. simpl. split.
  - destruct (str_contains "O(=*)-*" s); [done |].
    destruct (str_contains "O(=*)-*" d); [done |].
    destruct (str_contains "O(=*)-*" c); [done |].
    destruct (str_contains "C(O)=N" s); [done |].
    destruct (str_contains "C(O)=N" d); [done |].
    destruct (str_contains "C(O)=N" c); [done |]. done.
  - intros g Hg. rewrite Hg. split; [| done].
    destruct (str_contains "O(=*)-*" s); [done |].
    destruct (str_contains "O(=*)-*" d); [done |].
    destruct (str_contains "O(=*)-*" c); [done |].
    destruct (str_contains "C(O)=N" s); [done |].
    destruct (str_contains "C(O)=N" d); [done |].
    destruct (str_contains "C(O)=N" c); [done |]. simpl.
    destruct (HasSubstructMatch g "O(=*)-*"); [done |].
    by destruct (HasSubstructMatch g "C(O)=N").
Qed.

(** ** Fragments *)

(** X8.  [get_frags_of_orig_smi] computes its answer once: what it returns
    is stored, and the stored answer is returned from then on, also after
    [inherit_contnr_props] has replaced the notations and after the graph
    has been replaced. *)
Theorem get_frags_of_orig_smi_once (m m1 : MyMol) (f : frags) :
  get_frags_of_orig_smi m = Ok (f, m1) →
  frgs m1 = Some f
  ∧ get_frags_of_orig_smi m1 = Ok (f, m1)
  ∧ (∀ other, get_frags_of_orig_smi (inherit_contnr_props m1 other)
              = Ok (f, inherit_contnr_props m1 other))
  ∧ (∀ r, get_frags_of_orig_smi (set_rdkit_mol r m1) = Ok (f, set_rdkit_mol r m1)).
Proof.
  intros H.
  assert (Hf : frgs m1 = Some f).
  { revert H. unfold get_frags_of_orig_smi. destruct (frgs m) eqn:Hc.
    - by intros [= <- <-].
    - destruct (smi_in "." (orig_smi m)) as [b|]; [| done]. simpl.
      destruct b; simpl.
      + destruct (rdkit_mol m); [done.. |]. by intros [= <- <-].
      + by intros [= <- <-]. }
  split; [done |]. unfold get_frags_of_orig_smi. simpl. by rewrite Hf.
Qed.

(** X9.  A record whose notation has a [.] but did not parse has no
    fragments to give: [get_frags_of_orig_smi] raises, and [desalter]
    raises with it, whatever methods the class has. *)
Theorem desalter_unparsed_salt (attrs : list string) (contnr : MolContainer)
    (s : string) :
  let m := mol_orig_frm_inp_smi contnr in
  frgs m = None → orig_smi m = SmiStr s → str_contains "." s = true →
  rdkit_mol m = MolNone →
  get_frags_of_orig_smi m = Raise ArgumentError
  ∧ desalter_in attrs contnr = Raise ArgumentError
  ∧ desalter contnr = Raise ArgumentError.
Proof.
  intros m Hf Ho Hd Hr.
  assert (H : get_frags_of_orig_smi m = Raise ArgumentError).
  { unfold get_frags_of_orig_smi. rewrite Hf, Ho. simpl. rewrite Hd. simpl.
    by rewrite Hr. }
  split; [done |]. unfold desalter, desalter_in, cont_get_frags_of_orig_smi.
  fold m. by rewrite H.
Qed.

End QueryFacts.

Section ConformerFacts.
Context `{R : PyRuntime} `{E : ChemEngine}.

(** ** Conformers *)

(** X10.  The setter and the getter of [MyConformer.conformer]: on a
    conformer that is not the failure marker, a geometry that was set is
    the one read back, the last one set wins, and nothing else of the
    conformer changes.  On the failure marker both raise. *)
Theorem conformer_set_get (c : MyConformer) (x y : Geom) :
  (conf_mol c ≠ CMolFalse →
   ∃ c', set_conformer x c = Ok c' ∧ conformer c' = Ok x
     ∧ same_identity c c'
     ∧ (c1 ← set_conformer x c; c2 ← set_conformer y c1; conformer c2) = Ok y
     ∧ (c1 ← set_conformer x c; set_conformer y c1) = set_conformer y c)
  ∧ (conf_mol c = CMolFalse →
     set_conformer x c = Raise AttributeError ∧ conformer c = Raise AttributeError).
Proof.
  split.
  - intros Hc. unfold set_conformer, conformer.
    destruct (conf_mol c) as [|g confs] eqn:Hm; [done |].
    eexists. split; [reflexivity |]. simpl. split; [done |]. split; [| done].
    unfold same_identity. simpl. rewrite Hm. done.
  - intros Hc. unfold set_conformer, conformer. by rewrite Hc.
Qed.

Lemma last_app_singleton {A} (l : list A) (x : A) : last (l ++ [x]) = Some x.
Proof. by rewrite last_snoc. Qed.

(** X11.  [align_to_me] on a conformer that holds the geometries
    [ref :: rest] and the heavy-atom list [ids]: the other conformer ends
    with one geometry, its first one moved onto [ref]; the conformer itself
    keeps [ref] and as many geometries as it had; neither changes in
    anything but geometry. *)
Theorem align_to_me_moves_other (self other : MyConformer) (g g2 : Graph)
    (ref x : Geom) (rest rest2 : list Geom) (ids : list nat) :
  conf_mol self = CMol g (ref :: rest) → ids_hvy_atms self = Some ids →
  conf_mol other = CMol g2 (x :: rest2) →
  ∃ self' other',
    align_to_me self other = Ok (self', other')
    ∧ conf_mol other' = CMol g2 [AlignConformer g ids ref x]
    ∧ conf_mol self' = CMol g (ref :: (AlignConformer g ids ref <$> rest))
    ∧ conformer self' = Ok ref
    ∧ same_identity self self' ∧ same_identity other other'.
Proof.
  intros Hs Hi Ho. unfold align_to_me. rewrite Hs. unfold conformer at 1.
  rewrite Ho. simpl. rewrite Hi. simpl.
  rewrite fmap_app. simpl.
  rewrite last_cons, last_app_singleton. simpl.
  unfold set_conformer. rewrite Ho. simpl.
  eexists _, _. split; [reflexivity |]. simpl. split; [done |].
  assert (Hrm : removelast (ref :: (AlignConformer g ids ref <$> rest)
                             ++ [AlignConformer g ids ref x])
                = ref :: (AlignConformer g ids ref <$> rest)).
  { change (ref :: ?l ++ ?r) with ((ref :: l) ++ r).
    by rewrite removelast_last. }
  simpl in Hrm. rewrite Hrm. split; [done |]. split; [done |].
  unfold same_identity. simpl. rewrite Hs, Ho. done.
Qed.

(** X12.  A conformer built from a given geometry draws no embedding and
    is never the failure marker: it holds that geometry, is not minimized,
    has the force-field energy of the geometry and the indices of the
    atoms that are not hydrogens.  Minimizing it replaces the geometry by
    the minimized one and the energy by the energy of that one. *)
Theorem MyConformer_init_given_geometry (mol : MyMol) (g : Graph) (x : Geom)
    (sd : Seed) :
  rdkit_mol mol = Mol g →
  ∃ c mol' c',
    MyConformer_init mol (Some x) sd = Ok (c, mol', sd)
    ∧ conformer c = Ok x ∧ minimized c = Some false
    ∧ energy c = Some (UFFCalcEnergy g x)
    ∧ ids_hvy_atms c = Some (heavy_atom_ids g)
    ∧ (∀ i, i ∈ heavy_atom_ids g ↔
         ∃ a, GetAtoms g !! i = Some a ∧ GetAtomicNum a ≠ 1)
    ∧ minimize c = Ok c'
    ∧ conformer c' = Ok (UFFMinimize g x)
    ∧ energy c' = Some (UFFCalcEnergy g (UFFMinimize g x))
    ∧ energy_current c ∧ energy_current c'.
Proof.
  intros Hg. unfold MyConformer_init. rewrite Hg. simpl.
  destruct (smiles_false_Ok mol) as (v & m1 & Hs & _). rewrite Hs. simpl.
  eexists _, _, _. split; [reflexivity |]. simpl.
  split; [done |]. split; [done |]. split; [done |]. split; [done |].
  split.
  { intros i. unfold heavy_atom_ids. by rewrite indexed_filter_elem. }
  unfold minimize. simpl. split; [reflexivity |]. simpl.
  split; [done |]. split; [done |].
  split; eexists _, _, _; simpl; split; reflexivity.
Qed.

Lemma minimize_all_minimized (l l' : list MyConformer) :
  minimize_all l = Ok l' → Forall (λ c, minimized c = Some true) l'.
Proof.
  revert l'. induction l as [|c l IH]; intros l'; simpl.
  - by intros [= <-].
  - destruct (minimize c) as [c'|] eqn:Hc; [| done]. simpl.
    destruct (minimize_all l) as [l''|]; [| done]. simpl. intros [= <-].
    constructor; [| by apply IH].
    revert Hc. unfold minimize. destruct (minimized c) as [[]|] eqn:Hm;
      [by intros [= <-] | | done].
    destruct (conf_mol c) as [|? []]; [done.. |]. by intros [= <-].
Qed.

Lemma survivors_Forall (P : MyConformer → Prop) (l l' : list MyConformer) :
  (∀ c c', same_identity c c' → P c → P c') →
  survivors l l' → Forall P l → Forall P l'.
Proof.
  intros HP. induction 1 as [|c l l' _ IH|c c' l l' Hi _ IH]; intros Hl.
  - done.
  - apply IH. by inversion Hl.
  - inversion Hl; subst. constructor; [by eapply HP | by apply IH].
Qed.

(** X13.  After [add_conformers(num, rmsd_cutoff, minimize=True)] returns,
    every stored conformer is flagged as minimized. *)
Theorem add_conformers_all_minimized (num : Z) (cutoff : Float) (m m' : MyMol)
    (sd sd' : Seed) :
  add_conformers num cutoff true m sd = Ok (m', sd') →
  Forall (λ c, minimized c = Some true) (conformers m').
Proof.
  unfold add_conformers.
  destruct (add_new_confs _ m sd) as [[m1 sd1]|]; [| done]. simpl.
  destruct (minimize_all (conformers m1)) as [l1|] eqn:Hmin; [| done]. simpl.
  destruct (sort_by_energy l1) as [l2|] eqn:Hsort; [| done]. simpl.
  destruct (eliminate_structurally_similar_conformers cutoff _) as [m2|] eqn:He;
    [| done]. simpl. intros [= <- <-].
  apply eliminate_survivors in He as [Hsv _]. simpl in Hsv.
  eapply survivors_Forall; [| exact Hsv |].
  - intros c c' (_ & Hm & _) Hc. by rewrite Hm.
  - eapply sort_by_energy_Forall; [exact Hsort |].
    by eapply minimize_all_minimized.
Qed.

End ConformerFacts.

Section PassFacts.
Context `{R : PyRuntime} `{E : ChemEngine}.

(** ** Sorting by energy *)

Lemma insert_by_key_perm (k : Float) (c : MyConformer)
    (l : list (Float * MyConformer)) :
  insert_by_key k c l ≡ₚ (k, c) :: l.
Proof.
  induction l as [|[k' c'] l IH]; simpl; [done |].
  destruct (flt k' k); [| done]. rewrite IH. apply Permutation_swap.
Qed.

Lemma sort_by_key_perm (l : list (Float * MyConformer)) : sort_by_key l ≡ₚ l.
Proof.
  induction l as [|[k c] l IH]; simpl; [done |].
  rewrite insert_by_key_perm. by rewrite IH.
Qed.

Lemma sort_by_key_fixed (l : list (Float * MyConformer)) :
  StronglySorted (λ a b, flt b.1 a.1 = false) l → sort_by_key l = l.
Proof.
  induction 1 as [|[k c] l _ IH Hf]; [done |].
  change (sort_by_key ((k, c) :: l)) with (insert_by_key k c (sort_by_key l)).
  rewrite IH.
  destruct l as [|[k' c'] l']; [done |]. simpl.
  apply Forall_cons in Hf as [Hf _]. simpl in Hf. by rewrite Hf.
Qed.

Lemma energy_keys_of_keys (ks : list (Float * MyConformer)) :
  Forall (λ kc, energy kc.2 = Some kc.1) ks → energy_keys (snd <$> ks) = Ok ks.
Proof.
  induction 1 as [|[k c] ks Hk _ IH]; [done |]. simpl in Hk.
  rewrite fmap_cons. cbn [energy_keys snd]. rewrite Hk. cbn [mbind result_bind].
  by rewrite IH.
Qed.

Lemma keys_strongly_sorted (ks : list (Float * MyConformer)) :
  Forall (λ kc, energy kc.2 = Some kc.1) ks →
  sorted_by_energy (snd <$> ks) →
  StronglySorted (λ a b, flt b.1 a.1 = false) ks.
Proof.
  induction 1 as [|[k c] ks Hk HF IH]; intros Hs; [constructor |].
  simpl in Hs. apply sorted_by_energy_cons in Hs as [Hs Hc].
  constructor; [by apply IH |].
  apply Forall_lookup. intros j [kj cj] Hj. simpl.
  eapply (Hc j cj k kj); [| done |].
  - by rewrite list_lookup_fmap, Hj.
  - by apply (Forall_lookup_1 _ _ _ _ HF Hj).
Qed.

Lemma energy_keys_unset (l : list MyConformer) :
  Exists (λ c, energy c = None) l → energy_keys l = Raise AttributeError.
Proof.
  induction 1 as [c l Hc | c l _ IH]; simpl.
  - by rewrite Hc.
  - destruct (energy c); [| done]. simpl. by rewrite IH.
Qed.

Lemma sort_by_energy_perm (l l' : list MyConformer) :
  sort_by_energy l = Ok l' → l' ≡ₚ l.
Proof.
  unfold sort_by_energy.
  destruct (energy_keys l) as [ks|] eqn:Hk; [| done]. simpl. intros [= <-].
  apply energy_keys_spec in Hk as [Hl _].
  rewrite <- Hl. apply fmap_Permutation, sort_by_key_perm.
Qed.

(** X14.  The sort of [add_conformers] only reorders: its result has the
    conformers of the list, each as often as the list has it.  A list
    already in order of energy comes back as it is, conformers of equal
    energy included, and sorting a sorted result again changes nothing.
    A conformer without energy (a failed one) makes the sort raise. *)
Theorem sort_by_energy_reorders (l : list MyConformer) :
  (∀ l', sort_by_energy l = Ok l' →
     l' ≡ₚ l
     ∧ (sorted_by_energy l → l' = l)
     ∧ (flt_strict_weak → sort_by_energy l' = Ok l'))
  ∧ (Exists (λ c, energy c = None) l → sort_by_energy l = Raise AttributeError).
Proof.
  split.
  - intros l' Hsort. split; [by apply sort_by_energy_perm |].
    revert Hsort. unfold sort_by_energy.
    destruct (energy_keys l) as [ks|] eqn:Hk; [| done]. simpl. intros [= <-].
    apply energy_keys_spec in Hk as [Hl HF]. split.
    + intros Hs. rewrite sort_by_key_fixed; [done |].
      apply keys_strongly_sorted; [done | by rewrite Hl].
    + intros Hw.
      rewrite energy_keys_of_keys by (by apply sort_by_key_Forall). simpl.
      by rewrite sort_by_key_fixed by (by apply sort_by_key_sorted).
  - intros Hx. unfold sort_by_energy. by rewrite energy_keys_unset.
Qed.

(** ** The deduplication pass *)

Lemma for_each_inv {A B} (I : B → Prop) (P : A → Prop) (f : B → A → result B)
    (l : list A) (b b' : B) :
  (∀ x a y, P a → I x → f x a = Ok y → I y) →
  Forall P l → I b → for_each f l b = Ok b' → I b'.
Proof.
  intros Hf Hl. revert b. induction Hl as [|a l Ha _ IH]; intros b Hb; simpl.
  - by intros [= <-].
  - destruct (f b a) as [y|] eqn:Hy; [| done]. simpl. apply IH. by eapply Hf.
Qed.

Lemma align_to_me_first (c1 c2 c1' c2' : MyConformer) :
  align_to_me c1 c2 = Ok (c1', c2') → conformer c1' = conformer c1.
Proof.
  unfold align_to_me, set_conformer, conformer. intros H.
  destruct (conf_mol c1) as [|g1 l1] eqn:H1; simplify_eq/=.
  destruct (conf_mol c2) as [|g2 [|x l2]] eqn:H2; simplify_eq/=.
  destruct (ids_hvy_atms c1) eqn:Hi; simplify_eq/=.
  destruct (last _) eqn:Hl; simplify_eq/=.
  destruct l1 as [|ref rest]; simpl; [done |].
  by destruct rest.
Qed.

Lemma compare_pair_head (cutoff : Float) (c : MyConformer) (i1 i2 : nat)
    (confs confs' : list (option MyConformer)) :
  i2 ≠ 0 → head_kept c confs →
  compare_pair cutoff i1 confs i2 = Ok confs' → head_kept c confs'.
Proof.
  intros Hi (c0 & H0 & Hs & Hg). unfold compare_pair. intros H.
  destruct (confs !! i2) as [[c2|]|] eqn:H2; simplify_eq/=;
    [| by exists c0].
  destruct (confs !! i1) as [[c1|]|] eqn:H1; simplify_eq/=.
  destruct (align_to_me c1 c2) as [[c1' c2']|] eqn:Ha; simplify_eq/=.
  destruct (rmsd_to_me c1' c2') as [d|]; simplify_eq/=.
  assert (Hh : head_kept c (<[i2 := Some c2']> (<[i1 := Some c1']> confs))).
  { unfold head_kept. rewrite list_lookup_insert_ne by done.
    destruct (decide (i1 = 0)) as [-> | Hn].
    - rewrite list_lookup_insert_eq by (by eapply lookup_lt_Some).
      rewrite H0 in H1. injection H1 as ->. exists c1'. split; [done |].
      split.
      + eapply same_identity_trans; [exact Hs |].
        by apply align_to_me_same in Ha as [? _].
      + by rewrite (align_to_me_first _ _ _ _ Ha).
    - rewrite list_lookup_insert_ne by done. by exists c0. }
  destruct (fle d cutoff); [| done].
  destruct Hh as (c' & Hc' & Hr). exists c'. split; [| done].
  by rewrite list_lookup_insert_ne.
Qed.

Lemma compare_from_head (cutoff : Float) (c : MyConformer) (i1 : nat)
    (confs confs' : list (option MyConformer)) :
  head_kept c confs →
  compare_from cutoff confs i1 = Ok confs' → head_kept c confs'.
Proof.
  intros Hh. unfold compare_from.
  destruct (confs !! i1) as [[c1|]|]; [| by intros [= <-] | done].
  apply (for_each_inv (head_kept c) (λ i2, i2 ≠ 0)); [| | done].
  - intros x a y Ha Hx. by apply compare_pair_head.
  - apply Forall_seq. intros j Hj. lia.
Qed.

Lemma survivors_length (l l' : list MyConformer) :
  survivors l l' → (length l' ≤ length l)%nat.
Proof. induction 1; simpl; lia. Qed.

(** X15.  The deduplication pass never removes the first conformer of the
    list (after the sort, the one of lowest energy): it is still first
    afterwards, with its first geometry.  The pass never makes the list
    longer, and a list of at most one conformer is left as it is, without
    any call to RDKit. *)
Theorem eliminate_keeps_first (cutoff : Float) (m : MyMol) :
  ((length (conformers m) ≤ 1)%nat →
   eliminate_structurally_similar_conformers cutoff m = Ok m)
  ∧ (∀ m', eliminate_structurally_similar_conformers cutoff m = Ok m' →
       (length (conformers m') ≤ length (conformers m))%nat
       ∧ ∀ c l, conformers m = c :: l →
           ∃ c' l', conformers m' = c' :: l' ∧ same_identity c c'
                    ∧ conformer c' = conformer c).
Proof.
  split.
  - intros Hl. unfold eliminate_structurally_similar_conformers.
    destruct m as [? ? ? ? ? ? confs ? ? ? ? ? ? ?]. simpl in *.
    destruct confs as [|c [|c2 confs]]; simpl in *; [done | done | lia].
  - intros m' H. split.
    { apply survivors_length. by apply eliminate_survivors in H as [? _]. }
    intros c l Hc. revert H.
    unfold eliminate_structurally_similar_conformers.
    destruct (for_each _ _ _) as [confs|] eqn:Hf; [| done]. simpl.
    intros [= <-]. simpl.
    assert (Hh : head_kept c confs).
    { revert Hf. apply (for_each_inv (head_kept c) (λ _, True)).
      - intros x a y _ Hx. by apply compare_from_head.
      - by apply Forall_true.
      - rewrite Hc. exists c. split; [done |]. split; [| done].
        apply same_identity_refl. }
    destruct Hh as (c' & H0 & Hs & Hg).
    destruct confs as [|o confs]; [done |]. simpl in H0.
    injection H0 as ->. simpl. by exists c', (remove_None confs).
Qed.

(** ** Adding conformers *)

Lemma add_new_confs_length (n : nat) (m m' : MyMol) (sd sd' : Seed) :
  add_new_confs n m sd = Ok (m', sd') →
  (length (conformers m') ≤ length (conformers m) + n)%nat
  ∧ rdkit_mol m' = rdkit_mol m.
Proof.
  revert m sd. induction n as [|n IH]; intros m sd; simpl.
  - intros [= <- <-]. split; [lia | done].
  - destruct (MyConformer_init m None sd) as [[[c m1] sd1]|] eqn:Hi; [| done].
    simpl. intros H. apply IH in H as [Hl Hr].
    apply MyConformer_init_conformers in Hi as [Hc Hg].
    destruct (conf_mol c); simpl in *.
    + rewrite Hc in Hl. split; [lia | congruence].
    + rewrite length_app, Hc in Hl. simpl in Hl. split; [lia | congruence].
Qed.

Lemma minimize_all_length (l l' : list MyConformer) :
  minimize_all l = Ok l' → length l' = length l.
Proof.
  revert l'. induction l as [|c l IH]; intros l'; simpl.
  - by intros [= <-].
  - destruct (minimize c); [| done]. simpl.
    destruct (minimize_all l) as [l''|]; [| done]. simpl. intros [= <-].
    simpl. by rewrite (IH _ eq_refl).
Qed.

(** X16.  [add_conformers(num, ...)] never stores more conformers than the
    larger of [num] and the number it started with.  When the record
    already has [num] conformers no embedding is drawn: the random state
    comes back as it was, and nothing of the record changes but the list
    of conformers. *)
Theorem add_conformers_count (num : Z) (cutoff : Float) (do_minimize : bool)
    (m m' : MyMol) (sd sd' : Seed) :
  add_conformers num cutoff do_minimize m sd = Ok (m', sd') →
  (Z.of_nat (length (conformers m'))
   ≤ Z.max num (Z.of_nat (length (conformers m))))%Z
  ∧ rdkit_mol m' = rdkit_mol m
  ∧ ((num ≤ Z.of_nat (length (conformers m)))%Z →
     sd' = sd ∧ m' = set_conformers (conformers m') m).
Proof.
  unfold add_conformers.
  destruct (add_new_confs _ m sd) as [[m1 sd1]|] eqn:Ha; [| done]. simpl.
  destruct (if do_minimize then minimize_all (conformers m1)
            else Ok (conformers m1)) as [l1|] eqn:Hmin; [| done]. simpl.
  destruct (sort_by_energy l1) as [l2|] eqn:Hsort; [| done]. simpl.
  destruct (eliminate_structurally_similar_conformers cutoff _) as [m2|] eqn:He;
    [| done]. simpl. intros [= <- <-].
  apply eliminate_survivors in He as [Hsv Hm2]. simpl in Hsv.
  apply survivors_length in Hsv.
  apply sort_by_energy_perm, Permutation_length in Hsort as Hp.
  assert (Hl1 : length l1 = length (conformers m1)).
  { destruct do_minimize; [by apply minimize_all_length | congruence]. }
  pose proof (add_new_confs_length _ _ _ _ _ Ha) as [Hlen Hr].
  split; [lia |]. split.
  { rewrite Hm2. simpl. done. }
  intros Hn. revert Ha.
  replace (Z.to_nat (Z.max 0 (num - Z.of_nat (length (conformers m))))) with 0
    by lia.
  simpl. intros [= <- <-]. split; [done |]. rewrite Hm2 at 1.
  by destruct m.
Qed.

End PassFacts.

Section RecordFacts.
Context `{R : PyRuntime} `{E : ChemEngine}.

(** ** makeMol3D and loading conformers *)

Lemma MyConformer_init_unminimized (mol mol' : MyMol) (o : option Geom)
    (sd sd' : Seed) (c : MyConformer) :
  MyConformer_init mol o sd = Ok (c, mol', sd') →
  conf_mol c ≠ CMolFalse → minimized c = Some false ∧ is_Some (energy c).
Proof.
  unfold MyConformer_init. intros H.
  destruct (rdkit_mol mol) as [| |g]; simplify_eq/=.
  destruct (smiles false mol) as [[v m1]|]; simplify_eq/=.
  destruct (match o with Some _ => _ | None => _ end) as [[|g' [|c0 rest]] sd1];
    simplify_eq/=; [done |]. intros _. split; [done | by eexists].
Qed.

Lemma add_conformers_first (big : Float) (m : MyMol) (sd : Seed) :
  conformers m = [] →
  add_conformers 1 big false m sd = add_new_confs 1 m sd.
Proof.
  intros Hc. unfold add_conformers. rewrite Hc.
  change (Z.to_nat (Z.max 0 (1 - Z.of_nat (length (@nil MyConformer))))) with 1.
  simpl.
  destruct (MyConformer_init m None sd) as [[[c m1] sd1]|] eqn:Hi; [| done].
  simpl. pose proof (MyConformer_init_conformers _ _ _ _ _ _ Hi) as [Hc1 _].
  pose proof (MyConformer_init_unminimized _ _ _ _ _ _ Hi) as Hu.
  rewrite Hc in Hc1.
  destruct (conf_mol c) eqn:Hm; simpl.
  - rewrite Hc1. simpl.
    unfold eliminate_structurally_similar_conformers. simpl.
    destruct m1; simpl in *; by subst.
  - rewrite Hc1. simpl. destruct Hu as [_ [e He]]; [done |].
    unfold sort_by_energy. simpl. rewrite He. simpl.
    unfold eliminate_structurally_similar_conformers. simpl. done.
Qed.

(** X17.  [makeMol3D] does nothing on a record that has a conformer, and
    raises on a record without conformers and without a graph.  Otherwise
    it adds hydrogens to the graph and builds one conformer, stored unless
    the embedding failed and never minimized; the cutoff it passes on has
    no effect; and once a conformer is stored a second call does nothing. *)
Theorem makeMol3D_first_conformer (big : Float) (m : MyMol) (sd : Seed) :
  (conformers m ≠ [] → makeMol3D big m sd = Ok (m, sd))
  ∧ (conformers m = [] → (∀ g, rdkit_mol m ≠ Mol g) →
     makeMol3D big m sd = Raise ArgumentError)
  ∧ (∀ g, conformers m = [] → rdkit_mol m = Mol g →
       makeMol3D big m sd = add_new_confs 1 (set_rdkit_mol (Mol (AddHs g)) m) sd
       ∧ (∀ big', makeMol3D big' m sd = makeMol3D big m sd)
       ∧ ∀ m' sd', makeMol3D big m sd = Ok (m', sd') →
           rdkit_mol m' = Mol (AddHs g)
           ∧ (GetNumConformers m' ≤ 1)%nat
           ∧ Forall (λ c, minimized c = Some false) (conformers m')
           ∧ (conformers m' ≠ [] → makeMol3D big m' sd' = Ok (m', sd'))).
Proof.
  assert (Hdone : ∀ (b : Float) (x : MyMol) (s : Seed),
            conformers x ≠ [] → makeMol3D b x s = Ok (x, s)).
  { intros b x s Hx. unfold makeMol3D, GetNumConformers.
    rewrite bool_decide_true; [done |]. destruct (conformers x); simpl; [done | lia]. }
  split; [apply Hdone |]. split.
  - intros Hc Hg. unfold makeMol3D, GetNumConformers. rewrite Hc. simpl.
    destruct (rdkit_mol m) as [| |g]; [done | done | by destruct (Hg g)].
  - intros g Hc Hg.
    assert (Heq : ∀ b, makeMol3D b m sd
                       = add_new_confs 1 (set_rdkit_mol (Mol (AddHs g)) m) sd).
    { intros b. unfold makeMol3D, GetNumConformers. rewrite Hc, Hg. simpl.
      by rewrite add_conformers_first. }
    split; [apply Heq |]. split; [intros; by rewrite !Heq |].
    intros m' sd'. rewrite Heq. intros Ha.
    pose proof (add_new_confs_length _ _ _ _ _ Ha) as [Hl Hr]. simpl in Hl, Hr.
    rewrite Hc in Hl. simpl in Hl. split; [done |]. split; [done |].
    split; [| apply Hdone].
    revert Ha. simpl.
    destruct (MyConformer_init _ None sd) as [[[c m1] sd1]|] eqn:Hi; [| done].
    simpl. pose proof (MyConformer_init_conformers _ _ _ _ _ _ Hi) as [Hc1 _].
    pose proof (MyConformer_init_unminimized _ _ _ _ _ _ Hi) as Hu.
    simpl in Hc1. rewrite Hc in Hc1.
    destruct (conf_mol c) eqn:Hm; intros [= <- <-]; simpl.
    + by rewrite Hc1.
    + rewrite Hc1. simpl. constructor; [| done]. by apply Hu.
Qed.

Lemma load_loop (l : list MyConformer) (acc r : list Geom) :
  for_each (λ loaded c, x ← conformer c; Ok (loaded ++ [x])) l acc = Ok r →
  ∃ xs, r = acc ++ xs ∧ Forall2 (λ c x, conformer c = Ok x) l xs.
Proof.
  revert acc. induction l as [|c l IH]; intros acc; simpl.
  - intros [= <-]. exists []. by rewrite app_nil_r.
  - destruct (conformer c) as [x|] eqn:Hx; [| done]. simpl. intros H.
    apply IH in H as (xs & -> & HF). exists (x :: xs).
    split; [by rewrite <- app_assoc | by constructor].
Qed.

Lemma load_loop_Ok (l : list MyConformer) (acc : list Geom) :
  Forall (λ c, is_Ok (conformer c) = true) l →
  is_Ok (for_each (λ loaded c, x ← conformer c; Ok (loaded ++ [x])) l acc) = true.
Proof.
  intros H. revert acc. induction H as [|c l Hc _ IH]; intros acc; simpl; [done |].
  destruct (conformer c); [| done]. simpl. apply IH.
Qed.

(** X18.  [load_conformations_into_mol_3d] gives the rdkit object one
    conformer for each stored one, in the order of the list: the first
    geometry of each.  It returns when every stored conformer has a
    geometry, and raises on a record without a graph. *)
Theorem load_conformations_one_each (m : MyMol) :
  (∀ xs, load_conformations_into_mol_3d m = Ok xs →
     Forall2 (λ c x, conformer c = Ok x) (conformers m) xs
     ∧ length xs = GetNumConformers m)
  ∧ (∀ g, rdkit_mol m = Mol g →
       Forall (λ c, is_Ok (conformer c) = true) (conformers m) →
       is_Ok (load_conformations_into_mol_3d m) = true)
  ∧ ((∀ g, rdkit_mol m ≠ Mol g) →
     load_conformations_into_mol_3d m = Raise AttributeError).
Proof.
  unfold load_conformations_into_mol_3d. split; [| split].
  - intros xs. destruct (rdkit_mol m); [done | done |]. intros H.
    apply load_loop in H as (ys & -> & HF). simpl. split; [done |].
    unfold GetNumConformers. symmetry. by eapply Forall2_length.
  - intros g -> HF. by apply load_loop_Ok.
  - intros Hg. destruct (rdkit_mol m) as [| |g]; [done | done | by destruct (Hg g)].
Qed.

(** ** standardize_smiles *)

(** X19.  [standardize_smiles]: a stored form is returned as it is; when
    molvs standardizes the canonical form, its answer is returned; when
    molvs raises on a record with a graph, the canonical form is returned
    instead; but on a record without a graph the handler itself raises,
    at [self.smiles(True)], and nothing is returned. *)
Theorem standardize_smiles_fallback (ssmiles : string → option string)
    (stdrd : pyval) (m : MyMol) :
  (stdrd ≠ PStr "" → standardize_smiles ssmiles stdrd m = Ok (stdrd, m))
  ∧ (∀ s m1 std, smiles false m = Ok (PStr s, m1) → ssmiles s = Some std →
       standardize_smiles ssmiles (PStr "") m = Ok (PStr std, m1))
  ∧ (∀ s m1 v m2, smiles false m = Ok (PStr s, m1) → s ≠ "" →
       ssmiles s = None → smiles true m1 = Ok (v, m2) →
       standardize_smiles ssmiles (PStr "") m = Ok (PStr s, m2))
  ∧ (∀ v m1, smiles false m = Ok (v, m1) →
       (∀ s, v = PStr s → ssmiles s = None) →
       (∀ g, rdkit_mol m ≠ Mol g) → can_smi_noh m = "" →
       standardize_smiles ssmiles (PStr "") m = Raise ArgumentError).
Proof.
  split; [| split; [| split]].
  - intros Hs. unfold standardize_smiles, py_ne. by rewrite bool_decide_true.
  - intros s m1 std Hs Hstd. unfold standardize_smiles, py_ne. simpl.
    rewrite Hs. simpl. by rewrite Hstd.
  - intros s m1 v m2 Hs Hne Hstd Hn. unfold standardize_smiles, py_ne. simpl.
    rewrite Hs. simpl. rewrite Hstd, Hn. simpl.
    apply smiles_false_inv in Hs as [-> _].
    assert (Hc : can_smi m2 = PStr s).
    { revert Hn. unfold smiles. simpl.
      destruct (negb _); [by intros [= <- <-] |].
      destruct (rdkit_mol m); [done.. |].
      destruct (MolToSmiles _); [| done]. by intros [= <- <-]. }
    unfold smiles, py_ne. simpl. rewrite Hc.
    rewrite bool_decide_true; [done |]. congruence.
  - intros v m1 Hs Hv Hg Hn. unfold standardize_smiles, py_ne. simpl.
    rewrite Hs. simpl.
    assert (Hfail : match v with PStr s => ssmiles s | _ => None end = None).
    { destruct v; [by apply Hv | done | done]. }
    rewrite Hfail.
    apply smiles_false_inv in Hs as [-> _].
    rewrite smiles_true_no_graph; [done | done |]. simpl. apply Hg.
Qed.

(** ** Equality and hashing *)



(** ** The biggest fragment *)

(** X22.  The fragment the desalting step keeps has the largest number of
    heavy atoms; among fragments that tie, it is the last one of the list.
    Without fragments the step raises at [max]. *)
Theorem biggest_frag_largest_last (fs : list Graph) :
  (fs = [] → biggest_frag fs = Raise ValueError)
  ∧ (fs ≠ [] →
     ∃ pre f post, fs = pre ++ f :: post ∧ biggest_frag fs = Ok f
       ∧ Forall (λ f', (GetNumHeavyAtoms f' ≤ GetNumHeavyAtoms f)%nat) fs
       ∧ Forall (λ f', (GetNumHeavyAtoms f' < GetNumHeavyAtoms f)%nat) post)
  ∧ (∀ f, biggest_frag [f] = Ok f).
Proof.
  split; [by intros -> |]. split; [apply biggest_frag_last_max |].
  intros f. unfold biggest_frag. simpl. by rewrite lookup_insert_eq.
Qed.

End RecordFacts.

Section RepairFacts.
Context `{R : PyRuntime} `{E : ChemEngine}.

(** ** What fix_common_errors leaves alone *)

Lemma same_but_graph_refl (m : MyMol) : same_but_graph m m.
Proof. done. Qed.

Lemma same_but_graph_set_can_smi (v : pyval) (m m' : MyMol) :
  same_but_graph m m' → same_but_graph m (set_can_smi v m').
Proof. unfold same_but_graph. intros <-. by destruct m'. Qed.

Lemma same_but_graph_set_rdkit_mol (r : molref) (m m' : MyMol) :
  same_but_graph m m' → same_but_graph m (set_rdkit_mol r m').
Proof. unfold same_but_graph. intros <-. by destruct m'. Qed.

Lemma smiles_false_same_but_graph (m0 m m1 : MyMol) (v : pyval) :
  same_but_graph m0 m → smiles false m = Ok (v, m1) → same_but_graph m0 m1.
Proof.
  intros H Hs. apply smiles_false_inv in Hs as [-> _].
  by apply same_but_graph_set_can_smi.
Qed.

Lemma fix_loop_same_but_graph (fuel : nat) :
  ∀ (mol : molref) (o n : pyval) (m0 m m' : MyMol),
    same_but_graph m0 m →
    fix_loop fuel mol o n m = Some (Ok m') → same_but_graph m0 m'.
Proof.
  induction fuel as [|fuel IH]; intros mol o n m0 m m' Hm; simpl;
    destruct (py_ne o n); try done; try (by intros [= <-]).
  destruct (smiles false m) as [[v m1]|] eqn:Hs; [| done].
  pose proof (smiles_false_same_but_graph _ _ _ _ Hm Hs) as Hm1.
  destruct mol as [| |g].
  - destruct (py_in "[C+]" v); simpl; [| done]. done.
  - by intros [= <-].
  - destruct (fix_pass m1 g v) as [g'|]; [| done].
    destruct (smiles false (set_can_smi (PStr "") (set_rdkit_mol (Mol g') m1)))
      as [[v2 m2]|] eqn:Hs2; [| done].
    apply IH. eapply smiles_false_same_but_graph; [| exact Hs2].
    by apply same_but_graph_set_can_smi, same_but_graph_set_rdkit_mol.
Qed.

(** X23.  [fix_common_errors] changes the graph and the cached canonical
    form and nothing else.  The other caches keep what they held for the
    graph before the repair: afterwards [smiles(True)] and
    [m_num_nonaro_rngs] still return the values stored before. *)
Theorem fix_common_errors_keeps_caches (fuel : nat) (m m' : MyMol) :
  fix_common_errors fuel m = Some (Ok m') →
  same_but_graph m m'
  ∧ can_smi_noh m' = can_smi_noh m
  ∧ nonaro_ring_atom_idx m' = nonaro_ring_atom_idx m
  ∧ chiral_cntrs_only_assigned m' = chiral_cntrs_only_assigned m
  ∧ chiral_cntrs_include_unasignd m' = chiral_cntrs_include_unasignd m
  ∧ crzy_substruct m' = crzy_substruct m
  ∧ frgs m' = frgs m
  ∧ conformers m' = conformers m
  ∧ (can_smi_noh m ≠ "" → smiles true m' = Ok (PStr (can_smi_noh m), m'))
  ∧ (∀ l, nonaro_ring_atom_idx m = Some l → m_num_nonaro_rngs m' = Ok (l, m')).
Proof.
  unfold fix_common_errors.
  destruct (smiles false m) as [[v m1]|] eqn:Hs; [| done]. intros Hl.
  assert (H : same_but_graph m m').
  { eapply fix_loop_same_but_graph; [| exact Hl].
    eapply smiles_false_same_but_graph; [apply same_but_graph_refl | exact Hs]. }
  split; [done |].
  assert (Hn : can_smi_noh m' = can_smi_noh m)
    by exact (f_equal can_smi_noh H).
  assert (Hr : nonaro_ring_atom_idx m' = nonaro_ring_atom_idx m)
    by exact (f_equal nonaro_ring_atom_idx H).
  split; [done |]. split; [done |].
  split; [exact (f_equal chiral_cntrs_only_assigned H) |].
  split; [exact (f_equal chiral_cntrs_include_unasignd H) |].
  split; [exact (f_equal crzy_substruct H) |].
  split; [exact (f_equal frgs H) |].
  split; [exact (f_equal conformers H) |]. split.
  - intros Hne. rewrite <- Hn in *.
    by apply smiles_true_stored.
  - intros l Hl'. unfold m_num_nonaro_rngs. by rewrite Hr, Hl'.
Qed.


(** ** Records without a graph *)


(** ** Running the deduplication pass again *)

Lemma pair_rmsd_ref_realigned (c c1 c2 c1' c2' : MyConformer) :
  alignment_invariant_ref →
  usable c → usable c1 → usable c2 →
  align_to_me c1 c2 = Ok (c1', c2') →
  pair_rmsd c2' c = pair_rmsd c2 c.
Proof.
  intros Hinv (g & x & i & s & a & M & I & S & P)
         (g1 & x1 & i1 & s1 & a1 & M1 & I1 & S1 & P1)
         (g2 & x2 & i2 & s2 & a2 & M2 & I2 & S2 & P2) Ha.
  destruct c as [m sm mi e id], c1 as [m1 sm1 mi1 e1 id1],
           c2 as [m2 sm2 mi2 e2 id2]; simplify_eq/=.
  unfold align_to_me in Ha; simplify_eq/=.
  unfold pair_rmsd, align_to_me, rmsd_to_me; simpl. rewrite P2; simpl.
  by rewrite Hinv.
Qed.

Lemma far_ref_realigned (cutoff : Float) (c c1 c2 c1' c2' : MyConformer) :
  alignment_invariant_ref →
  usable c → usable c1 → usable c2 →
  align_to_me c1 c2 = Ok (c1', c2') →
  far cutoff c2 c → far cutoff c2' c.
Proof.
  intros Hinv Hc H1 H2 Ha (d & Hd & Hle). exists d. split; [| done].
  by rewrite (pair_rmsd_ref_realigned c c1 c2 c1' c2').
Qed.

Lemma compare_pair_live (cutoff : Float) (i1 i2 : nat)
    (confs : list (option MyConformer)) :
  alignment_invariant → alignment_invariant_ref →
  i1 < i2 < length confs →
  all_usable confs → all_live_far cutoff confs →
  ∃ confs', compare_pair cutoff i1 confs i2 = Ok confs'
            ∧ length confs' = length confs
            ∧ all_usable confs' ∧ all_live_far cutoff confs'.
Proof.
  intros Hinv Href [Hlt Hlen] Hus [Hlive Hfar]. unfold compare_pair.
  destruct (lookup_lt_is_Some_2 confs i2 Hlen) as [o2 H2].
  destruct (proj1 (Forall_lookup _ _) Hlive _ _ H2) as [c2 ->].
  destruct (lookup_lt_is_Some_2 confs i1 ltac:(lia)) as [o1 H1].
  destruct (proj1 (Forall_lookup _ _) Hlive _ _ H1) as [c1 ->].
  rewrite H2, H1.
  pose proof (Hus _ _ H1) as U1. pose proof (Hus _ _ H2) as U2.
  destruct (align_to_me_usable c1 c2) as (c2' & Ha & U2' & Hr & Hok); eauto.
  rewrite Ha; simpl. rewrite Hr.
  destruct (Hfar i1 i2 c1 c2 Hlt H1 H2) as (d & Hd & Hle).
  rewrite Hd. simpl. rewrite Hle.
  rewrite (list_insert_id confs i1 (Some c1)) by done.
  eexists. split; [done |]. rewrite length_insert. split; [done |].
  split; [| split].
  - intros j c Hj. destruct (decide (j = i2)) as [->|Hne].
    + rewrite list_lookup_insert_eq in Hj by done. by simplify_eq.
    + rewrite list_lookup_insert_ne in Hj by done. eauto.
  - apply Forall_insert; [done | by eexists].
  - intros i j ci cj Hij Hi Hj.
    destruct (decide (i = i2)) as [->|Hni].
    + rewrite list_lookup_insert_eq in Hi by done.
      rewrite list_lookup_insert_ne in Hj by lia. simplify_eq.
      eapply (far_ref_realigned cutoff cj c1 c2); eauto.
    + rewrite list_lookup_insert_ne in Hi by done.
      destruct (decide (j = i2)) as [->|Hnj].
      * rewrite list_lookup_insert_eq in Hj by done. simplify_eq.
        eapply (far_realigned cutoff ci c1 c2); eauto.
      * rewrite list_lookup_insert_ne in Hj by done. eauto.
Qed.

Lemma inner_loop_live (cutoff : Float) (i1 : nat) (n : nat) :
  alignment_invariant → alignment_invariant_ref →
  ∀ k (confs : list (option MyConformer)),
    k + n = length confs → i1 < k →
    all_usable confs → all_live_far cutoff confs →
    ∃ confs', for_each (compare_pair cutoff i1) (seq k n) confs = Ok confs'
              ∧ length confs' = length confs
              ∧ all_usable confs' ∧ all_live_far cutoff confs'.
Proof.
  intros Hinv Href.
  induction n as [|n IH]; intros k confs Hlen Hk Hus Hl; simpl; [by eexists |].
  destruct (compare_pair_live cutoff i1 k confs Hinv Href)
    as (confs1 & -> & Hl1 & Hus1 & Hlf1); try done; [lia |].
  simpl.
  destruct (IH (S k) confs1) as (confs' & -> & Hl' & Hus' & Hlf'); try done;
    [lia | lia |].
  eexists; split; [done |]. split; [congruence | done].
Qed.

Lemma outer_loop_live (cutoff : Float) (n : nat) :
  alignment_invariant → alignment_invariant_ref →
  ∀ k (confs : list (option MyConformer)),
    (k + n ≤ length confs)%nat →
    all_usable confs → all_live_far cutoff confs →
    ∃ confs', for_each (compare_from cutoff) (seq k n) confs = Ok confs'
              ∧ length confs' = length confs
              ∧ all_usable confs' ∧ all_live_far cutoff confs'.
Proof.
  intros Hinv Href.
  induction n as [|n IH]; intros k confs Hlen Hus Hl; simpl; [by eexists |].
  assert (∃ confs1, compare_from cutoff confs k = Ok confs1
                    ∧ length confs1 = length confs
                    ∧ all_usable confs1 ∧ all_live_far cutoff confs1)
    as (confs1 & -> & Hl1 & Hus1 & Hlf1).
  { unfold compare_from.
    destruct (lookup_lt_is_Some_2 confs k) as [[c1|] H1]; [lia | |];
      rewrite H1; [| by eexists].
    apply (inner_loop_live cutoff k); [done | done | lia | lia | done | done]. }
  simpl.
  destruct (IH (S k) confs1) as (confs' & -> & Hl' & Hus' & Hlf'); try done; [lia |].
  eexists; split; [done |]. split; [congruence | done].
Qed.

Lemma remove_None_live {A} (l : list (option A)) :
  Forall (λ o, is_Some o) l → length (remove_None l) = length l.
Proof.
  induction 1 as [|o l [x ->] _ IH]; [done |]. simpl. by rewrite IH.
Qed.

Lemma survivors_all (l l' : list MyConformer) :
  survivors l l' → length l' = length l → Forall2 same_identity l l'.
Proof.
  induction 1 as [|c l l' Hs IH|c c' l l' Hi Hs IH]; simpl; intros Hlen.
  - constructor.
  - apply survivors_length in Hs. lia.
  - constructor; [done |]. apply IH. lia.
Qed.

Lemma eliminate_nothing (cutoff : Float) (m : MyMol) :
  alignment_invariant → alignment_invariant_ref →
  Forall usable (conformers m) → all_far cutoff (conformers m) →
  ∃ m', eliminate_structurally_similar_conformers cutoff m = Ok m'
        ∧ Forall2 same_identity (conformers m) (conformers m').
Proof.
  intros Hinv Href Hus Hfar.
  assert (Hall : all_usable (Some <$> conformers m)).
  { intros i c Hi. rewrite list_lookup_fmap in Hi.
    destruct (conformers m !! i) as [c0|] eqn:Hc; simplify_eq/=.
    by eapply (proj1 (Forall_lookup _ _) Hus). }
  assert (Hlf : all_live_far cutoff (Some <$> conformers m)).
  { split.
    - apply Forall_fmap, Forall_true. intros c. by eexists.
    - intros i j ci cj Hij Hi Hj. rewrite list_lookup_fmap in Hi, Hj.
      destruct (conformers m !! i) as [ci0|] eqn:Hci; simplify_eq/=.
      destruct (conformers m !! j) as [cj0|] eqn:Hcj; simplify_eq/=.
      by eapply Hfar. }
  destruct (outer_loop_live cutoff (length (Some <$> conformers m) - 1) Hinv Href 0
              (Some <$> conformers m))
    as (confs & Hfor & Hlen & Hus' & Hlive & _); [lia | done | done |].
  assert (Hel : eliminate_structurally_similar_conformers cutoff m
                = Ok (set_conformers (remove_None confs) m)).
  { unfold eliminate_structurally_similar_conformers. by rewrite Hfor. }
  eexists; split; [exact Hel |]. simpl.
  apply survivors_all.
  - by destruct (eliminate_survivors _ _ _ Hel).
  - rewrite remove_None_live by done. by rewrite Hlen, length_fmap.
Qed.

(** X26.  The deduplication pass is stable: when alignment is optimal
    over rigid motions, a second pass over the conformers a first pass
    left removes none of them. *)
Theorem eliminate_twice (cutoff : Float) (m : MyMol) :
  alignment_invariant → alignment_invariant_ref →
  Forall usable (conformers m) →
  ∃ m1 m2,
    eliminate_structurally_similar_conformers cutoff m = Ok m1
    ∧ eliminate_structurally_similar_conformers cutoff m1 = Ok m2
    ∧ length (conformers m2) = length (conformers m1)
    ∧ Forall2 same_identity (conformers m1) (conformers m2)
    ∧ all_far cutoff (conformers m2).
Proof.
  intros Hinv Href Hus.
  destruct (eliminate_far cutoff m Hinv Hus) as (m1 & H1 & Hfar1 & _ & Hus1).
  destruct (eliminate_nothing cutoff m1 Hinv Href Hus1 Hfar1) as (m2 & H2 & Hsame).
  exists m1, m2. split; [done |]. split; [done |].
  split; [symmetry; by eapply Forall2_length |]. split; [done |].
  destruct (eliminate_far cutoff m1 Hinv Hus1) as (m2' & H2' & Hfar2 & _).
  rewrite H2 in H2'. by injection H2' as <-.
Qed.

End RepairFacts.

Section UncanonicalFacts.
Context `{R : PyRuntime} `{E : ChemEngine}.

(** ** Records built from a graph that cannot be written *)

(** X27.  A record built from an rdkit object that has no canonical form
    keeps the object in place of its notations and False as canonical
    form: [smiles()] returns False, the hash is that of False, and
    [crzy_substruc], [get_frags_of_orig_smi] and [fix_common_errors] raise,
    each at a test [in] on a value that is not a string. *)
Theorem record_from_uncanonical_graph (g : Graph) (nm : string) :
  MolToSmiles g = None →
  ∃ m, MyMol_init (inr g) nm = Ok m
    ∧ rdkit_mol m = Mol g ∧ can_smi m = PBool false
    ∧ orig_smi m = SmiMol g ∧ orig_smi_deslt m = SmiMol g
    ∧ smiles false m = Ok (PBool false, m)
    ∧ MyMol_hash m = Ok (0%Z, m)
    ∧ crzy_substruc m = Raise TypeError
    ∧ get_frags_of_orig_smi m = Raise TypeError
    ∧ (∀ fuel, fix_common_errors (S fuel) m = Some (Raise TypeError)).
Proof.
  intros Hg. unfold MyMol_init. rewrite Hg. simpl.
  eexists. split; [reflexivity |]. simpl.
  split; [done |]. split; [done |]. split; [done |]. split; [done |].
  split; [done |]. split; [done |]. split; [done |]. split; [done |].
  intros fuel. apply (fix_common_errors_uncanonical fuel _ g); [done | done |].
  by right; right.
Qed.

End UncanonicalFacts.

Section PropsFacts.
Context `{R : PyRuntime} `{E : ChemEngine}.

(** ** Properties of the rdkit object *)

Lemma setRDKitMolProp_graph (m : MyMol) (g : Graph) (key val : string)
    (props : gmap string string) :
  rdkit_mol m = Mol g → setRDKitMolProp key val m props = Ok (<[key := val]> props).
Proof.
  intros Hg. unfold setRDKitMolProp. rewrite Hg. by rewrite !insert_insert_eq.
Qed.

Lemma set_props_loop (m : MyMol) (g : Graph) (l : list (string * string))
    (props : gmap string string) :
  rdkit_mol m = Mol g → NoDup l.*1 →
  for_each (λ props kv, setRDKitMolProp kv.1 kv.2 m props) l props
  = Ok (list_to_map l ∪ props).
Proof.
  intros Hg Hl. revert props.
  induction l as [|[k v] l IH]; intros props.
  - simpl. by rewrite (left_id_L ∅ (∪)).
  - rewrite fmap_cons in Hl. apply NoDup_cons in Hl as [Hk Hl].
    cbn [for_each]. rewrite (setRDKitMolProp_graph m g) by done.
    cbn [mbind result_bind fst snd]. rewrite (IH Hl).
    f_equal. cbn [list_to_map foldr fst snd].
    rewrite <- insert_union_l. rewrite insert_union_r; [done |].
    by apply not_elem_of_list_to_map_1.
Qed.

(** X28.  [setAllRDKitMolProps] on a record with a graph leaves the rdkit
    object with the properties it had, overwritten by SMILES (the form
    without hydrogens), then by the entries of [mol_props], then by
    Genealogy (the genealogy lines joined) and _Name: an entry of
    [mol_props] called SMILES replaces the computed form, while entries
    called Genealogy or _Name are overwritten.  Without a graph
    [setRDKitMolProp] raises. *)
Theorem setAllRDKitMolProps_store (mol_props props : gmap string string)
    (m m1 : MyMol) (g : Graph) (s : string) :
  rdkit_mol m = Mol g → smiles true m = Ok (PStr s, m1) →
  ∃ props',
    setAllRDKitMolProps mol_props m props = Ok (props', m1)
    ∧ props' = <["_Name" := name m]>
                 (<["Genealogy" := join_lines (genealogy m)]>
                    (mol_props ∪ <["SMILES" := s]> props))
    ∧ props' !! "_Name" = Some (name m)
    ∧ props' !! "Genealogy" = Some (join_lines (genealogy m))
    ∧ props' !! "SMILES" = Some (default s (mol_props !! "SMILES"))
    ∧ (∀ k, k ≠ "_Name" → k ≠ "Genealogy" → k ≠ "SMILES" →
         props' !! k = match mol_props !! k with
                       | Some v => Some v
                       | None => props !! k
                       end)
    ∧ (∀ key val, setRDKitMolProp key val (set_rdkit_mol MolNone m) props
                  = Raise AttributeError).
Proof.
  intros Hg Hs.
  assert (Hm1 : rdkit_mol m1 = Mol g ∧ name m1 = name m
                ∧ genealogy m1 = genealogy m).
  { revert Hs. unfold smiles. simpl. destruct (negb _).
    - by intros [= _ <-].
    - rewrite Hg. destruct (MolToSmiles _); [| done]. by intros [= _ <-]. }
  destruct Hm1 as (Hg1 & Hn1 & Hgen1).
  eexists. split.
  { unfold setAllRDKitMolProps. rewrite Hs. cbn [mbind result_bind py_str].
    rewrite (setRDKitMolProp_graph m1 g) by done. cbn [mbind result_bind].
    rewrite (set_props_loop m1 g) by (done || apply NoDup_fst_map_to_list).
    cbn [mbind result_bind].
    rewrite (setRDKitMolProp_graph m1 g) by done. cbn [mbind result_bind].
    rewrite (setRDKitMolProp_graph m1 g) by done. cbn [mbind result_bind].
    rewrite list_to_map_to_list, Hn1, Hgen1. reflexivity. }
  split; [reflexivity |].
  split; [by rewrite lookup_insert_eq |].
  split; [by rewrite lookup_insert_ne, lookup_insert_eq |].
  split; [| split].
  - rewrite !lookup_insert_ne by done. rewrite lookup_union.
    rewrite lookup_insert_eq. by destruct (mol_props !! "SMILES").
  - intros k H1 H2 H3. rewrite !lookup_insert_ne by done.
    rewrite lookup_union, lookup_insert_ne by done.
    by destruct (mol_props !! k), (props !! k).
  - done.
Qed.

End PropsFacts.

Section CompareFacts.
Context `{R : PyRuntime} `{E : ChemEngine}.

(** ** Comparing conformers of a molecule without canonical form *)

Lemma rmsd_to_me_no_form (c1 c2 : MyConformer) :
  (∀ s, conf_smiles c1 ≠ PStr s) → rmsd_to_me c1 c2 = Raise TypeError.
Proof.
  intros Hs. unfold rmsd_to_me.
  destruct (conf_smiles c1) as [s| |]; [by destruct (Hs s) | done | done].
Qed.

Lemma compare_pair_no_form (cutoff : Float) (i1 i2 : nat)
    (confs : list (option MyConformer)) (c1 c2 : MyConformer) (x : Geom) :
  confs !! i1 = Some (Some c1) → confs !! i2 = Some (Some c2) →
  stored_ok c1 → conformer c2 = Ok x → (∀ s, conf_smiles c1 ≠ PStr s) →
  compare_pair cutoff i1 confs i2 = Raise TypeError.
Proof.
  intros H1 H2 (Hm & _ & _ & [ids Hi]) Hx Hs. unfold compare_pair.
  rewrite H2, H1.
  assert (Ha : ∃ c1' c2', align_to_me c1 c2 = Ok (c1', c2')
                          ∧ conf_smiles c1' = conf_smiles c1).
  { unfold align_to_me. destruct (conf_mol c1) as [|g confs1]; [done |].
    rewrite Hx. cbn [mbind result_bind]. rewrite Hi. cbn [mbind result_bind].
    assert (Hl : ∃ y, last (AlignMolConformers g ids (confs1 ++ [x])) = Some y).
    { destruct confs1 as [|ref rest]; simpl; [by eexists |].
      rewrite fmap_app. simpl. rewrite last_cons, last_snoc. by eexists. }
    destruct Hl as [y ->]. cbn [mbind result_bind].
    unfold set_conformer. revert Hx. unfold conformer.
    destruct (conf_mol c2) as [|g2 [|x2 r2]]; [done | done |]. intros _.
    cbn [mbind result_bind]. by eexists _, _. }
  destruct Ha as (c1' & c2' & -> & Hs'). cbn [mbind result_bind].
  rewrite rmsd_to_me_no_form; [done |]. by rewrite Hs'.
Qed.

(** X29.  The deduplication pass measures a pair through the canonical
    form the first conformer of the pair took from its molecule.  When the
    first of two or more stored conformers has no such form (None or
    False, as for a molecule that cannot be canonicalized), the pass
    raises at the first comparison; and a conformer takes as its form
    whatever [smiles()] returns for its molecule. *)
Theorem eliminate_needs_canonical_form (cutoff : Float) (m : MyMol)
    (c1 c2 : MyConformer) (l : list MyConformer) (x : Geom) :
  conformers m = c1 :: c2 :: l →
  stored_ok c1 → conformer c2 = Ok x →
  (∀ s, conf_smiles c1 ≠ PStr s) →
  eliminate_structurally_similar_conformers cutoff m = Raise TypeError
  ∧ (∀ mol o sd c mol' sd' v mol1,
       smiles false mol = Ok (v, mol1) →
       MyConformer_init mol o sd = Ok (c, mol', sd') → conf_smiles c = v).
Proof.
  intros Hc Hok Hx Hs. split.
  - unfold eliminate_structurally_similar_conformers. rewrite Hc.
    set (confs := Some <$> c1 :: c2 :: l).
    assert (Hlen : length confs = S (S (length l))).
    { unfold confs. by rewrite length_fmap. }
    assert (Hcf : compare_from cutoff confs 0 = Raise TypeError).
    { unfold compare_from. change (confs !! 0) with (Some (Some c1)).
      cbv iota beta. rewrite Hlen.
      replace (S (S (length l)) - (0 + 1)) with (S (length l)) by lia.
      change (0 + 1) with 1. cbn [seq for_each].
      by rewrite (compare_pair_no_form cutoff 0 1 confs c1 c2 x). }
    rewrite Hlen. replace (S (S (length l)) - 1) with (S (length l)) by lia.
    cbn [seq for_each]. by rewrite Hcf.
  - intros mol o sd c mol' sd' v mol1 Hsm. unfold MyConformer_init.
    destruct (rdkit_mol mol) as [| |g]; [done | done |]. cbn [mbind result_bind].
    rewrite Hsm. cbn [mbind result_bind].
    destruct (match o with Some _ => _ | None => _ end) as [[|g' [|c0 rest]] sd1];
      [| done |]; by intros [= <- _ _].
Qed.

End CompareFacts.

(** * The model at work *)

Import Toy.

Lemma toy_alignment_invariant : alignment_invariant.
Proof. intros amol g ids g0 ids0 a b c. reflexivity. Qed.

Lemma toy_flt_strict_weak : flt_strict_weak.
Proof.
  split; simpl.
  - intros a b H. apply Z.ltb_lt in H. apply Z.ltb_ge. lia.
  - intros a b c H1 H2. apply Z.ltb_ge in H1, H2. apply Z.ltb_ge. lia.
Qed.

Lemma toy_hash_in_range : hash_in_range.
Proof.
  intros s. simpl.
  pose proof (Z.mod_pos_bound (Z.of_nat (String.length s)) 1024 ltac:(lia)). lia.
Qed.

(** C8, the claim as stated fails: the record for "CCO" leaves the
    constructor with its graph built. *)
Lemma MyMol_init_graph_not_deferred :
  ∃ m, MyMol_init (inl "CCO") "ethanol" = Ok m
       ∧ rdkit_mol m = Mol ["CCO"] ∧ rdkit_mol m ≠ MolUnset.
Proof. eexists. split; [reflexivity |]. split; [reflexivity | discriminate]. Qed.

(** C1, the claim as stated fails.  On the small engine, whose hash is the
    length of the string, ethanol and ethylamine have different canonical
    forms and compare equal; and for every engine and every hash with a
    64-bit range, among records built from graphs with pairwise different
    canonical forms there are two that compare equal. *)
Lemma MyMol_eq_not_string_eq :
  (∃ a' b', smiles false ethanol = Ok (PStr "CCO", a')
            ∧ smiles false ethylamine = Ok (PStr "CCN", b')
            ∧ "CCO" ≠ "CCN"
            ∧ MyMol_eq ethanol ethylamine = Ok (true, (a', b')))
  ∧ (∀ (R : PyRuntime) (E : ChemEngine) (mols : nat → Graph) (smi : nat → string),
       hash_in_range →
       (∀ n, MolToSmiles (mols n) = Some (smi n)) →
       (∀ i j, smi i = smi j → i = j) →
       ∃ i j a b a' b',
         MyMol_init (inr (mols i)) "" = Ok a ∧ MyMol_init (inr (mols j)) "" = Ok b
         ∧ smiles false a = Ok (PStr (smi i), a')
         ∧ smiles false b = Ok (PStr (smi j), b')
         ∧ smi i ≠ smi j
         ∧ MyMol_eq a b = Ok (true, (a', b'))).
Proof.
  split.
  - do 2 eexists. split; [reflexivity |]. split; [reflexivity |].
    split; [discriminate | reflexivity].
  - intros R E. apply equal_records_with_different_forms.
Qed.

Lemma MyMol_eq_is_hash_eq_witness :
  ∃ a' b',
    smiles false ethanol = Ok (PStr "CCO", a')
    ∧ smiles false ethanol_3d = Ok (PStr "CCO", b')
    ∧ ∃ r, MyMol_eq ethanol ethanol_3d = Ok (r, (a', b'))
           ∧ (r = true ↔ str_hash "CCO" = str_hash "CCO")
           ∧ ("CCO" = "CCO" → r = true)
           ∧ MyMol_hash ethanol = Ok (str_hash "CCO", a')
           ∧ MyMol_hash ethanol_3d = Ok (str_hash "CCO", b')
           ∧ (r = true → fst <$> MyMol_hash ethanol = fst <$> MyMol_hash ethanol_3d)
           ∧ ((str_hash "CCO" = str_hash "CCO" → "CCO" = "CCO")
              → (r = true ↔ "CCO" = "CCO")).
Proof.
  do 2 eexists. split; [reflexivity |]. split; [reflexivity |].
  apply (MyMol_eq_is_hash_eq ethanol ethanol_3d); reflexivity.
Defined.

Lemma desalter_single_fragment_witness :
  (frgs ethanol = None ∨ frgs ethanol = Some FragsSelf)
  ∧ orig_smi ethanol = SmiStr "CCO"
  ∧ orig_smi_deslt ethanol = SmiStr "CCO"
  ∧ str_contains "." "CCO" = false
  ∧ ∃ m', get_frags_of_orig_smi ethanol = Ok (FragsSelf, m')
          ∧ frags_len FragsSelf = 1
          ∧ desalter (container "CCO" "ethanol" 7) = Ok m'
          ∧ frgs m' = Some FragsSelf
          ∧ set_frgs FragsSelf m' = set_frgs FragsSelf ethanol
          ∧ orig_smi m' = SmiStr "CCO"
          ∧ orig_smi_deslt m' = orig_smi m'.
Proof.
  split; [left; reflexivity |]. split; [reflexivity |]. split; [reflexivity |].
  split; [reflexivity |].
  apply (desalter_single_fragment (container "CCO" "ethanol" 7) "CCO");
    [left |..]; reflexivity.
Defined.

Lemma eliminate_no_close_pair_witness :
  alignment_invariant
  ∧ Forall usable (conformers ethanol_3d)
  ∧ mol_ready ethanol_3d
  ∧ Forall good (conformers ethanol_3d)
  ∧ (∃ m', eliminate_structurally_similar_conformers 1%Z ethanol_3d = Ok m'
           ∧ all_far 1%Z (conformers m')
           ∧ survivors (conformers ethanol_3d) (conformers m'))
  ∧ (∃ m' sd', add_conformers 5 1%Z true ethanol_3d 1 = Ok (m', sd')
               ∧ all_far 1%Z (conformers m')).
Proof.
  assert (Hus : Forall usable (conformers ethanol_3d)).
  { repeat constructor; by eexists _, _, _, _, _. }
  assert (Hr : mol_ready ethanol_3d) by (by eexists _, _, _, _).
  assert (Hg : Forall good (conformers ethanol_3d)).
  { repeat constructor; try (by eexists _, _, _, _, _); try discriminate;
      by eexists. }
  destruct (eliminate_no_close_pair (E:=engine) 1%Z ethanol_3d toy_alignment_invariant)
    as [H1 H2].
  split; [exact toy_alignment_invariant |]. split; [exact Hus |].
  split; [exact Hr |]. split; [exact Hg |].
  split; [exact (H1 Hus) | exact (H2 5%Z true (1 : @Seed engine) Hr Hg)].
Defined.

Lemma add_conformers_sorted_witness :
  flt_strict_weak
  ∧ mol_ready ethanol_3d
  ∧ Forall good (conformers ethanol_3d)
  ∧ is_Ok (add_conformers 5 1%Z false ethanol_3d 1) = true
  ∧ (∀ m' sd', add_conformers 5 1%Z false ethanol_3d 1 = Ok (m', sd') →
       sorted_by_energy (conformers m')
       ∧ Forall (λ c, is_Some (energy c)) (conformers m')).
Proof.
  assert (Hr : mol_ready ethanol_3d) by (by eexists _, _, _, _).
  assert (Hg : Forall good (conformers ethanol_3d)).
  { repeat constructor; try (by eexists _, _, _, _, _); try discriminate;
      by eexists. }
  destruct (add_conformers_sorted (E:=engine) 5 1%Z false ethanol_3d 1 toy_flt_strict_weak)
    as [H1 H2].
  split; [exact toy_flt_strict_weak |]. split; [exact Hr |]. split; [exact Hg |].
  split; [exact (H2 Hr Hg) | exact H1].
Defined.

(** C7, where the code departs from the claim: the notation "C(" does not
    parse, the record's graph is None, the four queries that test for None
    return the empty list, and [crzy_substruc], which does not, raises
    [AttributeError]. *)
Theorem crzy_substruc_raises_on_unparsed :
  MyMol_init (inl "C(") "broken" = Ok unparsed
  ∧ rdkit_mol unparsed = MolNone
  ∧ m_num_nonaro_rngs unparsed = Ok ([], unparsed)
  ∧ chiral_cntrs_w_unasignd unparsed = Ok ([], unparsed)
  ∧ chiral_cntrs_only_asignd unparsed = Ok ([], unparsed)
  ∧ get_double_bonds_without_stereochemistry unparsed = Ok []
  ∧ crzy_substruc unparsed = Raise AttributeError.
Proof.
  assert (Hg : rdkit_mol unparsed = MolNone) by reflexivity.
  destruct (invalid_graph_queries unparsed Hg) as (H1 & H2 & H3 & H4).
  split; [reflexivity |]. split; [exact Hg |].
  split; [exact H1 |]. split; [exact H2 |]. split; [exact H3 |].
  split; [exact H4 |].
  apply crzy_substruc_invalid_graph; reflexivity.
Qed.

(** C6, where the code departs from the claim: the notation the source
    itself quotes as one that cannot be put in canonical form parses to a
    graph whose canonical form is None, and [fix_common_errors] on that
    record neither returns the failure signal nor reaches a fixed point: it
    raises [TypeError] in its first pass, whatever the bound on passes.  On
    a record without a graph it returns at once. *)
Theorem fix_common_errors_raises_on_uncanonical :
  (∃ g, rdkit_mol beast = Mol g ∧ MolToSmiles g = None
        ∧ smiles false beast = Ok (PNone, set_can_smi PNone beast))
  ∧ (∀ fuel, fix_common_errors (S fuel) beast = Some (Raise TypeError))
  ∧ (∀ fuel, ∃ m', fix_common_errors (S fuel) unparsed = Some (Ok m')
                   ∧ rdkit_mol m' = MolNone).
Proof.
  split; [| split].
  - eexists. split; [reflexivity |]. split; reflexivity.
  - intros fuel. eapply fix_common_errors_uncanonical; [reflexivity.. |].
    by left.
  - intros fuel. by apply fix_common_errors_invalid_graph.
Qed.

(** C4, where the code departs from the claim: for the container of
    "CCO.[Na+].[Cl-]" the fragments are three, the biggest one is "CCO" and
    the record built from it carries the container's index and name and the
    genealogy of its record; [desalter] would return that record if [MyMol]
    had a method [make_mol_frm_smiles_sanitze], but the class has none and
    the call raises [AttributeError]. *)
Theorem desalter_raises_on_salt :
  let contnr := container "CCO.[Na+].[Cl-]" "salt" 7 in
  fst <$> cont_get_frags_of_orig_smi contnr
    = Ok (FragsMols [["CCO"]; ["[Na+]"]; ["[Cl-]"]])
  ∧ biggest_frag [["CCO"]; ["[Na+]"]; ["[Cl-]"]] = Ok ["CCO"]
  ∧ (∃ new_mol,
       desalter_in ("make_mol_frm_smiles_sanitze" :: MyMol_attributes) contnr
         = Ok new_mol
       ∧ rdkit_mol new_mol = Mol ["CCO"]
       ∧ contnr_idx new_mol = Some 7%Z ∧ name new_mol = "salt"
       ∧ genealogy new_mol = genealogy (mol_orig_frm_inp_smi contnr))
  ∧ ("make_mol_frm_smiles_sanitze" ∉ MyMol_attributes)
  ∧ desalter contnr = Raise AttributeError.
Proof.
  intros contnr.
  destruct (desalter_in_multi_fragment MyMol_attributes contnr
              "CCO.[Na+].[Cl-]" [ "CCO"; "[Na+]"; "[Cl-]" ])
    as (pre & f & post & nm & _ & _ & _ & _ & _ & _ & _ & Hd);
    [reflexivity.. | simpl; lia |].
  split; [reflexivity |]. split; [reflexivity |]. split; [| split].
  - eexists. split; [reflexivity |]. by repeat split.
  - apply (bool_decide_unpack _). vm_compute. exact I.
  - unfold desalter. rewrite Hd.
    by rewrite make_mol_frm_smiles_sanitze_undefined.
Qed.

Lemma minimize_idempotent_witness :
  ∃ c', minimize (conf (2, 3)%Z) = Ok c'
        ∧ minimized c' = Some true ∧ energy c' = Some 0%Z
        ∧ minimize c' = Ok c'.
Proof.
  destruct (minimize_idempotent (conf (2, 3)%Z)) as (_ & H2 & _).
  eexists. split; [reflexivity |].
  destruct (H2 _ eq_refl) as (Ha & Hb & _).
  split; [exact Ha |]. split; [reflexivity | exact Hb].
Defined.

Lemma failed_conformer_never_stored_witness :
  (EmbedMolecule_ETKDG ["CCO"] 3).1 = None
  ∧ (EmbedMolecule_default ["CCO"] (EmbedMolecule_ETKDG ["CCO"] 3).2).1 = None
  ∧ (∃ c m' sd', MyConformer_init ethanol None 3 = Ok (c, m', sd')
       ∧ conf_mol c = CMolFalse ∧ minimized c = None ∧ energy c = None
       ∧ ids_hvy_atms c = None
       ∧ add_new_confs 1 ethanol 3 = Ok (m', sd')
       ∧ conformers m' = conformers ethanol)
  ∧ (∀ m' sd', add_conformers 3 1%Z true ethanol 3 = Ok (m', sd') →
       Forall stored_ok (conformers m')).
Proof.
  destruct (failed_conformer_never_stored (E:=engine) ethanol 3) as (H1 & _ & H3).
  split; [reflexivity |]. split; [reflexivity |]. split.
  - exact (H1 ["CCO"] eq_refl eq_refl eq_refl).
  - intros m' sd' H. eapply H3; [exact H | constructor].
Defined.

(** The small engine rewrites nothing, so its repairs are well founded and
    respect canonical forms: on ethanol [fix_common_errors] returns after
    one pass, at a fixed point, and so does a second call. *)
Lemma fix_common_errors_on_ethanol :
  ∃ fuel m' m'', fix_common_errors fuel ethanol = Some (Ok m')
    ∧ at_fixed_point m'
    ∧ fix_common_errors fuel m' = Some (Ok m'')
    ∧ can_smi m'' = can_smi m' ∧ can_smi m' = PStr "CCO".
Proof.
  assert (Hwf : repairs_well_founded (λ _, 0)).
  { intros m g s Hg Hs. exists g, s. unfold fix_pass. rewrite Hg. simpl.
    split; [by destruct (str_contains _ s) |]. split; [done | congruence]. }
  assert (Hresp : repairs_respect_canonical_form).
  { intros m1 m2 g1 g2 s g1' g2' H1 H2 Hs1 Hs2. unfold fix_pass.
    rewrite H1, H2. simpl. destruct (str_contains _ s); simpl;
      intros [= <-] [= <-]; simpl in Hs1, Hs2; congruence. }
  assert (Hfix : at_fixed_point (set_can_smi (PStr "CCO") ethanol)).
  { exists ["CCO"], "CCO", ethanol, ["CCO"]. repeat split; auto. }
  destruct (fix_common_errors_again (λ _, 0) _ 0 Hwf Hresp Hfix)
    as (m'' & H2 & Hc & _).
  exists 1, (set_can_smi (PStr "CCO") ethanol), m''.
  split; [reflexivity |]. split; [exact Hfix |]. split; [exact H2 |].
  split; [exact Hc | reflexivity].
Qed.

(** * The further properties at work *)

Lemma toy_alignment_invariant_ref : alignment_invariant_ref.
Proof. intros amol g ids g0 ids0 a b c. simpl. lia. Qed.



Lemma ethanol_3d_usable : Forall usable (conformers ethanol_3d).
Proof. repeat constructor; by eexists _, _, _, _, _. Qed.

(** Cyclohexene has one ring and it is not aromatic. *)
Lemma m_num_nonaro_rngs_filter_witness :
  rdkit_mol Lab.cyclohexene = Mol (E:=Lab.engine) ["C1=CCCCC1"]
  ∧ nonaro_ring_atom_idx Lab.cyclohexene = None
  ∧ ∃ rngs m1, m_num_nonaro_rngs Lab.cyclohexene = Ok (rngs, m1)
      ∧ rngs = [[0; 1; 2; 3; 4; 5]]
      ∧ m_num_nonaro_rngs m1 = Ok (rngs, m1).
Proof.
  split; [reflexivity |]. split; [reflexivity |].
  destruct (m_num_nonaro_rngs_filter (E:=Lab.engine) Lab.cyclohexene ["C1=CCCCC1"])
    as (rngs & m1 & H1 & H2 & _ & _ & H3); [reflexivity | reflexivity | |].
  { vm_compute. repeat constructor. }
  exists rngs, m1. split; [exact H1 |]. split; [| exact H3].
  rewrite H2. vm_compute. reflexivity.
Defined.

(** Of the two double bonds of the pair of ethenes, the second has no
    configuration. *)
Lemma double_bonds_listed_witness :
  rdkit_mol Lab.difluoroethene = Mol (E:=Lab.engine) ["F/C=C/F"; "C=C"]
  ∧ ∃ l, get_double_bonds_without_stereochemistry Lab.difluoroethene = Ok l
      ∧ (1 ∈ l ∧ 0 ∉ l) ∧ StronglySorted lt l.
Proof.
  split; [reflexivity |].
  destruct (double_bonds_listed (E:=Lab.engine) Lab.difluoroethene
              ["F/C=C/F"; "C=C"] eq_refl) as (l & H1 & H2 & H3 & _).
  exists l. split; [exact H1 |]. split; [| exact H3]. split.
  - apply H2. eexists. split; [reflexivity |]. split; reflexivity.
  - intros H. apply H2 in H as (b & Hb & _ & Hs). vm_compute in Hb.
    injection Hb as <-. discriminate Hs.
Defined.

(** A notation with a prohibited pattern is flagged from the text. *)
Lemma crzy_substruc_text_or_graph_witness :
  crzy_substruct Lab.imidic_acid = None
  ∧ orig_smi Lab.imidic_acid = SmiStr "CC(O)=N"
  ∧ orig_smi_deslt Lab.imidic_acid = SmiStr "CC(O)=N"
  ∧ can_smi Lab.imidic_acid = PStr ""
  ∧ crzy_substruc Lab.imidic_acid
    = Ok (true, set_crzy_substruct true Lab.imidic_acid)
  ∧ fst <$> crzy_substruc Lab.ethanol = Ok false.
Proof.
  split; [reflexivity |]. split; [reflexivity |]. split; [reflexivity |].
  split; [reflexivity |].
  destruct (crzy_substruc_text_or_graph (E:=Lab.engine) Lab.imidic_acid
              "CC(O)=N" "CC(O)=N" ""
              eq_refl eq_refl eq_refl eq_refl) as [H1 _].
  split; [exact (H1 eq_refl) |].
  destruct (crzy_substruc_text_or_graph (E:=Lab.engine) Lab.ethanol "CCO" "CCO" ""
              eq_refl eq_refl eq_refl eq_refl) as [_ H2].
  destruct (H2 ["CCO"] eq_refl) as [H3 _]. rewrite H3. reflexivity.
Defined.

(** The fragments of a salt are computed once. *)
Lemma get_frags_of_orig_smi_once_witness :
  ∃ m1, get_frags_of_orig_smi (record "CCO.[Na+]" "salt")
        = Ok (FragsMols [["CCO"]; ["[Na+]"]], m1)
    ∧ get_frags_of_orig_smi (inherit_contnr_props m1 ethanol)
      = Ok (FragsMols [["CCO"]; ["[Na+]"]], inherit_contnr_props m1 ethanol)
    ∧ orig_smi (inherit_contnr_props m1 ethanol) = SmiStr "CCO".
Proof.
  eexists. split; [reflexivity |].
  split; [| reflexivity].
  eapply (get_frags_of_orig_smi_once (E:=engine) (record "CCO.[Na+]" "salt")).
  reflexivity.
Defined.

(** A salt whose notation does not parse. *)
Lemma desalter_unparsed_salt_witness :
  frgs (record "C(.O" "broken salt") = None
  ∧ orig_smi (record "C(.O" "broken salt") = SmiStr "C(.O"
  ∧ str_contains "." "C(.O" = true
  ∧ rdkit_mol (record "C(.O" "broken salt") = MolNone
  ∧ get_frags_of_orig_smi (record "C(.O" "broken salt") = Raise ArgumentError
  ∧ desalter_in ("make_mol_frm_smiles_sanitze" :: MyMol_attributes)
      (container "C(.O" "broken salt" 3)
    = Raise ArgumentError
  ∧ desalter (container "C(.O" "broken salt" 3) = Raise ArgumentError.
Proof.
  split; [reflexivity |]. split; [reflexivity |]. split; [reflexivity |].
  split; [reflexivity |].
  destruct (desalter_unparsed_salt (E:=engine)
              ("make_mol_frm_smiles_sanitze" :: MyMol_attributes)
              (container "C(.O" "broken salt" 3) "C(.O"
              eq_refl eq_refl eq_refl eq_refl) as (H1 & H2 & _).
  destruct (desalter_unparsed_salt (E:=engine) MyMol_attributes
              (container "C(.O" "broken salt" 3) "C(.O"
              eq_refl eq_refl eq_refl eq_refl) as (_ & _ & H3).
  split; [exact H1 |]. split; [exact H2 | exact H3].
Defined.

(** Aligning moves the other conformer to the position of the first. *)
Lemma align_to_me_moves_other_witness :
  ∃ self' other',
    align_to_me (conf (1, 0)%Z) (conf (5, 3)%Z) = Ok (self', other')
    ∧ conf_mol other' = CMol ["CCO"] [(1, 3)%Z]
    ∧ conformer self' = Ok (1, 0)%Z.
Proof.
  destruct (align_to_me_moves_other (E:=engine) (conf (1, 0)%Z) (conf (5, 3)%Z)
              ["CCO"] ["CCO"] (1, 0)%Z (5, 3)%Z [] [] [] eq_refl eq_refl eq_refl)
    as (self' & other' & H1 & H2 & _ & H3 & _).
  exists self', other'. split; [exact H1 |]. split; [exact H2 | exact H3].
Defined.

(** A conformer of ethanol built from a geometry, then minimized. *)
Lemma MyConformer_init_given_geometry_witness :
  rdkit_mol ethanol = Mol ["CCO"]
  ∧ ∃ c mol' c',
      MyConformer_init ethanol (Some (2, 3)%Z) 1 = Ok (c, mol', 1)
      ∧ energy c = Some 3%Z ∧ minimize c = Ok c'
      ∧ conformer c' = Ok (2, 0)%Z ∧ energy c' = Some 0%Z.
Proof.
  split; [reflexivity |].
  destruct (MyConformer_init_given_geometry (E:=engine) ethanol ["CCO"] (2, 3)%Z
              (1 : @Seed engine) eq_refl)
    as (c & mol' & c' & H1 & _ & _ & H2 & _ & _ & H3 & H4 & H5 & _).
  exists c, mol', c'. split; [exact H1 |]. split; [exact H2 |].
  split; [exact H3 |]. split; [exact H4 | exact H5].
Defined.

(** Five conformers asked for ethanol, with minimization. *)
Lemma add_conformers_all_minimized_witness :
  is_Ok (add_conformers 5 1%Z true ethanol_3d 1) = true
  ∧ Forall (λ c, minimized c = Some true)
      match add_conformers 5 1%Z true ethanol_3d 1 with
      | Ok (m', _) => conformers m'
      | Raise _ => []
      end.
Proof.
  split; [reflexivity |].
  destruct (add_conformers (E:=engine) 5 1%Z true ethanol_3d 1) as [[m' sd']|] eqn:H;
    [| constructor].
  exact (add_conformers_all_minimized (E:=engine) 5 1%Z ethanol_3d m' 1 sd' H).
Defined.

(** Two conformers asked for a record that has three: nothing is drawn. *)
Lemma add_conformers_count_witness :
  is_Ok (add_conformers 2 1%Z false ethanol_3d 7) = true
  ∧ match add_conformers 2 1%Z false ethanol_3d 7 with
    | Ok (m', sd') =>
        (Z.of_nat (length (conformers m')) ≤ 3)%Z ∧ sd' = 7
        ∧ rdkit_mol m' = rdkit_mol ethanol_3d
    | Raise _ => True
    end.
Proof.
  split; [reflexivity |].
  destruct (add_conformers (E:=engine) 2 1%Z false ethanol_3d 7) as [[m' sd']|] eqn:H;
    [| exact I].
  destruct (add_conformers_count (E:=engine) 2 1%Z false ethanol_3d m' 7 sd' H)
    as (H1 & H2 & H3).
  split; [exact H1 |]. split; [| exact H2].
  apply H3. simpl. lia.
Defined.


(** The repair of the ammonium salt rewrites the graph; the form without
    hydrogens stored before is still the one returned. *)
Lemma fix_common_errors_keeps_caches_witness :
  fix_common_errors 2 Lab.ammonium_noh = Some (Ok Lab.ammonium_fixed)
  ∧ rdkit_mol Lab.ammonium_noh = Mol (E:=Lab.engine) ["CC"; "[N+]"]
  ∧ rdkit_mol Lab.ammonium_fixed = Mol (E:=Lab.engine) ["CC"; "N"]
  ∧ can_smi Lab.ammonium_fixed = PStr "CC.N"
  ∧ smiles true Lab.ammonium_fixed = Ok (PStr "CC.[N+]", Lab.ammonium_fixed).
Proof.
  assert (H : fix_common_errors 2 Lab.ammonium_noh = Some (Ok Lab.ammonium_fixed))
    by reflexivity.
  split; [exact H |]. split; [reflexivity |].
  split; [reflexivity |]. split; [reflexivity |].
  destruct (fix_common_errors_keeps_caches (E:=Lab.engine) 2 Lab.ammonium_noh
              Lab.ammonium_fixed H) as (_ & _ & _ & _ & _ & _ & _ & _ & Hs & _).
  apply Hs. discriminate.
Defined.



(** A second pass over the conformers of ethanol removes none. *)
Lemma eliminate_twice_witness :
  alignment_invariant ∧ alignment_invariant_ref
  ∧ Forall usable (conformers ethanol_3d)
  ∧ ∃ m1 m2,
      eliminate_structurally_similar_conformers 1%Z ethanol_3d = Ok m1
      ∧ eliminate_structurally_similar_conformers 1%Z m1 = Ok m2
      ∧ length (conformers m1) = 2
      ∧ length (conformers m2) = length (conformers m1).
Proof.
  split; [exact toy_alignment_invariant |].
  split; [exact toy_alignment_invariant_ref |].
  split; [exact ethanol_3d_usable |].
  destruct (eliminate_twice (E:=engine) 1%Z ethanol_3d toy_alignment_invariant
              toy_alignment_invariant_ref ethanol_3d_usable)
    as (m1 & m2 & H1 & H2 & H3 & _).
  exists m1, m2. split; [exact H1 |]. split; [exact H2 |]. split; [| exact H3].
  assert (He : (λ m, length (conformers m))
                 <$> eliminate_structurally_similar_conformers (E:=engine) 1%Z ethanol_3d
               = Ok 2) by reflexivity.
  rewrite H1 in He. injection He as He. exact He.
Defined.

(** A graph the small engine cannot write. *)
Lemma record_from_uncanonical_graph_witness :
  MolToSmiles ["C=C=[N+]"] = None
  ∧ ∃ m, MyMol_init (inr ["C=C=[N+]"]) "beast" = Ok m
      ∧ smiles false m = Ok (PBool false, m)
      ∧ crzy_substruc m = Raise TypeError
      ∧ get_frags_of_orig_smi m = Raise TypeError
      ∧ fix_common_errors 1 m = Some (Raise TypeError).
Proof.
  split; [reflexivity |].
  destruct (record_from_uncanonical_graph (E:=engine) ["C=C=[N+]"] "beast" eq_refl)
    as (m & H1 & _ & _ & _ & _ & H2 & _ & H3 & H4 & H5).
  exists m. split; [exact H1 |]. split; [exact H2 |]. split; [exact H3 |].
  split; [exact H4 | exact (H5 0)].
Defined.

(** The first of the three conformers of ethanol survives the pass. *)
Lemma eliminate_keeps_first_witness :
  ∃ m' c' l', eliminate_structurally_similar_conformers 1%Z ethanol_3d = Ok m'
    ∧ conformers m' = c' :: l' ∧ conformer c' = Ok (1, 0)%Z
    ∧ (length (conformers m') ≤ 3)%nat.
Proof.
  destruct (eliminate_keeps_first (E:=engine) 1%Z ethanol_3d) as [_ H].
  destruct (eliminate_structurally_similar_conformers (E:=engine) 1%Z ethanol_3d)
    as [m'|] eqn:He; [| discriminate He].
  destruct (H m' eq_refl) as [Hl Hc].
  destruct (Hc (conf (1, 0)%Z) [conf (2, 0)%Z; conf (5, 3)%Z] eq_refl)
    as (c' & l' & H1 & _ & H2).
  exists m', c', l'. split; [reflexivity |]. split; [exact H1 |].
  split; [exact H2 | exact Hl].
Defined.

(** Hydrogens are added and one conformer is built, whatever the cutoff. *)
Lemma makeMol3D_first_conformer_witness :
  ∃ m', makeMol3D (E:=Lab.engine) 5%Z Lab.ethanol 1 = Ok (m', 2)
    ∧ makeMol3D (E:=Lab.engine) 0%Z Lab.ethanol 1 = Ok (m', 2)
    ∧ rdkit_mol m' = Mol (E:=Lab.engine) ["[H]CCO"] ∧ GetNumConformers m' = 1
    ∧ makeMol3D (E:=Lab.engine) 5%Z m' 2 = Ok (m', 2).
Proof.
  destruct (makeMol3D_first_conformer (E:=Lab.engine) 5%Z Lab.ethanol
              (1 : @Seed Lab.engine)) as (_ & _ & H).
  destruct (H ["CCO"] eq_refl eq_refl) as (_ & Hbig & Hall).
  eexists. split; [reflexivity |]. split; [rewrite (Hbig 0%Z); reflexivity |].
  split; [reflexivity |]. split; [reflexivity |].
  eapply Hall; [reflexivity | discriminate].
Defined.

(** With a standardizer that always fails, ethanol falls back on its
    canonical form and the unparsed record raises. *)
Lemma standardize_smiles_fallback_witness :
  (∃ m2, standardize_smiles (λ _, None) (PStr "") ethanol = Ok (PStr "CCO", m2))
  ∧ standardize_smiles (λ _, None) (PStr "") unparsed = Raise ArgumentError.
Proof.
  destruct (standardize_smiles_fallback (E:=engine) (λ _, None) (PStr "") ethanol)
    as (_ & _ & H3 & _).
  destruct (standardize_smiles_fallback (E:=engine) (λ _, None) (PStr "") unparsed)
    as (_ & _ & _ & H4).
  split.
  - eexists. eapply H3; [reflexivity | discriminate | reflexivity | reflexivity].
  - eapply H4; [reflexivity | done | | reflexivity].
    intros g Hg. discriminate Hg.
Defined.

(** Conformers of equal energy keep their order. *)
Lemma sort_by_energy_reorders_witness :
  ∃ l', sort_by_energy [conf (1, 3); conf (2, 0); conf (3, 3); conf (4, 1)]%Z = Ok l'
    ∧ l' = [conf (2, 0); conf (4, 1); conf (1, 3); conf (3, 3)]%Z
    ∧ sort_by_energy l' = Ok l'.
Proof.
  destruct (sort_by_energy_reorders (E:=engine)
              [conf (1, 3); conf (2, 0); conf (3, 3); conf (4, 1)]%Z) as [H _].
  eexists. split; [reflexivity |]. split; [reflexivity |].
  eapply H; [reflexivity | exact toy_flt_strict_weak].
Defined.

(** A property of the caller named SMILES replaces the computed form; the
    name cannot be replaced. *)
Lemma setAllRDKitMolProps_store_witness :
  rdkit_mol Lab.ethanol = Mol (E:=Lab.engine) ["CCO"]
  ∧ ∃ m1 props',
      smiles true Lab.ethanol = Ok (PStr "CCO", m1)
      ∧ setAllRDKitMolProps {["SMILES" := "mine"]} Lab.ethanol {["_Name" := "old"]}
        = Ok (props', m1)
      ∧ props' !! "_Name" = Some "ethanol"
      ∧ props' !! "Genealogy" = Some ""
      ∧ props' !! "SMILES" = Some "mine".
Proof.
  split; [reflexivity |].
  eexists.
  destruct (setAllRDKitMolProps_store (E:=Lab.engine) {["SMILES" := "mine"]}
              {["_Name" := "old"]} Lab.ethanol _ ["CCO"] "CCO" eq_refl eq_refl)
    as (props' & H1 & _ & H2 & H3 & H4 & _).
  exists props'. split; [reflexivity |]. split; [exact H1 |].
  split; [exact H2 |]. split; [exact H3 |].
  rewrite H4. by rewrite lookup_singleton_eq.
Defined.

(** Two conformers built on the record that cannot be written. *)
Lemma eliminate_needs_canonical_form_witness :
  smiles false beast = Ok (PNone, set_can_smi PNone beast)
  ∧ GetNumConformers
      match add_new_confs 2 beast 1 with Ok (m, _) => m | Raise _ => beast end = 2
  ∧ eliminate_structurally_similar_conformers 1%Z
      match add_new_confs 2 beast 1 with Ok (m, _) => m | Raise _ => beast end
    = Raise TypeError
  ∧ add_conformers 2 1%Z false beast 1 = Raise TypeError.
Proof.
  split; [reflexivity |]. split; [reflexivity |]. split; [| reflexivity].
  eapply (eliminate_needs_canonical_form (E:=engine) 1%Z);
    [reflexivity | | reflexivity |].
  - split; [discriminate |]. split; [by eexists |]. split; by eexists.
  - intros s. discriminate.
Defined.
